(** * Temu HTML-to-CSV converter: extraction heuristics and CSV sink

    A shallow embedding of [html2csv_final.py] (functions [extract_number],
    [extract_price_from_text], [parse_temu_html], [save_to_csv], [main])
    together with the parts of the interpreter and of its libraries the
    code calls: [str] methods, the backtracking [re] matcher, binary64
    [float] arithmetic, [int] conversion, the BeautifulSoup tree API and
    the [csv] writer of the [excel] dialect.

    Conventions of the model.
    - A Python [str] is a list of Unicode code points ([N]).
    - A [float] is the exact rational it denotes, an infinity or NaN;
      every operation rounds its exact result to the nearest binary64
      value, ties to even.  Signed zeros are not distinguished.
    - [\d] and the digits [float()] and [int()] read are the decimal
      digits of the interpreter's Unicode table, here the one of Unicode
      14.0 (Python 3.11).
    - The extractor starts from the parsed document: reading the file
      and the HTML parser of [BeautifulSoup(html_content, 'html.parser')]
      are outside the model, and [main] takes the parser as a parameter.
    - A file is the text that reading it gives.  Writing encodes the
      text in UTF-8, which refuses surrogates; the other failures of the
      file system (permissions, disk space) are outside the model.
    - Console output ([print]) is not modelled. *)

From Stdlib Require Import String Ascii DecimalString List Bool Arith ZArith NArith QArith Qround Qpower Lia.
From Stdlib Require DecimalFacts DecimalPos.
#[local] Set Warnings "-abstract-large-number,-register-all".
Import ListNotations.

Set Implicit Arguments.

(* ====================================================================== *)
(** * Python strings *)

Module PyStr.

Local Open Scope N_scope.

Definition char := N.
Definition pystr := list char.

(** A literal of the source, made of ASCII characters. *)
Definition u (s : string) : pystr :=
  map N_of_ascii (list_ascii_of_string s).

Definition chr_eqb (a b : char) : bool := N.eqb a b.

Fixpoint str_eqb (a b : pystr) : bool :=
  match a, b with
  | [], [] => true
  | x :: a', y :: b' => chr_eqb x y && str_eqb a' b'
  | _, _ => false
  end.

(** [s.startswith(p)] *)
Fixpoint startswith (p s : pystr) : bool :=
  match p, s with
  | [], _ => true
  | x :: p', y :: s' => chr_eqb x y && startswith p' s'
  | _ :: _, [] => false
  end.

(** [p in s] for strings. *)
Fixpoint contains (p s : pystr) : bool :=
  startswith p s ||
  match s with
  | [] => false
  | _ :: s' => contains p s'
  end.

(** [str.isspace] of one character: the code points the interpreter
    classifies as whitespace; also the class [\s] of [re]. *)
Definition isspace (c : char) : bool :=
  ((9 <=? c) && (c <=? 13)) || ((28 <=? c) && (c <=? 32)) ||
  (c =? 133) || (c =? 160) || (c =? 5760) ||
  ((8192 <=? c) && (c <=? 8202)) ||
  (c =? 8232) || (c =? 8233) || (c =? 8239) || (c =? 8287) || (c =? 12288).

Fixpoint lstrip (s : pystr) : pystr :=
  match s with
  | c :: s' => if isspace c then lstrip s' else s
  | [] => []
  end.

Definition rstrip (s : pystr) : pystr := rev (lstrip (rev s)).

(** [s.strip()] *)
Definition strip (s : pystr) : pystr := rstrip (lstrip s).

(** [s.replace(old, new)] for a non-empty [old]: occurrences are replaced
    from left to right, without overlap.  [skip] counts the characters of
    an occurrence still to be dropped. *)
Fixpoint replace_from (old new : pystr) (skip : nat) (s : pystr) : pystr :=
  match s with
  | [] => []
  | c :: s' =>
      match skip with
      | S k => replace_from old new k s'
      | O =>
          if startswith old s
          then new ++ replace_from old new (length old - 1) s'
          else c :: replace_from old new 0 s'
      end
  end.

Definition replace (old new s : pystr) : pystr := replace_from old new 0 s.

(** Truth value of a string. *)
Definition nonempty (s : pystr) : bool :=
  match s with [] => false | _ :: _ => true end.

(** The decimal digits of the interpreter's Unicode table (Unicode
    14.0, the table of Python 3.11): sixty-six runs of ten code points,
    each run in the order of the values 0 to 9.  [decimal_zeros] lists
    the first code point of each run. *)
Definition decimal_zeros : list char :=
  [48; 1632; 1776; 1984; 2406; 2534; 2662; 2790; 2918; 3046; 3174; 3302;
   3430; 3558; 3664; 3792; 3872; 4160; 4240; 6112; 6160; 6470; 6608; 6784;
   6800; 6992; 7088; 7232; 7248; 42528; 43216; 43264; 43472; 43504; 43600;
   44016; 65296; 66720; 68912; 69734; 69872; 69942; 70096; 70384; 70736;
   70864; 71248; 71360; 71472; 71904; 72016; 72784; 73040; 73120; 92768;
   92864; 93008; 120782; 120792; 120802; 120812; 120822; 123200; 123632;
   125264; 130032].

(** The zero of the run a character belongs to. *)
Definition decimal_zero (c : char) : option char :=
  find (fun z => (z <=? c) && (c <=? z + 9)) decimal_zeros.

(** [str.isdecimal] of one character: the class [\d] of [re] on a [str]
    pattern, and the digits [int()] and [float()] read. *)
Definition is_digit (c : char) : bool :=
  match decimal_zero c with
  | Some _ => true
  | None => false
  end.

(** [unicodedata.decimal] of a digit. *)
Definition digit_val (c : char) : Z :=
  match decimal_zero c with
  | Some z => Z.of_N (c - z)
  | None => 0
  end.

End PyStr.
Export PyStr.

(* ====================================================================== *)
(** * Numbers: binary64 floats and integers *)

Module PyNum.

Inductive pyfloat :=
| Finite (q : Q)
| Infinity (negative : bool)
| NaN.

(** Exceptions the conversions and the writes can raise. *)
Inductive exn :=
| ValueError
| OverflowError
| ZeroDivisionError
| UnicodeEncodeError.

Inductive result (A : Type) :=
| Ok (a : A)
| Raise (e : exn).
Arguments Ok {A} a.
Arguments Raise {A} e.

Definition bind {A B} (m : result A) (f : A -> result B) : result B :=
  match m with
  | Ok a => f a
  | Raise e => Raise e
  end.

Notation "x <- m ;; k" := (bind m (fun x => k))
  (at level 61, m at next level, right associativity).

(** ** Rounding to binary64 *)

Definition pow2 (e : Z) : Q :=
  if (0 <=? e)%Z then inject_Z (2 ^ e) else 1 / inject_Z (2 ^ (- e)).

(** Nearest integer, ties to even. *)
Definition round_half_even (q : Q) : Z :=
  let f := Qfloor q in
  match Qcompare (q - inject_Z f) (1 # 2) with
  | Lt => f
  | Gt => (f + 1)%Z
  | Eq => if Z.even f then f else (f + 1)%Z
  end.

(** [floor (log2 q)] for a positive [q]. *)
Definition ilog2 (q : Q) : Z :=
  let e := (Z.log2 (Qnum q) - Z.log2 (Zpos (Qden q)))%Z in
  if Qle_bool (pow2 e) q then e else (e - 1)%Z.

Definition round_pos (q : Q) : pyfloat :=
  let e := Z.max (ilog2 q) (-1022) in
  let ulp := pow2 (e - 52) in
  let v := inject_Z (round_half_even (q / ulp)) * ulp in
  if Qle_bool (pow2 1024) v then Infinity false else Finite (Qred v).

Definition fneg (x : pyfloat) : pyfloat :=
  match x with
  | Finite q => Finite (Qred (- q))
  | Infinity s => Infinity (negb s)
  | NaN => NaN
  end.

(** The binary64 value nearest to the rational [q]. *)
Definition rnd (q : Q) : pyfloat :=
  match Qcompare q 0 with
  | Eq => Finite 0
  | Gt => round_pos q
  | Lt => fneg (round_pos (- q))
  end.

(** ** Arithmetic and comparison *)

Definition fsub (x y : pyfloat) : pyfloat :=
  match x, y with
  | NaN, _ | _, NaN => NaN
  | Finite a, Finite b => rnd (a - b)
  | Finite _, Infinity s => Infinity (negb s)
  | Infinity s, Finite _ => Infinity s
  | Infinity s, Infinity t => if Bool.eqb s t then NaN else Infinity s
  end.

Definition is_zero (q : Q) : bool := Qeq_bool q 0.
Definition is_neg (q : Q) : bool := negb (Qle_bool 0 q).

Definition fmul (x y : pyfloat) : pyfloat :=
  match x, y with
  | NaN, _ | _, NaN => NaN
  | Finite a, Finite b => rnd (a * b)
  | Finite a, Infinity s | Infinity s, Finite a =>
      if is_zero a then NaN else Infinity (xorb s (is_neg a))
  | Infinity s, Infinity t => Infinity (xorb s t)
  end.

(** [x / y]; a zero divisor raises. *)
Definition fdiv (x y : pyfloat) : result pyfloat :=
  match x, y with
  | _, Finite b =>
      if is_zero b then Raise ZeroDivisionError
      else match x with
           | Finite a => Ok (rnd (a / b))
           | Infinity s => Ok (Infinity (xorb s (is_neg b)))
           | NaN => Ok NaN
           end
  | NaN, _ | _, NaN => Ok NaN
  | Finite _, Infinity _ => Ok (Finite 0)
  | Infinity _, Infinity _ => Ok NaN
  end.

(** [x > y] *)
Definition fgt (x y : pyfloat) : bool :=
  match x, y with
  | NaN, _ | _, NaN => false
  | Finite a, Finite b => negb (Qle_bool a b)
  | Finite _, Infinity s => s
  | Infinity s, Finite _ => negb s
  | Infinity s, Infinity t => negb s && t
  end.

(** [x < 0] *)
Definition fnegative (x : pyfloat) : bool := fgt (Finite 0) x.

(** Truth value of a float: anything but zero. *)
Definition ftruth (x : pyfloat) : bool :=
  match x with
  | Finite q => negb (is_zero q)
  | _ => true
  end.

(** [round(x, 2)]: the exact value is rounded to two decimals, ties to
    even, and the decimal is converted back; infinities and NaN round to
    themselves. *)
Definition round2 (x : pyfloat) : pyfloat :=
  match x with
  | Finite q => rnd (inject_Z (round_half_even (q * 100)) / 100)
  | _ => x
  end.

(** [int(x)] of a float: truncation; infinities and NaN raise. *)
Definition int_of_float (x : pyfloat) : result Z :=
  match x with
  | Finite q => Ok (Z.quot (Qnum q) (Zpos (Qden q)))
  | Infinity _ => Raise OverflowError
  | NaN => Raise ValueError
  end.

(** ** Conversions from text *)

(** Value of a run of digits, most significant first. *)
Definition digits_val (ds : pystr) : Z :=
  fold_left (fun acc c => (10 * acc + digit_val c)%Z) ds 0%Z.

Fixpoint span_digits (s : pystr) : pystr * pystr :=
  match s with
  | c :: s' =>
      if is_digit c
      then let (ds, rest) := span_digits s' in (c :: ds, rest)
      else ([], s)
  | [] => ([], [])
  end.

(** The rational written by a numeral [digits], [digits.] or
    [digits.digits]; [None] for any other text. *)
Definition parse_decimal (s : pystr) : option Q :=
  let (ip, rest) := span_digits s in
  match ip with
  | [] => None
  | _ :: _ =>
      match rest with
      | [] => Some (inject_Z (digits_val ip))
      | c :: rest' =>
          if (c =? 46)%N then
            let (fp, tail) := span_digits rest' in
            match tail with
            | [] => Some (inject_Z (digits_val (ip ++ fp)) /
                          inject_Z (10 ^ Z.of_nat (length fp)))
            | _ :: _ => None
            end
          else None
      end
  end.

(** [float(s)].  The code only converts unsigned decimal numerals cut out
    by its patterns; the other spellings [float] reads (signs, exponents,
    padding, [inf], [nan]) are answered with [ValueError] here and are
    shown never to be reached. *)
Definition float_of_str (s : pystr) : result pyfloat :=
  match parse_decimal s with
  | Some q => Ok (rnd q)
  | None => Raise ValueError
  end.

(** A Python number as it is stored in a record: [int] or [float]. *)
Inductive pynum :=
| PyInt (z : Z)
| PyFloat (x : pyfloat).

Definition num_negative (v : pynum) : bool :=
  match v with
  | PyInt z => (z <? 0)%Z
  | PyFloat x => fnegative x
  end.

Definition num_truth (v : pynum) : bool :=
  match v with
  | PyInt z => negb (z =? 0)%Z
  | PyFloat x => ftruth x
  end.

(** [int(v)] *)
Definition int_of_num (v : pynum) : result Z :=
  match v with
  | PyInt z => Ok z
  | PyFloat x => int_of_float x
  end.

Section IntLimit.
(** [sys.get_int_max_str_digits()]: the interpreter's limit on the
    number of digits [int()] converts; [0] switches the limit off. *)
Variable int_max_str_digits : nat.

Definition all_digits (s : pystr) : bool := forallb is_digit s.

(** [int(s)] for a run of digits.  The limit is looked at only for a
    text of more than 640 digits, the threshold under which the
    interpreter always converts. *)
Definition int_of_str (s : pystr) : result Z :=
  if nonempty s && all_digits s then
    if (640 <? length s)%nat &&
       ((0 <? int_max_str_digits)%nat && (int_max_str_digits <? length s)%nat)
    then Raise ValueError
    else Ok (digits_val s)
  else Raise ValueError.
End IntLimit.

End PyNum.
Export PyNum.

(* ====================================================================== *)
(** * The [re] module: a backtracking matcher *)

Module Re.

Local Open Scope N_scope.

(** Patterns, as [re.compile] parses the ones the code uses.  [Star] is
    the greedy repetition, [Alt] tries its left branch first, [Group] is
    the capturing group number 1. *)
Inductive regex :=
| Eps
| Chr (p : char -> bool)
| Seq (r1 r2 : regex)
| Alt (r1 r2 : regex)
| Star (r : regex)
| Group (r : regex).

(** [r+] and [r?] *)
Definition Plus (r : regex) : regex := Seq r (Star r).
Definition Opt (r : regex) : regex := Alt r Eps.

Definition lit_chr (c : char) : regex := Chr (chr_eqb c).

(** A literal text. *)
Fixpoint lit (s : pystr) : regex :=
  match s with
  | [] => Eps
  | c :: s' => Seq (lit_chr c) (lit s')
  end.

(** A lower-case ASCII letter under [re.IGNORECASE]: the letter, its
    capital, and the characters whose lower case or case equivalent it
    is (dotted capital I and dotless i for [i], long s for [s], the
    Kelvin sign for [k]). *)
Definition ci_eqb (l x : char) : bool :=
  (x =? l) || (x =? l - 32) ||
  ((l =? 105) && ((x =? 304) || (x =? 305))) ||
  ((l =? 115) && (x =? 383)) ||
  ((l =? 107) && (x =? 8490)).

Fixpoint lit_ci (s : pystr) : regex :=
  match s with
  | [] => Eps
  | c :: s' => Seq (Chr (ci_eqb c)) (lit_ci s')
  end.

(** [.] without [re.DOTALL] *)
Definition any_chr : regex := Chr (fun c => negb (c =? 10)).
(** [\d], [\s] *)
Definition digit : regex := Chr is_digit.
Definition space : regex := Chr isspace.

Section Matcher.
Variable A : Type.

(** [rmatch r s g k]: match [r] at the head of [s], with [g] the text
    captured so far, and hand the rest to the continuation [k]; a
    failing continuation makes the matcher backtrack.  A repetition
    iterates only while its body consumes input, so [length s] rounds
    are all it can make. *)
Fixpoint rmatch (r : regex) (s : pystr) (g : option pystr)
         (k : pystr -> option pystr -> option A) {struct r} : option A :=
  match r with
  | Eps => k s g
  | Chr p =>
      match s with
      | c :: s' => if p c then k s' g else None
      | [] => None
      end
  | Seq r1 r2 => rmatch r1 s g (fun s1 g1 => rmatch r2 s1 g1 k)
  | Alt r1 r2 =>
      match rmatch r1 s g k with
      | Some a => Some a
      | None => rmatch r2 s g k
      end
  | Star r0 =>
      (fix loop (n : nat) (s : pystr) (g : option pystr) {struct n} : option A :=
         match n with
         | O => k s g
         | S n' =>
             match rmatch r0 s g
                     (fun s1 g1 =>
                        if (length s1 <? length s)%nat then loop n' s1 g1 else None)
             with
             | Some a => Some a
             | None => k s g
             end
         end) (length s) s g
  | Group r0 =>
      rmatch r0 s g (fun s1 _ => k s1 (Some (firstn (length s - length s1) s)))
  end.
End Matcher.

(** A match object: the text before the match, [group(0)], [group(1)]
    and the text after the match. *)
Record rematch := {
  m_before : pystr;
  m_whole : pystr;
  m_group : option pystr;
  m_after : pystr
}.

(** [pattern.match] at the head of [s]: the rest and the capture. *)
Definition match_here (r : regex) (s : pystr) : option (pystr * option pystr) :=
  rmatch r s None (fun rest g => Some (rest, g)).

(** [re.search]: the match at the leftmost position that has one;
    [before] is the text already passed, reversed. *)
Fixpoint search_from (r : regex) (before : pystr) (s : pystr) : option rematch :=
  match match_here r s with
  | Some (rest, g) =>
      Some {| m_before := rev before;
              m_whole := firstn (length s - length rest) s;
              m_group := g;
              m_after := rest |}
  | None =>
      match s with
      | [] => None
      | c :: s' => search_from r (c :: before) s'
      end
  end.

Definition search (r : regex) (s : pystr) : option rematch :=
  search_from r [] s.

(** [group(1)] of a match; a group that took no part reads as empty. *)
Definition group1 (m : rematch) : pystr :=
  match m_group m with
  | Some g => g
  | None => []
  end.

(** The successive non-overlapping matches, left to right, and the text
    after the last one.  After an empty match the scan moves one
    character on (the patterns of the code never match the empty text). *)
Fixpoint finditer_fuel (fuel : nat) (r : regex) (s : pystr) : list rematch * pystr :=
  match fuel with
  | O => ([], s)
  | S fuel' =>
      match search r s with
      | None => ([], s)
      | Some m =>
          match m_whole m, m_after m with
          | [], [] => ([m], [])
          | [], c :: rest =>
              let (ms, tl) := finditer_fuel fuel' r rest in
              (m :: ms, c :: tl)
          | _ :: _, rest =>
              let (ms, tl) := finditer_fuel fuel' r rest in
              (m :: ms, tl)
          end
      end
  end.

Definition finditer (r : regex) (s : pystr) : list rematch * pystr :=
  finditer_fuel (S (length s)) r s.

(** [re.findall] for a pattern with one group. *)
Definition findall (r : regex) (s : pystr) : list pystr :=
  map group1 (fst (finditer r s)).

(** [re.sub(r, repl, s)] for a replacement text without group references. *)
Definition sub (r : regex) (repl s : pystr) : pystr :=
  let (ms, tl) := finditer r s in
  concat (map (fun m => m_before m ++ repl) ms) ++ tl.

End Re.
Export Re.

(* ====================================================================== *)
(** * The BeautifulSoup tree *)

Module Soup.

(** A parsed document.  [NavigableString] is a text node; [Comment]
    stands for the strings [get_text] leaves out (comments, doctype,
    script and style bodies); a [Tag] has a name, its attributes and its
    contents. *)
Inductive node :=
| NavigableString (s : pystr)
| Comment (s : pystr)
| Tag (name : pystr) (attrs : list (pystr * pystr)) (contents : list node).

(** The [BeautifulSoup] object at the root of a document. *)
Definition document (contents : list node) : node :=
  Tag (u "[document]") [] contents.

(** [tag.name] *)
Definition name (n : node) : pystr :=
  match n with
  | Tag nm _ _ => nm
  | _ => []
  end.

Fixpoint lookup (key : pystr) (attrs : list (pystr * pystr)) : option pystr :=
  match attrs with
  | [] => None
  | (k, v) :: attrs' => if str_eqb k key then Some v else lookup key attrs'
  end.

(** [tag.get(key, default)] *)
Definition get (n : node) (key default : pystr) : pystr :=
  match n with
  | Tag _ attrs _ =>
      match lookup key attrs with
      | Some v => v
      | None => default
      end
  | _ => default
  end.

(** [tag.get_text()]: the text nodes below the tag, concatenated. *)
Fixpoint get_text (n : node) : pystr :=
  match n with
  | NavigableString s => s
  | Comment _ => []
  | Tag _ _ contents => concat (map get_text contents)
  end.

(** The strings of [tag.get_text(strip=True)]: every text node is
    stripped, and dropped when nothing is left. *)
Fixpoint stripped_strings (n : node) : list pystr :=
  match n with
  | NavigableString s => let t := strip s in if nonempty t then [t] else []
  | Comment _ => []
  | Tag _ _ contents => flat_map stripped_strings contents
  end.

Definition get_text_strip (n : node) : pystr := concat (stripped_strings n).

(** A node met during a traversal, with its chain of parents, the
    nearest first; the chain ends with the document, whose
    [find_parent()] is [None]. *)
Record element := {
  el_node : node;
  el_parents : list node
}.

(** [tag.descendants], in document order. *)
Fixpoint descendants (parents : list node) (n : node) : list element :=
  match n with
  | Tag _ _ contents =>
      flat_map (fun c => {| el_node := c; el_parents := n :: parents |}
                           :: descendants (n :: parents) c) contents
  | _ => []
  end.

(** [soup.find_all(tag_name, attr=pattern)]: the tags of that name whose
    attribute is present and has a match of the pattern. *)
Definition tag_matches (tag_name attr : pystr) (r : regex) (n : node) : bool :=
  match n with
  | Tag nm attrs _ =>
      str_eqb nm tag_name &&
      match lookup attr attrs with
      | Some v => match search r v with Some _ => true | None => false end
      | None => false
      end
  | _ => false
  end.

Definition find_all (soup : node) (tag_name attr : pystr) (r : regex) : list element :=
  filter (fun e => tag_matches tag_name attr r (el_node e)) (descendants [] soup).

(** [tag.find_parent()] *)
Definition find_parent (e : element) : option node := hd_error (el_parents e).

End Soup.
Export Soup.

(* ====================================================================== *)
(** * html2csv_final.py: the record extractor *)

Local Open Scope N_scope.

(** The patterns are quoted in the spaced-out ([re.VERBOSE]) spelling. *)

(** [\d+ \.? \d*] *)
Definition number_re : regex :=
  Seq (Plus digit) (Seq (Opt (lit_chr 46)) (Star digit)).
(** [( \d+ \.? \d* ) K] *)
Definition k_number_re : regex := Seq (Group number_re) (lit_chr 75).
(** [/pk-en/ .* \.html] *)
Definition product_href_re : regex :=
  Seq (lit (u "/pk-en/")) (Seq (Star any_chr) (lit (u ".html"))).
(** [Rs \.? \s* ( [0-9,]+ \.? \d* )] *)
Definition price_re : regex :=
  Seq (lit (u "Rs"))
    (Seq (Opt (lit_chr 46))
       (Seq (Star space)
          (Group (Seq (Plus (Chr (fun c => ((48 <=? c) && (c <=? 57)) || (c =? 44))))
                    (Seq (Opt (lit_chr 46)) (Star digit)))))).
(** [( \d+ \.? \d* K? \+? ) \s* sold] with [re.IGNORECASE] *)
Definition sold_re : regex :=
  Seq (Group (Seq (Plus digit)
                (Seq (Opt (lit_chr 46))
                   (Seq (Star digit)
                      (Seq (Opt (Chr (ci_eqb 107))) (Opt (lit_chr 43)))))))
    (Seq (Star space) (lit_ci (u "sold"))).
(** [( [0-5] \.? \d* ) \s* (?: out of | U+2605 )]; the blank of [out of] is literal *)
Definition rating_re : regex :=
  Seq (Group (Seq (Chr (fun c => (48 <=? c) && (c <=? 53)))
                (Seq (Opt (lit_chr 46)) (Star digit))))
    (Seq (Star space) (Alt (lit (u "out of")) (lit_chr 9733))).
(** [( [4-5] \. \d+ )] *)
Definition bare_rating_re : regex :=
  Group (Seq (Chr (fun c => (52 <=? c) && (c <=? 53)))
           (Seq (lit_chr 46) (Plus digit))).
(** [( \d+ ) \s* (?: review | rating )] with [re.IGNORECASE] *)
Definition review_re : regex :=
  Seq (Group (Plus digit))
    (Seq (Star space) (Alt (lit_ci (u "review")) (lit_ci (u "rating")))).
(** [-g- ( \d+ )] *)
Definition product_id_re : regex := Seq (lit (u "-g-")) (Group (Plus digit)).
(** [\s+] *)
Definition spaces_re : regex := Plus space.

(** [extract_number(text)] (lines 23-35): [None], an [int] (the [K]
    form, [int(float(match.group(1)) * 1000)]) or a [float]. *)
Definition extract_number (text : pystr) : result (option pynum) :=
  if negb (nonempty text) then Ok None
  else
    let text := replace (u " ") [] (replace (u ",") [] text) in
    match
      (if contains (u "K+") text || contains (u "K") text
       then search k_number_re text else None)
    with
    | Some m =>
        x <- float_of_str (group1 m) ;;
        z <- int_of_float (fmul x (Finite 1000)) ;;
        Ok (Some (PyInt z))
    | None =>
        match search number_re text with
        | Some m => x <- float_of_str (m_whole m) ;; Ok (Some (PyFloat x))
        | None => Ok None
        end
    end.

(** [extract_price_from_text(text)] (lines 38-47) *)
Definition extract_price_from_text (text : pystr) : result (option pyfloat) :=
  if negb (nonempty text) then Ok None
  else
    let text :=
      strip (replace (u ",") [] (replace (u "Rs") [] (replace (u "Rs.") [] text))) in
    match search number_re text with
    | Some m => x <- float_of_str (m_whole m) ;; Ok (Some x)
    | None => Ok None
    end.

(** One entry of [products] (the dictionary of lines 148-158); an
    absent price is [None]. *)
Record product := {
  product_id : pystr;
  title : pystr;
  current_price : option pyfloat;
  original_price : option pyfloat;
  discount_percent : pynum;
  sold_count : Z;
  rating : pynum;
  review_count : Z;
  url : pystr
}.

Fixpoint mapM {A B} (f : A -> result B) (l : list A) : result (list B) :=
  match l with
  | [] => Ok []
  | a :: l' => b <- f a ;; bs <- mapM f l' ;; Ok (b :: bs)
  end.

(** [p and p > 0] *)
Definition positive_price (p : option pyfloat) : option pyfloat :=
  match p with
  | Some x => if ftruth x && fgt x (Finite 0) then Some x else None
  | None => None
  end.

(** The list [prices] after [re.findall] and its two comprehensions
    (lines 103-105). *)
Definition parse_prices (parent_text : pystr) : result (list pyfloat) :=
  ps <- mapM extract_price_from_text (filter nonempty (findall price_re parent_text)) ;;
  Ok (flat_map (fun p => match positive_price p with Some x => [x] | None => [] end) ps).

(** [prices[0] if len(prices) >= 1 else None] (line 107) *)
Definition pick_current (prices : list pyfloat) : option pyfloat :=
  match prices with
  | p0 :: _ => Some p0
  | [] => None
  end.

(** [prices[1] if len(prices) >= 2 and prices[1] > prices[0] else None]
    (line 108) *)
Definition pick_original (prices : list pyfloat) : option pyfloat :=
  match prices with
  | p0 :: p1 :: _ => if fgt p1 p0 then Some p1 else None
  | _ => None
  end.

(** The discount (lines 111-113): the integer [0], or
    [round(((original - current) / original) * 100, 2)] when both
    prices are true and the original one is greater. *)
Definition compute_discount (current original : option pyfloat) : result pynum :=
  match original, current with
  | Some o, Some c =>
      if ftruth o && ftruth c && fgt o c
      then q <- fdiv (fsub o c) o ;; Ok (PyFloat (round2 (fmul q (Finite 100))))
      else Ok (PyInt 0)
  | _, _ => Ok (PyInt 0)
  end.

(** [x or 0] *)
Definition or_zero (v : option pynum) : pynum :=
  match v with
  | Some n => if num_truth n then n else PyInt 0
  | None => PyInt 0
  end.

Definition base_url : pystr := u "https://www.temu.com".

Section Extractor.
(** The interpreter's limit on the digits of [int(str)]. *)
Variable int_max_str_digits : nat.

(** [sold_count] (lines 116-119) *)
Definition parse_sold (parent_text : pystr) : result Z :=
  match search sold_re parent_text with
  | Some m => v <- extract_number (group1 m) ;; int_of_num (or_zero v)
  | None => Ok 0%Z
  end.

(** [rating] (lines 122-130): the second pattern is tried when the
    first finds nothing. *)
Definition parse_rating (parent_text : pystr) : result pynum :=
  let rating_match :=
    match search rating_re parent_text with
    | Some m => Some m
    | None => search bare_rating_re parent_text
    end in
  match rating_match with
  | Some m => x <- float_of_str (group1 m) ;; Ok (PyFloat x)
  | None => Ok (PyInt 0)
  end.

(** [review_count] (lines 133-135) *)
Definition parse_review (parent_text : pystr) : result Z :=
  match search review_re parent_text with
  | Some m => int_of_str int_max_str_digits (group1 m)
  | None => Ok 0%Z
  end.

(** [product_id] (lines 138-141) *)
Definition parse_product_id (href : pystr) : pystr :=
  match search product_id_re href with
  | Some m => group1 m
  | None => []
  end.

(** [re.sub(r'\s+', ' ', title).strip()] (line 144) *)
Definition clean_title (title : pystr) : pystr :=
  strip (sub spaces_re (u " ") title).

(** The [url] entry (line 157) *)
Definition make_url (href : pystr) : pystr :=
  if negb (startswith (u "http") href) then base_url ++ href else href.

(** The body of the [try] block once the container is chosen (lines
    102-160): the record of a link with the given [href] and text
    inside a container with text [parent_text]; [Ok None] when the
    title is too short, [Raise] when a conversion raises. *)
Definition build_record (href raw_title parent_text : pystr)
  : result (option product) :=
  prices <- parse_prices parent_text ;;
  let current := pick_current prices in
  let original := pick_original prices in
  discount <- compute_discount current original ;;
  sold <- parse_sold parent_text ;;
  rating_v <- parse_rating parent_text ;;
  review <- parse_review parent_text ;;
  let id := parse_product_id href in
  let t := clean_title raw_title in
  if nonempty t && (5 <? length t)%nat then
    Ok (Some {| product_id := id;
                title := t;
                current_price := current;
                original_price := original;
                discount_percent := discount;
                sold_count := sold;
                rating := rating_v;
                review_count := review;
                url := make_url href |})
  else Ok None.

(** The links [find_all] returns (line 63). *)
Definition product_links (soup : node) : list element :=
  find_all soup (u "a") (u "href") product_href_re.

Definition skip_list : list pystr :=
  [u "channel"; u "home-kitchen"; u "category"; u "search"].

(** The test of the filtering loop (lines 69-76). *)
Definition is_actual_product (href : pystr) : bool :=
  negb (existsb (fun skip => contains skip href) skip_list) &&
  ((30 <? length href)%nat && contains (u "-") href).

Definition actual_products (soup : node) : list element :=
  filter (fun link => is_actual_product (get (el_node link) (u "href") []))
         (product_links soup).

(** The [while] loop over the parents (lines 86-94): it stops at a
    [body] tag, or at a parent whose text has the currency marker, and
    runs off the top of the tree otherwise. *)
Fixpoint climb (parents : list node) : option node :=
  match parents with
  | [] => None
  | parent :: above =>
      if negb (str_eqb (name parent) (u "body")) then
        if contains (u "Rs.") (get_text parent) then Some parent
        else climb above
      else Some parent
  end.

(** The container of a link (lines 86-97): where the loop stopped, or
    the immediate parent when it ran off the tree. *)
Definition container (link : element) : option node :=
  match climb (el_parents link) with
  | Some parent => Some parent
  | None => find_parent link
  end.

Definition parent_text_of (link : element) : pystr :=
  match container link with
  | Some parent => get_text parent
  | None => []
  end.

(** One round of the main loop. *)
Definition process_link (link : element) : result (option product) :=
  build_record (get (el_node link) (u "href") [])
               (get_text_strip (el_node link))
               (parent_text_of link).

(** What one round appends to [products]; an exception is caught and
    the link skipped. *)
Definition emitted (link : element) : list product :=
  match process_link link with
  | Ok (Some p) => [p]
  | Ok None => []
  | Raise _ => []
  end.

(** [parse_temu_html] (lines 50-174), from the parsed document on. *)
Definition parse_temu_html (soup : node) : list product :=
  flat_map emitted (actual_products soup).

End Extractor.

(* ====================================================================== *)
(** * The [csv] module, [excel] dialect *)

Module Csv.

Definition delimiter : char := 44.
Definition quotechar : char := 34.
Definition lineterminator : pystr := [13; 10].

(** A character that makes the writer quote its field. *)
Definition special (c : char) : bool :=
  (c =? delimiter) || (c =? quotechar) || existsb (chr_eqb c) lineterminator.

(** The characters of a field, the quote doubled. *)
Definition escape (field : pystr) : pystr :=
  flat_map (fun c => if c =? quotechar then [quotechar; quotechar] else [c]) field.

(** A field as [QUOTE_MINIMAL] writes it. *)
Definition write_field (field : pystr) : pystr :=
  if existsb special field
  then quotechar :: escape field ++ [quotechar]
  else field.

Fixpoint join_fields (fields : list pystr) : pystr :=
  match fields with
  | [] => []
  | [f] => write_field f
  | f :: fields' => write_field f ++ delimiter :: join_fields fields'
  end.

(** [writer.writerow(fields)]: the text of one line.  A row made of one
    empty field is written as a pair of quotes. *)
Definition writerow (fields : list pystr) : pystr :=
  match fields with
  | [[]] => [quotechar; quotechar] ++ lineterminator
  | _ => join_fields fields ++ lineterminator
  end.

(** The reader of the same dialect, reading the text of a file (opened
    with [newline='']) character by character. *)
Inductive rstate :=
| StartRecord
| StartField
| InField
| InQuotedField
| QuoteInQuotedField.

(** The text after a line end that begins with [c]: a line feed right
    after a carriage return belongs to the same line end. *)
Definition after_newline (c : char) (rest : pystr) : pystr :=
  match rest with
  | c' :: rest' => if (c =? 13) && (c' =? 10) then rest' else rest
  | [] => rest
  end.

Definition is_newline (c : char) : bool := (c =? 13) || (c =? 10).

(** [field] is the field being read, reversed; [row] the fields already
    read of the current record, reversed. *)
Fixpoint read (st : rstate) (field : pystr) (row : list pystr) (input : pystr)
  : list (list pystr) :=
  match input with
  | [] =>
      match st with
      | StartRecord => []
      | _ => [rev (rev field :: row)]
      end
  | c :: rest =>
      match st with
      | StartRecord =>
          if is_newline c then [] :: read StartRecord [] [] (after_newline c rest)
          else if c =? quotechar then read InQuotedField [] [] rest
          else if c =? delimiter then read StartField [] [[]] rest
          else read InField [c] [] rest
      | StartField =>
          if is_newline c
          then rev (rev field :: row) :: read StartRecord [] [] (after_newline c rest)
          else if c =? quotechar then read InQuotedField [] row rest
          else if c =? delimiter then read StartField [] (rev field :: row) rest
          else read InField [c] row rest
      | InField =>
          if is_newline c
          then rev (rev field :: row) :: read StartRecord [] [] (after_newline c rest)
          else if c =? delimiter then read StartField [] (rev field :: row) rest
          else read InField (c :: field) row rest
      | InQuotedField =>
          if c =? quotechar then read QuoteInQuotedField field row rest
          else read InQuotedField (c :: field) row rest
      | QuoteInQuotedField =>
          if c =? quotechar then read InQuotedField (c :: field) row rest
          else if c =? delimiter then read StartField [] (rev field :: row) rest
          else if is_newline c
          then rev (rev field :: row) :: read StartRecord [] [] (after_newline c rest)
          else read InField (c :: field) row rest
      end
  end.

(** [list(csv.reader(f))] *)
Definition reader (text : pystr) : list (list pystr) :=
  read StartRecord [] [] text.

End Csv.

(* ====================================================================== *)
(** * html2csv_final.py: the CSV sink *)

(** A value handed to the writer. *)
Inductive cell :=
| CStr (s : pystr)
| CNum (v : pynum).

(** [str(z)] *)
Definition str_of_int (z : Z) : pystr :=
  u (DecimalString.NilZero.string_of_int (Z.to_int z)).

(** The files of the working directory, by name: a file is the text
    that reading it with [encoding='utf-8'] gives. *)
Definition filesystem := string -> option pystr.

(** [open(path, 'w', newline='', encoding='utf-8')] and the close of
    the [with] block around the writes that left [content]. *)
Definition write_file (fs : filesystem) (path : string) (content : pystr) : filesystem :=
  fun p => if String.eqb p path then Some content else fs p.

(** A surrogate code point, which the UTF-8 codec refuses to encode. *)
Definition is_surrogate (c : char) : bool := (55296 <=? c) && (c <=? 57343).

(** [f.write(text)] on a file opened with [encoding='utf-8'], where
    [buf] is what the file holds so far: the text is encoded as a whole,
    so a text with a surrogate raises and none of it is written. *)
Definition file_write (buf text : pystr) : result pystr :=
  if existsb is_surrogate text then Raise UnicodeEncodeError else Ok (buf ++ text).

Definition fieldnames : list pystr :=
  [u "Product ID"; u "Title"; u "Current Price (Rs.)"; u "Original Price (Rs.)";
   u "Discount (%)"; u "Items Sold"; u "Rating (Stars)"; u "Review Count";
   u "Product URL"].

Section Sink.
(** [sys.get_int_max_str_digits()]: the interpreter's limit on the
    digits of the text [str()] gives for an [int]; [0] switches it off. *)
Variable int_max_str_digits : nat.
(** [repr] of a float, as the interpreter prints it. *)
Variable float_repr : pyfloat -> pystr.

(** The text the writer puts in a cell: a string as it is, anything
    else through [str]. *)
Definition cell_text (c : cell) : pystr :=
  match c with
  | CStr s => s
  | CNum (PyInt z) => str_of_int z
  | CNum (PyFloat x) => float_repr x
  end.

(** Whether [str(z)] raises: the limit is looked at only for a text of
    more than 640 characters, sign included, and it bounds the number
    of digits. *)
Definition str_raises (z : Z) : bool :=
  (640 <? length (str_of_int z))%nat &&
  ((0 <? int_max_str_digits)%nat &&
   (int_max_str_digits <? length (str_of_int (Z.abs z)))%nat).

(** The conversion of a cell by the writer; [str] of an [int] can
    raise. *)
Definition cell_str (c : cell) : result pystr :=
  match c with
  | CNum (PyInt z) => if str_raises z then Raise ValueError else Ok (cell_text c)
  | _ => Ok (cell_text c)
  end.

Fixpoint dict_get (key : pystr) (row : list (pystr * cell)) : option cell :=
  match row with
  | [] => None
  | (k, v) :: row' => if str_eqb k key then Some v else dict_get key row'
  end.

(** [DictWriter._dict_to_list]: a key outside [fieldnames] raises; the
    values come in the order of [fieldnames], a missing one as the
    empty [restval]. *)
Definition dict_to_list (names : list pystr) (row : list (pystr * cell))
  : result (list cell) :=
  if existsb (fun kv => negb (existsb (str_eqb (fst kv)) names)) row
  then Raise ValueError
  else Ok (map (fun key => match dict_get key row with
                           | Some v => v
                           | None => CStr []
                           end) names).

(** [DictWriter.writerow] on the open file: the cells are converted in
    the order of the columns, then the line is written in one piece. *)
Definition dictwriter_writerow (names : list pystr) (row : list (pystr * cell))
           (buf : pystr) : result pystr :=
  cells <- dict_to_list names row ;;
  texts <- mapM cell_str cells ;;
  file_write buf (Csv.writerow texts).

(** [DictWriter.writeheader]: the row that maps every name to itself. *)
Definition header_row (names : list pystr) : list (pystr * cell) :=
  map (fun n => (n, CStr n)) names.

(** [price or ''] *)
Definition price_cell (p : option pyfloat) : cell :=
  match p with
  | Some x => if ftruth x then CNum (PyFloat x) else CStr []
  | None => CStr []
  end.

(** The dictionary [save_to_csv] builds for one product (lines
    202-212). *)
Definition product_row (p : product) : list (pystr * cell) :=
  [ (u "Product ID", CStr (product_id p));
    (u "Title", CStr (title p));
    (u "Current Price (Rs.)", price_cell (current_price p));
    (u "Original Price (Rs.)", price_cell (original_price p));
    (u "Discount (%)", CNum (discount_percent p));
    (u "Items Sold", CNum (PyInt (sold_count p)));
    (u "Rating (Stars)", CNum (rating p));
    (u "Review Count", CNum (PyInt (review_count p)));
    (u "Product URL", CStr (url p)) ].

(** The writes of the [with] block on the open file whose content so
    far is [buf]; an exception ends them and leaves what was written. *)
Fixpoint write_rows (rows : list (list (pystr * cell))) (buf : pystr)
  : pystr * result unit :=
  match rows with
  | [] => (buf, Ok tt)
  | row :: rows' =>
      match dictwriter_writerow fieldnames row buf with
      | Ok buf' => write_rows rows' buf'
      | Raise e => (buf, Raise e)
      end
  end.

(** [save_to_csv(products, output_file)] (lines 177-215) as a change
    of the file system: the file is created empty, the header and the
    rows are written, and the file is closed also when a write raises. *)
Definition save_to_csv (products : list product) (output_file : string)
           (fs : filesystem) : filesystem * result unit :=
  match products with
  | [] => (fs, Ok tt)
  | _ :: _ =>
      let (content, r) :=
        write_rows (header_row fieldnames :: map product_row products) [] in
      (write_file fs output_file content, r)
  end.

End Sink.

(* ====================================================================== *)
(** * html2csv_final.py: the main program *)

Definition INPUT_HTML_FILE : string := "temu_scraped.html".
Definition OUTPUT_CSV_FILE : string := "temu_products.csv".

Section Main.
Variable int_max_str_digits : nat.
Variable float_repr : pyfloat -> pystr.
(** [BeautifulSoup(html_content, 'html.parser')]: the document the
    parser builds from the text of the input file. *)
Variable html_parser : pystr -> node.

(** [main()] (lines 222-282), as the file system it leaves: the one
    it found when there is no input file; otherwise the records of the
    input are extracted and, when there are some, saved.  The report
    that follows the saving (lines 241-279) writes to the console only
    and is not modelled, so neither is the way [main] ends. *)
Definition main (fs : filesystem) : filesystem :=
  match fs INPUT_HTML_FILE with
  | None => fs
  | Some html_content =>
      let products := parse_temu_html int_max_str_digits (html_parser html_content) in
      match products with
      | _ :: _ => fst (save_to_csv int_max_str_digits float_repr products OUTPUT_CSV_FILE fs)
      | [] => fs
      end
  end.
End Main.

(* ====================================================================== *)
(** * Specification vocabulary *)

(** ** What a pattern matches

    [matches r w g g']: the text [w] is a match of [r]; [g] is the
    capture before the match and [g'] the capture after it. *)
Inductive matches : regex -> pystr -> option pystr -> option pystr -> Prop :=
| M_Eps g : matches Eps [] g g
| M_Chr p c g : p c = true -> matches (Chr p) [c] g g
| M_Seq r1 r2 w1 w2 g g1 g2 :
    matches r1 w1 g g1 -> matches r2 w2 g1 g2 ->
    matches (Seq r1 r2) (w1 ++ w2) g g2
| M_AltL r1 r2 w g g' : matches r1 w g g' -> matches (Alt r1 r2) w g g'
| M_AltR r1 r2 w g g' : matches r2 w g g' -> matches (Alt r1 r2) w g g'
| M_Star0 r g : matches (Star r) [] g g
| M_StarS r w1 w2 g g1 g2 :
    w1 <> [] -> matches r w1 g g1 -> matches (Star r) w2 g1 g2 ->
    matches (Star r) (w1 ++ w2) g g2
| M_Group r w g g' : matches r w g g' -> matches (Group r) w g (Some w).

(** The loop of [rmatch] on a repetition, with its fuel explicit. *)
Definition star_loop {A} (r0 : regex) (k : pystr -> option pystr -> option A) :=
  fix loop (n : nat) (s : pystr) (g : option pystr) {struct n} : option A :=
    match n with
    | O => k s g
    | S n' =>
        match rmatch r0 s g
                (fun s1 g1 =>
                   if (length s1 <? length s)%nat then loop n' s1 g1 else None)
        with
        | Some a => Some a
        | None => k s g
        end
    end.

(** A pattern without capturing group. *)
Fixpoint groupless (r : regex) : bool :=
  match r with
  | Eps | Chr _ => true
  | Seq r1 r2 | Alt r1 r2 => groupless r1 && groupless r2
  | Star r0 => groupless r0
  | Group _ => false
  end.

(** [p] occurs in [s]. *)
Definition substring (p s : pystr) : Prop := exists a b, s = a ++ p ++ b.

(** ** Numerals and signs *)

Definition all_digits_p (s : pystr) : Prop := forallb is_digit s = true.

(** The texts the numeric patterns cut out: digits, optionally a point
    and more digits. *)
Definition numeral (w : pystr) : Prop :=
  exists ip fp, ip <> [] /\ all_digits_p ip /\ all_digits_p fp /\
                (w = ip \/ w = ip ++ 46 :: fp).

Definition nonneg (x : pyfloat) : Prop :=
  match x with
  | Finite q => (0 <= q)%Q
  | Infinity s => s = false
  | NaN => True
  end.

(** [x > 0] *)
Definition positive (x : pyfloat) : Prop := fgt x (Finite 0) = true.

(** What [extract_number] can return. *)
Definition sound_number (v : option pynum) : Prop :=
  match v with
  | Some (PyInt z) => (0 <= z)%Z
  | Some (PyFloat x) => nonneg x /\ x <> NaN
  | None => True
  end.

(** ** Titles *)

(** The words of a text, as [s.split()] cuts them: the maximal runs
    without whitespace.  [cur] is
    the run being read, reversed. *)
Fixpoint words_from (cur : pystr) (s : pystr) : list pystr :=
  match s with
  | [] => match cur with [] => [] | _ :: _ => [rev cur] end
  | c :: s' =>
      if isspace c
      then match cur with
           | [] => words_from [] s'
           | _ :: _ => rev cur :: words_from [] s'
           end
      else words_from (c :: cur) s'
  end.

Definition words (s : pystr) : list pystr := words_from [] s.

(** [' '.join(ws)] *)
Fixpoint join_blank (ws : list pystr) : pystr :=
  match ws with
  | [] => []
  | [w] => w
  | w :: ws' => w ++ 32 :: join_blank ws'
  end.

(** A text with its whitespace runs collapsed to one blank and its ends
    trimmed: the words, joined by blanks. *)
Definition collapsed (s : pystr) : pystr := join_blank (words s).

(** [sub spaces_re " "] as a scan: a run of whitespace becomes one
    blank.  [in_run] tells that the blank of the current run is out. *)
Fixpoint squeeze_from (in_run : bool) (s : pystr) : pystr :=
  match s with
  | [] => []
  | c :: s' =>
      if isspace c
      then if in_run then squeeze_from true s' else 32 :: squeeze_from true s'
      else c :: squeeze_from false s'
  end.

Definition squeeze (s : pystr) : pystr := squeeze_from false s.

Definition all_space (ws : pystr) : Prop := forallb isspace ws = true.
Definition no_space (p : pystr) : Prop := forallb (fun c => negb (isspace c)) p = true.
Definition starts_nonspace (s : pystr) : Prop :=
  match s with [] => True | c :: _ => isspace c = false end.

(** The longest prefix whose characters satisfy [f], and the rest. *)
Fixpoint span (f : char -> bool) (s : pystr) : pystr * pystr :=
  match s with
  | c :: s' => if f c then let (a, b) := span f s' in (c :: a, b) else ([], s)
  | [] => ([], [])
  end.

(** ** Documents *)

(** Induction on a document tree. *)
Section NodeInduction.
Variable P : node -> Prop.
Hypothesis P_string : forall s, P (NavigableString s).
Hypothesis P_comment : forall s, P (Comment s).
Hypothesis P_tag : forall nm attrs contents,
    Forall P contents -> P (Tag nm attrs contents).

Fixpoint node_induction (n : node) : P n :=
  match n with
  | NavigableString s => P_string s
  | Comment s => P_comment s
  | Tag nm attrs contents =>
      P_tag nm attrs
        ((fix all (l : list node) : Forall P l :=
            match l with
            | [] => Forall_nil P
            | c :: l' => Forall_cons c (node_induction c) (all l')
            end) contents)
  end.
End NodeInduction.

(** [link.get('href', '')] *)
Definition href_of (link : element) : pystr := get (el_node link) (u "href") [].

(** The shape of a product address: the marker, a stretch without line
    feed, the suffix. *)
Definition product_url_shape (href : pystr) : Prop :=
  exists pre mid post,
    href = pre ++ u "/pk-en/" ++ mid ++ u ".html" ++ post /\ ~ In 10 mid.

(** An address the filtering loop drops. *)
Definition excluded (href : pystr) : Prop :=
  (exists skip, In skip [u "channel"; u "home-kitchen"; u "category"; u "search"] /\
                substring skip href) \/
  (length href <= 30)%nat \/
  ~ substring (u "-") href.

(** A parent at which the climb of [container] stops. *)
Definition stops_at (p : node) : Prop :=
  name p = u "body" \/ substring (u "Rs.") (get_text p).

(** The container in the words of the specification: the nearest parent
    with the currency marker, else the immediate parent. *)
Definition nearest_currency_container (link : element) : option node :=
  match find (fun p => contains (u "Rs.") (get_text p)) (el_parents link) with
  | Some p => Some p
  | None => find_parent link
  end.

(** The title in the words of the specification: the text of the
    anchor, whitespace runs collapsed, trimmed. *)
Definition claimed_title (link : element) : pystr :=
  collapsed (get_text (el_node link)).

(** The rating scale of the specification. *)
Definition rating_in_range (v : pynum) : Prop :=
  match v with
  | PyInt z => (0 <= z <= 5)%Z
  | PyFloat (Finite q) => (0 <= q)%Q /\ (q <= 5)%Q
  | PyFloat _ => False
  end.

(** ** The written file *)

(** A text the UTF-8 file accepts: one without surrogate. *)
Definition encodable (t : pystr) : bool := forallb (fun c => negb (is_surrogate c)) t.

Section Rows.
Variable int_max_str_digits : nat.
Variable float_repr : pyfloat -> pystr.

(** The texts of the cells of one product, in the order of the columns. *)
Definition row_cells (p : product) : list pystr :=
  [ product_id p;
    title p;
    cell_text float_repr (price_cell (current_price p));
    cell_text float_repr (price_cell (original_price p));
    cell_text float_repr (CNum (discount_percent p));
    str_of_int (sold_count p);
    cell_text float_repr (CNum (rating p));
    str_of_int (review_count p);
    url p ].

(** An integer whose decimal text [str] gives: a text of at most 640
    characters, or no limit, or no more digits than the limit. *)
Definition printable (z : Z) : bool :=
  (length (str_of_int z) <=? 640)%nat ||
  (int_max_str_digits =? 0)%nat ||
  (length (str_of_int (Z.abs z)) <=? int_max_str_digits)%nat.

Definition num_printable (v : pynum) : bool :=
  match v with
  | PyInt z => printable z
  | PyFloat _ => true
  end.

(** A product whose row can be written: its integers are printable and
    none of its cells holds a surrogate. *)
Definition writable (p : product) : bool :=
  num_printable (discount_percent p) && printable (sold_count p) &&
  num_printable (rating p) && printable (review_count p) &&
  forallb encodable (row_cells p).

(** The products before the first one that cannot be written. *)
Fixpoint written (ps : list product) : list product :=
  match ps with
  | [] => []
  | p :: ps' => if writable p then p :: written ps' else []
  end.
End Rows.

(** The text of a file of the given rows. *)
Definition csv_text (rows : list (list pystr)) : pystr :=
  concat (map Csv.writerow rows).

(** The two states of the reader in which a field can start. *)
Definition field_start (st : Csv.rstate) (row : list pystr) : Prop :=
  st = Csv.StartField \/ (st = Csv.StartRecord /\ row = []).

(** ** Example documents *)

(** [<a href="...">text</a>] *)
Definition anchor (href text : pystr) : node :=
  Tag (u "a") [(u "href", href)] [NavigableString text].

(** A [div] holding a link and a text after it. *)
Definition card (href text after : pystr) : node :=
  Tag (u "div") [] [anchor href text; NavigableString after].

(** The link of [card href text after] as [find_all] meets it in the
    document made of that card. *)
Definition card_link (href text after : pystr) : element :=
  {| el_node := anchor href text;
     el_parents := [card href text after; document [card href text after]] |}.

Definition scenario_a_href : pystr := u "/pk-en/widget-thing-g-998877.html".
Definition scenario_a_text : pystr :=
  u "Rs. 500 Rs. 1,200 3.2K+ sold 4.7 out of 5 120 reviews".

(** The record of Scenario A; a decimal literal denotes the binary64
    value nearest to it. *)
Definition scenario_a_record : product :=
  {| product_id := u "998877";
     title := u "Nice Widget";
     current_price := Some (Finite 500);
     original_price := Some (Finite 1200);
     discount_percent := PyFloat (rnd (5833 # 100));
     sold_count := 3200;
     rating := PyFloat (rnd (47 # 10));
     review_count := 120;
     url := u "https://www.temu.com/pk-en/widget-thing-g-998877.html" |}.

(** A card whose link is followed by the text of Scenario A. *)
Definition scenario_a_doc : node :=
  document [card scenario_a_href (u "Nice Widget") scenario_a_text].

(** A card that is out of stock. *)
Definition out_of_stock_doc : node :=
  document [card scenario_a_href (u "Nice Widget") (u "Rs. 250 out of stock")].

(** A page with [html] and [body] and no price anywhere. *)
Definition body_div : node := Tag (u "div") [] [anchor scenario_a_href (u "Nice Widget")].
Definition body_doc : node :=
  document [Tag (u "html") [] [Tag (u "body") [] [body_div]]].
Definition body_link : element :=
  {| el_node := anchor scenario_a_href (u "Nice Widget");
     el_parents :=
       [body_div;
        Tag (u "body") [] [body_div];
        Tag (u "html") [] [Tag (u "body") [] [body_div]];
        body_doc] |}.

(** A card that sold a number of 401 digits. *)
Definition huge_sold_text : pystr := u "1" ++ repeat 48 400 ++ u " sold".
Definition huge_sold_doc : node :=
  document [card scenario_a_href (u "Nice Widget") huge_sold_text].
Definition huge_sold_link : element :=
  card_link scenario_a_href (u "Nice Widget") huge_sold_text.

(** Links the filter drops: a category page, and a product address of
    exactly 30 characters. *)
Definition category_href : pystr := u "/pk-en/category-widget-thing-g-998877.html".
Definition category_doc : node := document [card category_href (u "Nice Widget") []].
Definition category_link : element := card_link category_href (u "Nice Widget") [].
Definition short_href : pystr := u "/pk-en/widget-thing-g-998.html".
Definition short_doc : node := document [card short_href (u "Nice Widget") (u "Rs. 750")].

(** A record whose title holds the delimiter, a line feed and quotes. *)
Definition awkward_title_record : product :=
  {| product_id := u "998877";
     title := u "Nice, big" ++ [10] ++ u "Widget " ++ [34] ++ u "XL" ++ [34];
     current_price := None;
     original_price := None;
     discount_percent := PyInt 0;
     sold_count := 0;
     rating := PyInt 0;
     review_count := 0;
     url := u "https://www.temu.com/pk-en/widget-thing-g-998877.html" |}.

(** A record whose title ends in a lone surrogate. *)
Definition surrogate_title_record : product :=
  {| product_id := u "998877";
     title := u "Nice Widget " ++ [55296];
     current_price := None;
     original_price := None;
     discount_percent := PyInt 0;
     sold_count := 0;
     rating := PyInt 0;
     review_count := 0;
     url := u "https://www.temu.com/pk-en/widget-thing-g-998877.html" |}.

(** A record with a review count of 641 digits. *)
Definition huge_review_record : product :=
  {| product_id := u "998877";
     title := u "Nice Widget";
     current_price := None;
     original_price := None;
     discount_percent := PyInt 0;
     sold_count := 0;
     rating := PyInt 0;
     review_count := 10 ^ 640;
     url := u "https://www.temu.com/pk-en/widget-thing-g-998877.html" |}.

(** A [repr] for the examples. *)
Definition sample_repr (x : pyfloat) : pystr := u "0.0".

Definition no_files : filesystem := fun _ => None.

(** ** Digits, separators and the binary64 grid *)

(** A text without digit. *)
Definition no_digit (t : pystr) : Prop := forallb (fun c => negb (is_digit c)) t = true.

(** The separators [extract_number] removes: the comma and the blank. *)
Definition is_separator (c : char) : bool := (c =? 44) || (c =? 32).
Definition without_separators (t : pystr) : pystr :=
  filter (fun c => negb (is_separator c)) t.

(** A text without its commas. *)
Definition without_commas (p : pystr) : pystr :=
  filter (fun c => negb (chr_eqb 44 c)) p.

(** A numeral with one digit before its point, or one digit alone. *)
Definition one_leading_digit (n : pystr) : Prop :=
  match n with
  | [_] => True
  | _ :: 46 :: _ => True
  | _ => False
  end.

(** A value of the binary64 grid: a significand under [2 ^ 53] at an
    exponent of the format. *)
Definition on_grid (v : Q) : Prop :=
  exists k e, (0 <= k < 2 ^ 53)%Z /\ (-1022 <= e <= 1023)%Z /\
              (v == inject_Z k * pow2 (e - 52))%Q.

(** A float as the conversions produce it: a finite one is on the
    binary64 grid. *)
Definition is_binary64 (x : pyfloat) : Prop :=
  match x with
  | Finite q => on_grid q
  | _ => True
  end.

(** ** Where a pattern matches *)

(** The next character of [rest], if any, fails [p]. *)
Definition stops (p : char -> bool) (rest : pystr) : Prop :=
  match rest with [] => True | c :: _ => p c = false end.

(** The class of the first character of every match of a pattern, when
    the pattern begins with one. *)
Fixpoint head_class (r : regex) : option (char -> bool) :=
  match r with
  | Chr p => Some p
  | Seq r1 _ => head_class r1
  | Group r0 => head_class r0
  | _ => None
  end.

(** No match of [r] starts inside [pre] when [tail] follows it. *)
Definition quiet (r : regex) (pre tail : pystr) : Prop :=
  forall a b, pre = a ++ b -> b <> [] -> match_here r (b ++ tail) = None.

(** A character that can follow the numeral in a match of the sold
    pattern: [k] in either case or the Kelvin sign, [+], whitespace, or
    [s] in either case or the long s. *)
Definition after_sold_number (c : char) : bool :=
  ci_eqb 107 c || (c =? 43) || isspace c || ci_eqb 115 c.

(** A character that can follow the digits in a match of the review
    pattern: whitespace, or [r] in either case. *)
Definition after_review_number (c : char) : bool :=
  isspace c || ci_eqb 114 c.

(** A text that begins with the marker [-g-] and a digit. *)
Definition id_marker_at (s : pystr) : Prop :=
  exists d rest, s = u "-g-" ++ d :: rest /\ is_digit d = true.

(** ** Words, links and comments *)

(** A word: a non-empty text without whitespace. *)
Definition is_word (w : pystr) : Prop := w <> [] /\ no_space w.

Section Accepted.
Variable int_max_str_digits : nat.

(** A link that gives a record. *)
Definition accepted (link : element) : bool :=
  match process_link int_max_str_digits link with
  | Ok (Some _) => true
  | _ => false
  end.
End Accepted.

(** The document with the strings [get_text] leaves out (comments,
    script and style bodies) rewritten by [f]. *)
Fixpoint recomment (f : pystr -> pystr) (n : node) : node :=
  match n with
  | NavigableString s => NavigableString s
  | Comment s => Comment (f s)
  | Tag nm attrs contents => Tag nm attrs (map (recomment f) contents)
  end.

Definition recomment_element (f : pystr -> pystr) (e : element) : element :=
  {| el_node := recomment f (el_node e);
     el_parents := map (recomment f) (el_parents e) |}.

(** ** How the sink ends *)

(** The integers of a product are printable. *)
Definition integers_printable (lim : nat) (p : product) : bool :=
  num_printable lim (discount_percent p) && printable lim (sold_count p) &&
  num_printable lim (rating p) && printable lim (review_count p).

(** ** More examples *)

(** A card without price, count or rating. *)
Definition plain_link : element :=
  card_link scenario_a_href (u "Nice Widget") (u " coming soon").

(** A parser for the examples: every page is the card of Scenario A. *)
Definition sample_parser (html_content : pystr) : node := scenario_a_doc.

(** The input file alone, with some text in it. *)
Definition input_only : filesystem :=
  fun p => if String.eqb p INPUT_HTML_FILE then Some (u "<html>") else None.

(** A record with a price of zero. *)
Definition free_record : product :=
  {| product_id := u "998877";
     title := u "Nice Widget";
     current_price := Some (Finite 0);
     original_price := None;
     discount_percent := PyInt 0;
     sold_count := 0;
     rating := PyInt 0;
     review_count := 0;
     url := u "https://www.temu.com/pk-en/widget-thing-g-998877.html" |}.

(* ====================================================================== *)
(** * Lemmas *)

(** ** The matcher is sound and complete for [matches] *)

Lemma rmatch_star A r0 s g (k : pystr -> option pystr -> option A) :
  rmatch (Star r0) s g k = star_loop r0 k (length s) s g.
Proof. reflexivity. Qed.

Lemma shorter_nonempty (w rest : pystr) :
  (length rest <? length (w ++ rest))%nat = true -> w <> [].
Proof.
  intros H ->. simpl in H. rewrite Nat.ltb_irrefl in H. discriminate.
Qed.

Lemma firstn_matched (w rest : pystr) :
  firstn (length (w ++ rest) - length rest) (w ++ rest) = w.
Proof.
  rewrite length_app, Nat.add_sub. rewrite firstn_app, Nat.sub_diag, firstn_all.
  simpl. apply app_nil_r.
Qed.

Lemma firstn_matched_eq (s w rest : pystr) :
  s = w ++ rest -> firstn (length s - length rest) s = w.
Proof. intros ->. apply firstn_matched. Qed.

Lemma rmatch_sound A (r : regex) :
  forall s g (k : pystr -> option pystr -> option A) a,
    rmatch r s g k = Some a ->
    exists w rest g', s = w ++ rest /\ matches r w g g' /\ k rest g' = Some a.
Proof.
  induction r as [ | p | r1 IH1 r2 IH2 | r1 IH1 r2 IH2 | r0 IH | r0 IH];
    intros s g k a H.
  - exists [], s, g. simpl in H. repeat split; [constructor | assumption].
  - simpl in H. destruct s as [|c s']; [discriminate|].
    destruct (p c) eqn:E; [|discriminate].
    exists [c], s', g. repeat split; [constructor|]; assumption.
  - simpl in H.
    apply IH1 in H as (w1 & rest1 & g1 & -> & M1 & H).
    apply IH2 in H as (w2 & rest2 & g2 & -> & M2 & H).
    exists (w1 ++ w2), rest2, g2. rewrite app_assoc.
    repeat split; [econstructor; eassumption | assumption].
  - simpl in H. destruct (rmatch r1 s g k) eqn:E.
    + injection H as ->. apply IH1 in E as (w & rest & g' & -> & M & E).
      exists w, rest, g'. repeat split; [apply M_AltL|]; assumption.
    + apply IH2 in H as (w & rest & g' & -> & M & E').
      exists w, rest, g'. repeat split; [apply M_AltR|]; assumption.
  - rewrite rmatch_star in H. revert H. generalize (length s) as n.
    intros n. revert s g. induction n as [|n IHn]; intros s g H.
    + exists [], s, g. repeat split; [constructor | assumption].
    + simpl in H.
      match type of H with
      | match ?m with _ => _ end = _ => destruct m eqn:E
      end.
      * injection H as ->.
        apply IH in E as (w1 & rest1 & g1 & -> & M1 & E).
        destruct (length rest1 <? length (w1 ++ rest1))%nat eqn:L; [|discriminate].
        apply IHn in E as (w2 & rest2 & g2 & -> & M2 & E).
        exists (w1 ++ w2), rest2, g2. rewrite app_assoc.
        repeat split; [|assumption].
        apply M_StarS with g1; [eapply shorter_nonempty; eassumption | assumption ..].
      * exists [], s, g. repeat split; [constructor | assumption].
  - simpl in H. apply IH in H as (w & rest & g' & -> & M & H).
    rewrite firstn_matched in H.
    exists w, rest, (Some w). repeat split; [econstructor; eassumption | assumption].
Qed.

Lemma star_loop_skip A r0 (k : pystr -> option pystr -> option A) n s g a :
  k s g = Some a -> exists a', star_loop r0 k n s g = Some a'.
Proof.
  intros H. destruct n as [|n]; simpl.
  - eauto.
  - match goal with |- exists _, match ?m with _ => _ end = _ => destruct m end; eauto.
Qed.

Lemma rmatch_complete_gen A r w g g' :
  matches r w g g' ->
  forall rest (k : pystr -> option pystr -> option A) a,
    k rest g' = Some a ->
    (exists a', rmatch r (w ++ rest) g k = Some a') /\
    (forall r0, r = Star r0 -> forall n, (length (w ++ rest) <= n)%nat ->
       exists a', star_loop r0 k n (w ++ rest) g = Some a').
Proof.
  induction 1 as [g | p c g Hp | r1 r2 w1 w2 g g1 g2 _ IH1 _ IH2
                 | r1 r2 w g g' _ IH | r1 r2 w g g' _ IH
                 | r g | r w1 w2 g g1 g2 Hne _ IH1 _ IH2 | r w g g' _ IH];
    intros rest k a Hk.
  - split; [simpl; eauto | discriminate].
  - split; [simpl; rewrite Hp; eauto | discriminate].
  - split; [|discriminate]. simpl. rewrite <- app_assoc.
    destruct (IH2 rest k a Hk) as [[a2 H2] _].
    destruct (IH1 (w2 ++ rest) (fun s1 g1 => rmatch r2 s1 g1 k) a2 H2) as [H1 _].
    exact H1.
  - split; [|discriminate]. simpl.
    destruct (IH rest k a Hk) as [[a1 H1] _]. rewrite H1. eauto.
  - split; [|discriminate]. simpl.
    destruct (rmatch r1 (w ++ rest) g k); [eauto|].
    destruct (IH rest k a Hk) as [H2 _]. exact H2.
  - split.
    + rewrite rmatch_star. eapply star_loop_skip; eassumption.
    + intros r0 E n _. injection E as <-. eapply star_loop_skip; eassumption.
  - assert (G : forall n, (length ((w1 ++ w2) ++ rest) <= n)%nat ->
                 exists a', star_loop r k n ((w1 ++ w2) ++ rest) g = Some a').
    { intros n Hn. rewrite <- app_assoc in *.
      destruct n as [|n].
      - destruct w1; [congruence | simpl in Hn; lia].
      - simpl.
        destruct (IH2 rest k a Hk) as [_ H2].
        specialize (H2 r eq_refl n).
        destruct H2 as [a2 H2].
        { rewrite length_app in Hn. destruct w1; [congruence | simpl in Hn; lia]. }
        edestruct (IH1 (w2 ++ rest)) as [[a1 H1] _]; [|rewrite H1; eauto].
        simpl.
        assert (L : (length (w2 ++ rest) <? length (w1 ++ w2 ++ rest))%nat = true).
        { apply Nat.ltb_lt. rewrite (length_app w1).
          destruct w1; [congruence | simpl; lia]. }
        rewrite L. exact H2. }
    split.
    + rewrite rmatch_star. apply G. lia.
    + intros r0 E. injection E as <-. exact G.
  - split; [|discriminate]. simpl.
    edestruct (IH rest) as [H1 _]; [|exact H1].
    simpl. rewrite firstn_matched. exact Hk.
Qed.

Lemma rmatch_complete A r w g g' rest (k : pystr -> option pystr -> option A) a :
  matches r w g g' -> k rest g' = Some a ->
  exists a', rmatch r (w ++ rest) g k = Some a'.
Proof.
  intros M Hk. exact (proj1 (rmatch_complete_gen M rest k Hk)).
Qed.

Lemma match_here_sound r s rest g :
  match_here r s = Some (rest, g) ->
  exists w, s = w ++ rest /\ matches r w None g.
Proof.
  unfold match_here. intros H.
  apply rmatch_sound in H as (w & rest' & g' & -> & M & E).
  injection E as <- <-. eauto.
Qed.

Lemma search_from_eq r before s :
  search_from r before s =
  match match_here r s with
  | Some (rest, g) =>
      Some {| m_before := rev before;
              m_whole := firstn (length s - length rest) s;
              m_group := g;
              m_after := rest |}
  | None =>
      match s with
      | [] => None
      | c :: s' => search_from r (c :: before) s'
      end
  end.
Proof. destruct s; reflexivity. Qed.

Lemma search_from_sound r : forall s before m,
  search_from r before s = Some m ->
  rev before ++ s = m_before m ++ m_whole m ++ m_after m /\
  matches r (m_whole m) None (m_group m).
Proof.
  induction s as [|c s IH]; intros before m H; rewrite search_from_eq in H;
    destruct (match_here r _) as [[rest g]|] eqn:E; try discriminate.
  - injection H as <-. cbn [m_before m_whole m_after m_group].
    apply match_here_sound in E as (w & E & M).
    symmetry in E. apply app_eq_nil in E as [-> ->]. simpl. auto.
  - injection H as <-. cbn [m_before m_whole m_after m_group].
    apply match_here_sound in E as (w & E & M).
    replace (firstn _ (c :: s)) with w
      by (symmetry; exact (@firstn_matched_eq _ _ _ E)).
    rewrite E. auto.
  - apply IH in H as [H M]. split; [|exact M].
    rewrite <- H. simpl. rewrite <- app_assoc. reflexivity.
Qed.

Lemma search_sound r s m :
  search r s = Some m ->
  s = m_before m ++ m_whole m ++ m_after m /\
  matches r (m_whole m) None (m_group m).
Proof. intros H. apply search_from_sound in H. exact H. Qed.

Lemma search_from_complete r w g post : matches r w None g ->
  forall pre before, exists m, search_from r before (pre ++ w ++ post) = Some m.
Proof.
  intros M. induction pre as [|c pre IH]; intros before.
  - simpl.
    destruct (@rmatch_complete _ r w None g post (fun rest g => Some (rest, g)) (post, g) M eq_refl)
      as [[rest' g'] H].
    destruct (w ++ post) eqn:E; simpl; unfold match_here; rewrite H; eauto.
  - simpl. destruct (match_here r (c :: pre ++ w ++ post)) as [[rest' g']|]; eauto.
Qed.

Lemma search_complete r pre w post g :
  matches r w None g -> exists m, search r (pre ++ w ++ post) = Some m.
Proof. intros M. eapply search_from_complete; eassumption. Qed.

(** ** Inversion of matches *)

Ltac inv H := inversion H; subst; clear H.

Lemma matches_groupless r w g g' :
  matches r w g g' -> groupless r = true -> g' = g.
Proof.
  induction 1; simpl; intros G; try reflexivity;
    try (apply andb_prop in G as [G1 G2]); try discriminate; auto.
  - rewrite IHmatches2, IHmatches1; auto.
  - rewrite IHmatches2, IHmatches1; auto.
Qed.

Lemma matches_star_chr p w g g' :
  matches (Star (Chr p)) w g g' -> forallb p w = true /\ g' = g.
Proof.
  remember (Star (Chr p)) as r eqn:E. induction 1; try discriminate.
  - auto.
  - injection E as ->. destruct (IHmatches2 eq_refl) as [F ->].
    match goal with M : matches (Chr _) _ _ _ |- _ => inv M end.
    simpl. split; [apply andb_true_intro; auto | reflexivity].
Qed.

Lemma star_chr_matches p w g :
  forallb p w = true -> matches (Star (Chr p)) w g g.
Proof.
  induction w as [|c w IH]; simpl; intros F.
  - constructor.
  - apply andb_prop in F as [Hc F].
    apply (@M_StarS (Chr p) [c] w g g g); [discriminate | constructor; exact Hc | auto].
Qed.

Lemma matches_lit s w g g' : matches (lit s) w g g' -> w = s /\ g' = g.
Proof.
  revert w g g'. induction s as [|c s IH]; simpl; intros w g g' M.
  - inv M. auto.
  - inv M.
    match goal with M : matches (lit_chr _) _ _ _ |- _ => inv M end.
    match goal with M : matches (lit _) _ _ _ |- _ => apply IH in M as [-> ->] end.
    match goal with E : chr_eqb _ _ = true |- _ => apply N.eqb_eq in E; subst end.
    auto.
Qed.

Lemma lit_matches s g : matches (lit s) s g g.
Proof.
  induction s as [|c s IH]; simpl.
  - constructor.
  - apply (@M_Seq (lit_chr c) (lit s) [c] s g g g); [|exact IH].
    constructor. apply N.eqb_refl.
Qed.

(** The scan of [finditer] never runs out of fuel: once the fuel exceeds
    the length of the text, more fuel changes nothing. *)
Lemma finditer_fuel_enough r n : forall m s,
  (length s < n)%nat -> (length s < m)%nat ->
  finditer_fuel n r s = finditer_fuel m r s.
Proof.
  induction n as [|n IH]; intros m s Ln Lm; [lia|].
  destruct m as [|m]; [lia|].
  cbn [finditer_fuel]. destruct (search r s) as [mt|] eqn:S; [|reflexivity].
  apply search_sound in S as [E _].
  assert (La : (length (m_whole mt) + length (m_after mt) <= length s)%nat).
  { rewrite E, !length_app. lia. }
  destruct (m_whole mt) as [|c w]; destruct (m_after mt) as [|d rest]; cbn [length] in La.
  - reflexivity.
  - rewrite (IH m rest) by lia. reflexivity.
  - rewrite (IH m []) by (cbn [length]; lia). reflexivity.
  - rewrite (IH m (d :: rest)) by (cbn [length]; lia). reflexivity.
Qed.

(** ** Numerals parse, and to a non-negative number *)

Lemma decimal_zero_spec c z :
  decimal_zero c = Some z -> In z decimal_zeros /\ z <= c <= z + 9.
Proof.
  unfold decimal_zero. intros H. apply find_some in H as [I H].
  apply andb_prop in H as [H1 H2]. apply N.leb_le in H1, H2. auto.
Qed.

(** Below the Arabic-Indic digits the only digits are the ASCII ones. *)
Lemma decimal_zero_low c :
  c < 1632 -> decimal_zero c = if (48 <=? c) && (c <=? 57) then Some 48 else None.
Proof.
  intros H.
  assert (T : forall l, Forall (fun z => c < z) l ->
                        find (fun z => (z <=? c) && (c <=? z + 9)) l = None).
  { induction 1 as [|z l Hz _ IH]; cbn [find]; [reflexivity|].
    replace (z <=? c) with false by (symmetry; apply N.leb_gt; exact Hz).
    exact IH. }
  unfold decimal_zero, decimal_zeros.
  match goal with
  | |- find ?f (?a :: ?l) = _ =>
      change (find f (a :: l)) with (if f a then Some a else find f l);
      rewrite (T l) by (repeat constructor; lia)
  end.
  reflexivity.
Qed.

Lemma is_digit_low c : c < 1632 -> is_digit c = (48 <=? c) && (c <=? 57).
Proof.
  intros H. unfold is_digit. rewrite (decimal_zero_low H).
  destruct ((48 <=? c) && (c <=? 57)); reflexivity.
Qed.

Lemma ascii_digit c :
  48 <= c <= 57 -> is_digit c = true /\ digit_val c = (Z.of_N c - 48)%Z.
Proof.
  intros H. unfold is_digit, digit_val.
  rewrite decimal_zero_low by lia.
  assert ((48 <=? c) && (c <=? 57) = true) as ->
    by (apply andb_true_intro; split; apply N.leb_le; lia).
  split; [reflexivity | lia].
Qed.

(** No digit lies below the ASCII digits. *)
Lemma is_digit_ge c : is_digit c = true -> 48 <= c.
Proof.
  intros H. destruct (N.lt_ge_cases c 1632) as [L | L]; [|lia].
  rewrite (is_digit_low L) in H. apply andb_prop in H as [H _].
  apply N.leb_le, H.
Qed.

Lemma is_digit_val c : is_digit c = true -> (0 <= digit_val c <= 9)%Z.
Proof.
  unfold is_digit, digit_val. destruct (decimal_zero c) as [z|] eqn:E; [|discriminate].
  intros _. apply decimal_zero_spec in E as [_ E]. lia.
Qed.

Lemma digits_val_from acc ds :
  all_digits_p ds -> (0 <= acc)%Z ->
  (0 <= fold_left (fun a c => 10 * a + digit_val c) ds acc)%Z.
Proof.
  unfold all_digits_p. revert acc.
  induction ds as [|c ds IH]; cbn [fold_left forallb]; intros acc D Hacc; [assumption|].
  apply andb_prop in D as [Dc D]. apply IH; [exact D|].
  pose proof (is_digit_val _ Dc). lia.
Qed.

Lemma digits_val_nonneg ds : all_digits_p ds -> (0 <= digits_val ds)%Z.
Proof. intros D. apply digits_val_from; [exact D | lia]. Qed.

Lemma span_digits_app ds rest :
  all_digits_p ds ->
  match rest with [] => True | c :: _ => is_digit c = false end ->
  span_digits (ds ++ rest) = (ds, rest).
Proof.
  induction ds as [|d ds IH]; simpl; intros D R.
  - destruct rest as [|c rest]; [reflexivity|]. simpl. rewrite R. reflexivity.
  - apply andb_prop in D as [Dd D]. rewrite Dd, (IH D R). reflexivity.
Qed.

Lemma span_digits_all ds : all_digits_p ds -> span_digits ds = (ds, []).
Proof.
  intros D. rewrite <- (app_nil_r ds) at 1. apply span_digits_app; [exact D | exact I].
Qed.

Lemma all_digits_app a b : all_digits_p a -> all_digits_p b -> all_digits_p (a ++ b).
Proof. unfold all_digits_p. intros Ha Hb. rewrite forallb_app, Ha, Hb. reflexivity. Qed.

Lemma numeral_parses w :
  numeral w -> exists q, parse_decimal w = Some q /\ (0 <= q)%Q.
Proof.
  intros (ip & fp & Hne & Di & Df & [-> | ->]); unfold parse_decimal.
  - rewrite (span_digits_all Di). destruct ip as [|c ip]; [congruence|].
    eexists; split; [reflexivity|].
    change 0%Q with (inject_Z 0). rewrite <- Zle_Qle. apply digits_val_nonneg, Di.
  - rewrite (@span_digits_app ip (46 :: fp) Di eq_refl).
    destruct ip as [|c ip]; [congruence|].
    change (46 =? 46) with true. cbv iota.
    rewrite (span_digits_all Df).
    eexists; split; [reflexivity|].
    apply Qle_shift_div_l.
    + change 0%Q with (inject_Z 0). rewrite <- Zlt_Qlt. apply Z.pow_pos_nonneg; lia.
    + rewrite Qmult_0_l. change 0%Q with (inject_Z 0). rewrite <- Zle_Qle.
      apply digits_val_nonneg, all_digits_app; [exact Di | exact Df].
Qed.

(** Rounding keeps the sign. *)
Lemma pow2_pos e : (0 < pow2 e)%Q.
Proof.
  unfold pow2. destruct (0 <=? e)%Z eqn:E.
  - apply Z.leb_le in E. change 0%Q with (inject_Z 0). rewrite <- Zlt_Qlt.
    apply Z.pow_pos_nonneg; lia.
  - apply Z.leb_gt in E. apply Qlt_shift_div_l.
    + change 0%Q with (inject_Z 0). rewrite <- Zlt_Qlt. apply Z.pow_pos_nonneg; lia.
    + rewrite Qmult_0_l. reflexivity.
Qed.

Lemma round_half_even_nonneg q : (0 <= q)%Q -> (0 <= round_half_even q)%Z.
Proof.
  intros H. unfold round_half_even.
  assert (F : (0 <= Qfloor q)%Z).
  { change 0%Z with (Qfloor 0). apply Qfloor_resp_le. exact H. }
  destruct (Qcompare _ _); [destruct (Z.even _)| |]; lia.
Qed.

Lemma round_pos_nonneg q : (0 <= q)%Q -> nonneg (round_pos q).
Proof.
  intros H. unfold round_pos.
  set (ulp := pow2 _).
  destruct (Qle_bool _ _); cbn [nonneg]; [reflexivity|].
  rewrite Qred_correct.
  apply Qmult_le_0_compat.
  - change 0%Q with (inject_Z 0). rewrite <- Zle_Qle.
    apply round_half_even_nonneg.
    apply Qle_shift_div_l; [apply pow2_pos|]. rewrite Qmult_0_l. exact H.
  - apply Qlt_le_weak, pow2_pos.
Qed.

Lemma rnd_nonneg q : (0 <= q)%Q -> nonneg (rnd q).
Proof.
  intros H. unfold rnd. destruct (Qcompare q 0) eqn:E.
  - simpl. apply Qle_refl.
  - rewrite <- Qlt_alt in E. exfalso. apply (Qlt_not_le _ _ E H).
  - apply round_pos_nonneg, H.
Qed.

Lemma nonneg_not_negative x : nonneg x -> fnegative x = false.
Proof.
  destruct x as [q|s|]; simpl; intros H.
  - unfold fnegative, fgt. apply negb_false_iff, Qle_bool_iff, H.
  - subst. reflexivity.
  - reflexivity.
Qed.

Lemma float_of_str_numeral w :
  numeral w -> exists x, float_of_str w = Ok x /\ nonneg x.
Proof.
  intros N. destruct (numeral_parses N) as (q & P & Hq).
  unfold float_of_str. rewrite P. eexists; split; [reflexivity|]. apply rnd_nonneg, Hq.
Qed.

Lemma span_digits_fst s : all_digits_p (fst (span_digits s)).
Proof.
  unfold all_digits_p. induction s as [|c s IH]; simpl; [reflexivity|].
  destruct (is_digit c) eqn:E; [|reflexivity].
  destruct (span_digits s) as [ds rest]. simpl in *. rewrite E, IH. reflexivity.
Qed.

Lemma parse_decimal_nonneg w q : parse_decimal w = Some q -> (0 <= q)%Q.
Proof.
  unfold parse_decimal.
  pose proof (span_digits_fst w) as Di.
  destruct (span_digits w) as [ip rest]. simpl in Di.
  destruct ip as [|d ip]; [discriminate|].
  destruct rest as [|c rest].
  - intros [= <-]. change 0%Q with (inject_Z 0). rewrite <- Zle_Qle.
    apply digits_val_nonneg, Di.
  - destruct (c =? 46); [|discriminate].
    pose proof (span_digits_fst rest) as Df.
    destruct (span_digits rest) as [fp tail]. simpl in Df.
    destruct tail; [|discriminate].
    intros [= <-]. apply Qle_shift_div_l.
    + change 0%Q with (inject_Z 0). rewrite <- Zlt_Qlt. apply Z.pow_pos_nonneg; lia.
    + rewrite Qmult_0_l. change 0%Q with (inject_Z 0). rewrite <- Zle_Qle.
      apply digits_val_nonneg, (@all_digits_app (d :: ip) fp); [exact Di | exact Df].
Qed.

Lemma float_of_str_nonneg w x : float_of_str w = Ok x -> nonneg x.
Proof.
  unfold float_of_str. destruct (parse_decimal w) as [q|] eqn:P; [|discriminate].
  intros [= <-]. apply rnd_nonneg, (parse_decimal_nonneg _ P).
Qed.

Lemma is_neg_nonneg q : (0 <= q)%Q -> is_neg q = false.
Proof. intros H. unfold is_neg. apply negb_false_iff, Qle_bool_iff, H. Qed.

Lemma fmul_nonneg x y : nonneg x -> nonneg y -> nonneg (fmul x y).
Proof.
  destruct x as [a|s|], y as [b|t|]; simpl; intros Hx Hy; subst; try exact I.
  - apply rnd_nonneg, Qmult_le_0_compat; assumption.
  - destruct (is_zero a); [exact I|]. simpl. apply is_neg_nonneg, Hx.
  - destruct (is_zero b); [exact I|]. simpl. apply is_neg_nonneg, Hy.
  - reflexivity.
Qed.

Lemma fgt_nonneg x y : fgt x y = true -> nonneg y -> nonneg x.
Proof.
  destruct x as [a|s|], y as [b|t|]; simpl; intros G Hy; subst; try discriminate; try exact I.
  - apply negb_true_iff in G. apply Qle_trans with b; [exact Hy|].
    apply Qlt_le_weak, Qnot_le_lt. intros L. apply Qle_bool_iff in L. congruence.
  - apply negb_true_iff in G. exact G.
  - apply andb_prop in G as [G _]. apply negb_true_iff in G. exact G.
Qed.

Lemma fsub_nonneg x y : fgt x y = true -> nonneg (fsub x y).
Proof.
  destruct x as [a|s|], y as [b|t|]; simpl; intros G; try discriminate; try exact I.
  - apply rnd_nonneg. apply negb_true_iff in G.
    assert (b < a)%Q as L.
    { apply Qnot_le_lt. intros L. apply Qle_bool_iff in L. congruence. }
    apply Qlt_le_weak in L. rewrite <- (Qplus_opp_r b).
    apply Qplus_le_l. exact L.
  - subst. reflexivity.
  - apply negb_true_iff in G. exact G.
  - apply andb_prop in G as [G1 G2]. apply negb_true_iff in G1. subst. reflexivity.
Qed.

Lemma fdiv_nonneg x y q : nonneg x -> nonneg y -> fdiv x y = Ok q -> nonneg q.
Proof.
  destruct x as [a|s|], y as [b|t|]; simpl; intros Hx Hy H; subst;
    try (destruct (is_zero b) eqn:Z; [discriminate|]);
    injection H as <-; try exact I; simpl.
  - apply rnd_nonneg. unfold Qdiv. apply Qmult_le_0_compat; [exact Hx|].
    apply Qinv_le_0_compat, Hy.
  - apply Qle_refl.
  - apply is_neg_nonneg, Hy.
Qed.

Lemma fdiv_ok x y : ftruth y = true -> exists q, fdiv x y = Ok q.
Proof.
  destruct x as [a|s|], y as [b|t|]; simpl; intros T; eauto;
    apply negb_true_iff in T; rewrite T; eauto.
Qed.

Lemma round2_nonneg x : nonneg x -> nonneg (round2 x).
Proof.
  destruct x as [a|s|]; simpl; intros H; try assumption.
  apply rnd_nonneg. apply Qle_shift_div_l; [reflexivity|].
  rewrite Qmult_0_l. change 0%Q with (inject_Z 0). rewrite <- Zle_Qle.
  apply round_half_even_nonneg.
  apply Qmult_le_0_compat; [exact H | discriminate].
Qed.

Lemma int_of_float_nonneg x z : nonneg x -> int_of_float x = Ok z -> (0 <= z)%Z.
Proof.
  destruct x as [a|s|]; simpl; intros H E; try discriminate.
  injection E as <-. apply Z.quot_pos; [|lia].
  unfold Qle in H. simpl in H. lia.
Qed.

(** ** What the patterns of the source cut out *)

Ltac inv_matches :=
  repeat match goal with
  | M : matches (Seq _ _) _ _ _ |- _ => inv M
  | M : matches (Alt _ _) _ _ _ |- _ => inv M
  | M : matches Eps _ _ _ |- _ => inv M
  | M : matches (Chr _) _ _ _ |- _ => inv M
  | M : matches (Group _) _ _ _ |- _ => inv M
  | M : matches (Star (Chr _)) _ _ _ |- _ =>
      apply matches_star_chr in M as [? ?]; subst
  | E : chr_eqb _ _ = true |- _ => apply N.eqb_eq in E; subst
  end.

Lemma numeral_intro c ds1 dot ds2 :
  is_digit c = true -> all_digits_p ds1 -> all_digits_p ds2 ->
  dot = [] \/ dot = [46] ->
  numeral (([c] ++ ds1) ++ dot ++ ds2).
Proof.
  intros Dc D1 D2 [-> | ->].
  - exists (c :: ds1 ++ ds2), []. repeat split.
    + discriminate.
    + apply (@all_digits_app (c :: ds1) ds2); [|exact D2].
      unfold all_digits_p. simpl. rewrite Dc. exact D1.
    + left. reflexivity.
  - exists (c :: ds1), ds2. repeat split.
    + discriminate.
    + unfold all_digits_p. simpl. rewrite Dc. exact D1.
    + exact D2.
    + right. reflexivity.
Qed.

Lemma matches_number w g g' : matches number_re w g g' -> numeral w /\ g' = g.
Proof.
  unfold number_re, Plus, Opt, digit, lit_chr. intros M. inv_matches.
  - split; [|reflexivity]. apply numeral_intro; auto.
  - split; [|reflexivity]. apply numeral_intro; auto.
Qed.

Lemma matches_k_number w g' :
  matches k_number_re w None g' -> exists n, g' = Some n /\ numeral n.
Proof.
  unfold k_number_re. intros M. inv M.
  match goal with M : matches (lit_chr _) _ _ _ |- _ => inv M end.
  match goal with M : matches (Group _) _ _ _ |- _ => inv M end.
  match goal with M : matches number_re _ _ _ |- _ => apply matches_number in M as [N _] end.
  eauto.
Qed.

Lemma matches_rating w g' :
  matches rating_re w None g' -> exists n, g' = Some n /\ numeral n.
Proof.
  unfold rating_re. intros M. inv M.
  match goal with M : matches (Seq (Star space) _) _ _ _ |- _ =>
    apply matches_groupless in M; [subst | reflexivity] end.
  match goal with M : matches (Group _) _ _ _ |- _ => inv M end.
  eexists; split; [reflexivity|].
  unfold Opt, digit, lit_chr in *. inv_matches.
  all: match goal with |- numeral ([?c] ++ ?dot ++ ?ds) =>
         apply (@numeral_intro c [] dot ds) end; auto; try reflexivity.
  all: match goal with E : (_ && _) = true |- _ => apply andb_prop in E as [E1 E2] end.
  all: apply N.leb_le in E1, E2; apply ascii_digit; lia.
Qed.

Lemma matches_bare_rating w g' :
  matches bare_rating_re w None g' -> exists n, g' = Some n /\ numeral n.
Proof.
  unfold bare_rating_re. intros M. inv M.
  eexists; split; [reflexivity|].
  unfold Plus, digit, lit_chr in *. inv_matches.
  match goal with E : (_ && _) = true |- _ => apply andb_prop in E as [E1 E2] end.
  apply N.leb_le in E1, E2.
  match goal with |- numeral ([?c] ++ [46] ++ [?d] ++ ?ds) =>
    exists [c], (d :: ds) end.
  repeat split.
  - discriminate.
  - unfold all_digits_p. cbn [forallb]. rewrite andb_true_r.
    apply ascii_digit; lia.
  - unfold all_digits_p. simpl. apply andb_true_intro. auto.
  - right. reflexivity.
Qed.

Lemma matches_plus_digit w g g' :
  matches (Plus digit) w g g' -> w <> [] /\ all_digits_p w /\ g' = g.
Proof.
  unfold Plus, digit. intros M. inv_matches. repeat split.
  - discriminate.
  - unfold all_digits_p. simpl. apply andb_true_intro. auto.
Qed.

Lemma matches_review w g' :
  matches review_re w None g' ->
  exists n, g' = Some n /\ n <> [] /\ all_digits_p n.
Proof.
  unfold review_re. intros M. inv M.
  match goal with M : matches (Seq (Star space) _) _ _ _ |- _ =>
    apply matches_groupless in M; [subst | reflexivity] end.
  match goal with M : matches (Group _) _ _ _ |- _ => inv M end.
  match goal with M : matches (Plus digit) _ _ _ |- _ =>
    apply matches_plus_digit in M as (? & ? & _) end.
  eauto.
Qed.

(** ** The conversions of the extractor *)

Lemma search_number_numeral t m :
  search number_re t = Some m -> numeral (m_whole m).
Proof.
  intros H. apply search_sound in H as [_ M]. apply matches_number in M as [N _]. exact N.
Qed.

Lemma search_group_numeral r t m :
  (forall w g', matches r w None g' -> exists n, g' = Some n /\ numeral n) ->
  search r t = Some m -> numeral (group1 m).
Proof.
  intros Hr H. apply search_sound in H as [_ M].
  apply Hr in M as (n & E & N). unfold group1. rewrite E. exact N.
Qed.

Lemma extract_price_ok t :
  exists v, extract_price_from_text t = Ok v /\
            match v with Some x => nonneg x | None => True end.
Proof.
  unfold extract_price_from_text.
  destruct (negb (nonempty t)); [exists None; auto|].
  destruct (search number_re _) as [m|] eqn:S; [|exists None; auto].
  apply search_number_numeral in S.
  destruct (float_of_str_numeral S) as (x & E & Hx).
  rewrite E. exists (Some x). auto.
Qed.

Lemma mapM_ok A B (f : A -> result B) l :
  (forall a, exists b, f a = Ok b) -> exists bs, mapM f l = Ok bs.
Proof.
  intros Hf. induction l as [|a l [bs IH]]; simpl; [eauto|].
  destruct (Hf a) as [b ->]. simpl. rewrite IH. simpl. eauto.
Qed.

Lemma positive_nonneg x : positive x -> nonneg x.
Proof. intros H. apply (fgt_nonneg _ _ H). apply Qle_refl. Qed.

Lemma positive_truth x : positive x -> ftruth x = true.
Proof.
  destruct x as [q|s|]; unfold positive; simpl; intros H; try reflexivity.
  apply negb_true_iff in H. apply negb_true_iff. unfold is_zero.
  destruct (Qeq_bool q 0) eqn:E; [|reflexivity].
  apply Qeq_bool_iff in E. assert (Qle_bool q 0 = true) as L.
  { apply Qle_bool_iff. rewrite E. apply Qle_refl. }
  congruence.
Qed.

Lemma positive_price_spec p x : positive_price p = Some x -> p = Some x /\ positive x.
Proof.
  destruct p as [y|]; simpl; [|discriminate].
  destruct (ftruth y && fgt y (Finite 0)) eqn:E; [|discriminate].
  intros [= <-]. apply andb_prop in E as [_ E]. auto.
Qed.

Lemma keep_positive_all ps :
  Forall positive
    (flat_map (fun p => match positive_price p with Some x => [x] | None => [] end) ps).
Proof.
  induction ps as [|p ps IH]; simpl; [constructor|].
  destruct (positive_price p) as [x|] eqn:E; simpl; [|exact IH].
  constructor; [|exact IH]. apply positive_price_spec in E as [_ E]. exact E.
Qed.

Lemma parse_prices_ok t :
  exists ps, parse_prices t = Ok ps /\ Forall positive ps.
Proof.
  unfold parse_prices.
  destruct (@mapM_ok _ _ extract_price_from_text
              (filter nonempty (findall price_re t))) as [vs E].
  { intros a. destruct (extract_price_ok a) as (v & Hv & _). eauto. }
  rewrite E. simpl. eexists; split; [reflexivity|]. apply keep_positive_all.
Qed.

Lemma pick_current_positive ps x :
  Forall positive ps -> pick_current ps = Some x -> positive x.
Proof.
  destruct ps as [|p ps]; simpl; [discriminate|].
  intros F [= <-]. inversion F; assumption.
Qed.

Lemma pick_original_spec ps o :
  pick_original ps = Some o ->
  exists c rest, ps = c :: o :: rest /\ fgt o c = true.
Proof.
  destruct ps as [|c [|p1 rest]]; simpl; try discriminate.
  destruct (fgt p1 c) eqn:G; [|discriminate]. intros [= <-]. eauto.
Qed.

Lemma num_nonneg_float x : nonneg x -> num_negative (PyFloat x) = false.
Proof. apply nonneg_not_negative. Qed.

Lemma compute_discount_ok c o :
  exists d, compute_discount c o = Ok d /\
    (d = PyInt 0%Z \/ exists x, d = PyFloat x /\ (forall c', c = Some c' -> nonneg c' -> nonneg x)).
Proof.
  unfold compute_discount.
  destruct o as [o|]; [|eauto]. destruct c as [c|]; [|eauto].
  destruct (ftruth o && ftruth c && fgt o c) eqn:E; [|eauto].
  apply andb_prop in E as [E G]. apply andb_prop in E as [To Tc].
  destruct (fdiv_ok (fsub o c) o To) as [q Hq]. rewrite Hq. simpl.
  eexists; split; [reflexivity|]. right. eexists; split; [reflexivity|].
  intros c' [= <-] Hc. apply round2_nonneg, fmul_nonneg; [|simpl; discriminate].
  apply (fdiv_nonneg (fsub o c) o); [apply fsub_nonneg, G | | exact Hq].
  apply (fgt_nonneg _ _ G Hc).
Qed.

Lemma parse_rating_ok t :
  exists v, parse_rating t = Ok v /\ num_negative v = false.
Proof.
  unfold parse_rating.
  destruct (search rating_re t) as [m|] eqn:S1.
  - apply (@search_group_numeral rating_re t m matches_rating) in S1.
    destruct (float_of_str_numeral S1) as (x & E & Hx). rewrite E. simpl.
    eexists; split; [reflexivity|]. apply nonneg_not_negative, Hx.
  - destruct (search bare_rating_re t) as [m|] eqn:S2.
    + apply (@search_group_numeral bare_rating_re t m matches_bare_rating) in S2.
      destruct (float_of_str_numeral S2) as (x & E & Hx). rewrite E. simpl.
      eexists; split; [reflexivity|]. apply nonneg_not_negative, Hx.
    + eexists; split; reflexivity.
Qed.

Lemma rnd_not_nan q : rnd q <> NaN.
Proof.
  unfold rnd, fneg, round_pos.
  destruct (Qcompare q 0); try discriminate; destruct (Qle_bool _ _); discriminate.
Qed.

Lemma float_of_str_not_nan w x : float_of_str w = Ok x -> x <> NaN.
Proof.
  unfold float_of_str. destruct (parse_decimal w); [|discriminate].
  intros [= <-]. apply rnd_not_nan.
Qed.

(** [extract_number] returns, or raises [OverflowError]. *)
Lemma extract_number_cases t :
  (exists v, extract_number t = Ok v /\ sound_number v) \/
  extract_number t = Raise OverflowError.
Proof.
  unfold extract_number.
  destruct (negb (nonempty t)); [left; exists None; split; [reflexivity | exact I]|].
  set (t' := replace _ _ _).
  destruct (if contains (u "K+") t' || contains (u "K") t'
            then search k_number_re t' else None) as [m|] eqn:K.
  - destruct (contains (u "K+") t' || contains (u "K") t'); [|discriminate].
    apply (@search_group_numeral k_number_re t' m matches_k_number) in K.
    destruct (float_of_str_numeral K) as (x & E & Hx). rewrite E. simpl.
    assert (nonneg (fmul x (Finite 1000))) as Hm.
    { apply fmul_nonneg; [exact Hx | simpl; discriminate]. }
    apply float_of_str_not_nan in E.
    destruct x as [a|s|]; [| |congruence].
    + simpl in *. pose proof (@rnd_not_nan (a * 1000)) as NN.
      destruct (rnd (a * 1000)) as [q|s|]; simpl; [| |congruence].
      * left. eexists; split; [reflexivity|].
        apply (@int_of_float_nonneg (Finite q)); [exact Hm | reflexivity].
      * right. reflexivity.
    + right. reflexivity.
  - destruct (search number_re t') as [m|] eqn:S;
      [|left; exists None; split; [reflexivity | exact I]].
    apply search_number_numeral in S.
    destruct (float_of_str_numeral S) as (x & E & Hx). rewrite E. simpl.
    left. eexists; split; [reflexivity|]. split; [exact Hx|].
    apply (float_of_str_not_nan _ E).
Qed.

Lemma parse_sold_cases t :
  (exists z, parse_sold t = Ok z /\ (0 <= z)%Z) \/ parse_sold t = Raise OverflowError.
Proof.
  unfold parse_sold.
  destruct (search sold_re t) as [m|]; [|left; exists 0%Z; split; [reflexivity|lia]].
  destruct (extract_number_cases (group1 m)) as [(v & E & Hv) | E]; rewrite E; simpl; [|auto].
  destruct v as [[z|x]|]; simpl in *.
  - destruct (negb (z =? 0)%Z); simpl; left; eexists; split; try reflexivity; lia.
  - destruct Hv as [Hx NN].
    destruct (ftruth x); simpl; [|left; eexists; split; [reflexivity|lia]].
    destruct x as [q|s|]; simpl; [| |congruence].
    + left. eexists; split; [reflexivity|].
      apply (@int_of_float_nonneg (Finite q)); [exact Hx | reflexivity].
    + right. reflexivity.
  - left. eexists; split; [reflexivity|lia].
Qed.

Lemma int_of_str_digits lim n :
  n <> [] -> all_digits_p n ->
  int_of_str lim n =
  if (640 <? length n)%nat && ((0 <? lim)%nat && (lim <? length n)%nat)
  then Raise ValueError else Ok (digits_val n).
Proof.
  intros Hne D. unfold int_of_str, all_digits. rewrite D.
  destruct n; [congruence|]. reflexivity.
Qed.

Lemma parse_review_cases lim t :
  (exists z, parse_review lim t = Ok z /\ (0 <= z)%Z) \/
  (parse_review lim t = Raise ValueError /\
   exists m, search review_re t = Some m /\
             (640 < length (group1 m))%nat /\ (0 < lim < length (group1 m))%nat).
Proof.
  unfold parse_review.
  destruct (search review_re t) as [m|] eqn:S; [|left; exists 0%Z; split; [reflexivity|lia]].
  pose proof S as S'. apply search_sound in S' as [_ M].
  apply matches_review in M as (n & E & Hne & D).
  unfold group1. rewrite E. rewrite (int_of_str_digits lim Hne D).
  destruct ((640 <? length n)%nat && ((0 <? lim)%nat && (lim <? length n)%nat)) eqn:L.
  - right. split; [reflexivity|]. exists m. split; [reflexivity|]. rewrite E.
    apply andb_prop in L as [L1 L2]. apply andb_prop in L2 as [L2 L3].
    apply Nat.ltb_lt in L1, L2, L3. lia.
  - left. eexists; split; [reflexivity|]. apply digits_val_nonneg, D.
Qed.

(** ** The loop body *)

Lemma gate_length (t : pystr) :
  nonempty t && (5 <? length t)%nat = true <-> (5 < length t)%nat.
Proof.
  split.
  - intros H. apply andb_prop in H as [_ H]. apply Nat.ltb_lt, H.
  - intros H. destruct t; [simpl in H; lia|]. simpl nonempty.
    apply Nat.ltb_lt in H. rewrite H. reflexivity.
Qed.

(** The conversions that can raise decide, with the title, what
    [build_record] returns. *)
Lemma build_record_eq lim href raw text :
  exists prices d rv,
    parse_prices text = Ok prices /\ Forall positive prices /\
    compute_discount (pick_current prices) (pick_original prices) = Ok d /\
    parse_rating text = Ok rv /\
    build_record lim href raw text =
      (sold <- parse_sold text ;;
       review <- parse_review lim text ;;
       if nonempty (clean_title raw) && (5 <? length (clean_title raw))%nat
       then Ok (Some {| product_id := parse_product_id href;
                        title := clean_title raw;
                        current_price := pick_current prices;
                        original_price := pick_original prices;
                        discount_percent := d;
                        sold_count := sold;
                        rating := rv;
                        review_count := review;
                        url := make_url href |})
       else Ok None).
Proof.
  destruct (parse_prices_ok text) as (prices & P & F).
  destruct (compute_discount_ok (pick_current prices) (pick_original prices)) as (d & D & _).
  destruct (parse_rating_ok text) as (rv & R & _).
  exists prices, d, rv. repeat split; try assumption.
  unfold build_record. rewrite P. simpl. rewrite D. simpl.
  destruct (parse_sold text); simpl; [|reflexivity].
  rewrite R. reflexivity.
Qed.

Lemma build_record_inv lim href raw text r :
  build_record lim href raw text = Ok (Some r) ->
  exists prices,
    parse_prices text = Ok prices /\ Forall positive prices /\
    current_price r = pick_current prices /\
    original_price r = pick_original prices /\
    compute_discount (pick_current prices) (pick_original prices) = Ok (discount_percent r) /\
    parse_sold text = Ok (sold_count r) /\
    parse_rating text = Ok (rating r) /\
    parse_review lim text = Ok (review_count r) /\
    title r = clean_title raw /\ (5 < length (title r))%nat /\
    product_id r = parse_product_id href /\
    url r = make_url href.
Proof.
  destruct (build_record_eq lim href raw text) as (prices & d & rv & P & F & D & R & ->).
  destruct (parse_sold text) as [sold|]; simpl; [|discriminate].
  destruct (parse_review lim text) as [review|]; simpl; [|discriminate].
  destruct (nonempty _ && _) eqn:G; [|discriminate].
  intros [= <-]. simpl. exists prices. apply gate_length in G.
  repeat split; assumption.
Qed.

Lemma in_parse_temu_html lim soup r :
  In r (parse_temu_html lim soup) <->
  exists link, In link (actual_products soup) /\ process_link lim link = Ok (Some r).
Proof.
  unfold parse_temu_html. rewrite in_flat_map. split.
  - intros (link & Hin & Hr). exists link. split; [exact Hin|].
    unfold emitted in Hr. destruct (process_link lim link) as [[p|]|]; simpl in Hr;
      try contradiction.
    destruct Hr as [-> | []]. reflexivity.
  - intros (link & Hin & E). exists link. split; [exact Hin|].
    unfold emitted. rewrite E. left. reflexivity.
Qed.

(** ** The reader reads back what the writer wrote *)

Import Csv.

Lemma special_false c :
  special c = false ->
  is_newline c = false /\ (c =? quotechar) = false /\ (c =? delimiter) = false.
Proof.
  unfold special, is_newline, lineterminator, chr_eqb. simpl.
  intros H. apply orb_false_elim in H as [H1 H2].
  apply orb_false_elim in H1 as [H1 H3].
  apply orb_false_elim in H2 as [H4 H5].
  apply orb_false_elim in H5 as [H5 _].
  rewrite H4, H5, H1, H3. auto.
Qed.

Lemma read_plain f : forall acc row rest,
  existsb special f = false ->
  read InField acc row (f ++ rest) = read InField (rev f ++ acc) row rest.
Proof.
  induction f as [|c f IH]; intros acc row rest H; [reflexivity|].
  simpl in H. apply orb_false_elim in H as [Hc H].
  apply special_false in Hc as (N & Q & D).
  simpl. rewrite N, D. rewrite (IH _ _ _ H), <- app_assoc. reflexivity.
Qed.

Lemma read_quoted f : forall acc row rest,
  read InQuotedField acc row (escape f ++ rest) =
  read InQuotedField (rev f ++ acc) row rest.
Proof.
  induction f as [|c f IH]; intros acc row rest; [reflexivity|].
  unfold escape in *. simpl. destruct (c =? quotechar) eqn:Q.
  - apply N.eqb_eq in Q. subst c. simpl. rewrite IH, <- app_assoc. reflexivity.
  - simpl. rewrite Q, IH, <- app_assoc. reflexivity.
Qed.

Lemma read_field_delimiter st row f rest :
  field_start st row ->
  read st [] row (write_field f ++ delimiter :: rest) =
  read StartField [] (f :: row) rest.
Proof.
  intros S. unfold write_field. destruct (existsb special f) eqn:E.
  - replace (read st [] row ((quotechar :: escape f ++ [quotechar]) ++ delimiter :: rest))
      with (read InQuotedField [] row (escape f ++ quotechar :: delimiter :: rest)).
    + rewrite read_quoted. simpl. rewrite app_nil_r, rev_involutive. reflexivity.
    + simpl. rewrite <- app_assoc. destruct S as [-> | [-> ->]]; reflexivity.
  - destruct f as [|c f].
    + destruct S as [-> | [-> ->]]; reflexivity.
    + simpl in E. apply orb_false_elim in E as [Hc E].
      apply special_false in Hc as (N & Q & D).
      replace (read st [] row ((c :: f) ++ delimiter :: rest))
        with (read InField [c] row (f ++ delimiter :: rest)).
      * rewrite (read_plain _ _ _ _ E). simpl.
        rewrite rev_app_distr, rev_involutive. reflexivity.
      * destruct S as [-> | [-> ->]]; simpl; rewrite N, Q, D; reflexivity.
Qed.

Lemma read_field_newline st row f rest :
  st = StartField \/ (st = StartRecord /\ row = [] /\ f <> []) ->
  read st [] row (write_field f ++ lineterminator ++ rest) =
  rev (f :: row) :: read StartRecord [] [] rest.
Proof.
  intros S. unfold write_field. destruct (existsb special f) eqn:E.
  - replace (read st [] row ((quotechar :: escape f ++ [quotechar]) ++ lineterminator ++ rest))
      with (read InQuotedField [] row (escape f ++ quotechar :: lineterminator ++ rest)).
    + rewrite read_quoted. simpl. rewrite app_nil_r, rev_involutive. reflexivity.
    + simpl. rewrite <- app_assoc. destruct S as [-> | (-> & -> & _)]; reflexivity.
  - destruct f as [|c f].
    + destruct S as [-> | (_ & _ & F)]; [reflexivity | congruence].
    + simpl in E. apply orb_false_elim in E as [Hc E].
      apply special_false in Hc as (N & Q & D).
      replace (read st [] row ((c :: f) ++ lineterminator ++ rest))
        with (read InField [c] row (f ++ lineterminator ++ rest)).
      * rewrite (read_plain _ _ _ _ E). simpl.
        rewrite rev_app_distr, rev_involutive. reflexivity.
      * destruct S as [-> | (-> & -> & _)]; simpl; rewrite N, Q, D; reflexivity.
Qed.

Lemma read_fields fields : forall row rest,
  fields <> [] ->
  read StartField [] row (join_fields fields ++ lineterminator ++ rest) =
  rev (rev fields ++ row) :: read StartRecord [] [] rest.
Proof.
  induction fields as [|f fields IH]; intros row rest Hne; [congruence|].
  destruct fields as [|f2 fields].
  - simpl join_fields. rewrite read_field_newline by (left; reflexivity). reflexivity.
  - change (join_fields (f :: f2 :: fields))
      with (write_field f ++ delimiter :: join_fields (f2 :: fields)).
    rewrite <- app_assoc, <- app_comm_cons.
    rewrite read_field_delimiter by (left; reflexivity).
    rewrite IH by discriminate.
    simpl rev. rewrite <- !app_assoc. reflexivity.
Qed.

Lemma read_row fields rest :
  read StartRecord [] [] (writerow fields ++ rest) =
  fields :: read StartRecord [] [] rest.
Proof.
  destruct fields as [|f fields]; [reflexivity|].
  destruct fields as [|f2 fields].
  - destruct f as [|c f]; [reflexivity|].
    unfold writerow. simpl join_fields. rewrite <- app_assoc.
    rewrite read_field_newline; [reflexivity|].
    right. repeat split. discriminate.
  - replace (writerow (f :: f2 :: fields))
      with (write_field f ++ delimiter :: join_fields (f2 :: fields) ++ lineterminator).
    + rewrite <- app_assoc. rewrite <- app_comm_cons.
      rewrite read_field_delimiter by (right; split; reflexivity).
      rewrite <- app_assoc. rewrite read_fields by discriminate.
      simpl rev. rewrite <- !app_assoc. simpl. rewrite rev_app_distr, rev_involutive.
      reflexivity.
    + unfold writerow.
      change (join_fields (f :: f2 :: fields))
        with (write_field f ++ delimiter :: join_fields (f2 :: fields)).
      destruct f; rewrite <- app_assoc; reflexivity.
Qed.

Theorem reader_writer rows :
  reader (concat (map writerow rows)) = rows.
Proof.
  unfold reader. induction rows as [|row rows IH]; [reflexivity|].
  simpl. rewrite read_row, IH. reflexivity.
Qed.

(** ** Strings, addresses and documents *)

Lemma str_eqb_eq a b : str_eqb a b = true <-> a = b.
Proof.
  revert b. induction a as [|x a IH]; intros [|y b]; simpl; split; intros H;
    try reflexivity; try discriminate.
  - apply andb_prop in H as [H1 H2]. apply N.eqb_eq in H1. apply IH in H2. congruence.
  - injection H as -> ->. apply andb_true_intro. split; [apply N.eqb_refl | apply IH; reflexivity].
Qed.

Lemma startswith_spec p s : startswith p s = true <-> exists b, s = p ++ b.
Proof.
  revert s. induction p as [|x p IH]; intros s; simpl.
  - split; [intros _; exists s; reflexivity | reflexivity].
  - destruct s as [|y s].
    + split; [discriminate | intros [b H]; discriminate].
    + split.
      * intros H. apply andb_prop in H as [H1 H2]. apply N.eqb_eq in H1.
        apply IH in H2 as [b ->]. exists b. congruence.
      * intros [b H]. injection H as -> ->. apply andb_true_intro.
        split; [apply N.eqb_refl | apply IH; eauto].
Qed.

Lemma contains_spec p s : contains p s = true <-> substring p s.
Proof.
  unfold substring. induction s as [|c s IH]; simpl.
  - rewrite orb_false_r, startswith_spec. split.
    + intros [b H]. exists [], b. exact H.
    + intros (a & b & H). destruct a; [exists b; exact H | discriminate].
  - rewrite orb_true_iff, startswith_spec, IH. split.
    + intros [[b H] | (a & b & H)].
      * exists [], b. exact H.
      * exists (c :: a), b. rewrite H. reflexivity.
    + intros (a & b & H). destruct a as [|x a].
      * left. exists b. exact H.
      * right. injection H as -> ->. eauto.
Qed.

Lemma contains_false p s : contains p s = false <-> ~ substring p s.
Proof.
  rewrite <- contains_spec. destruct (contains p s); split; congruence.
Qed.

Lemma matches_seq_inv r1 r2 w g g' :
  matches (Seq r1 r2) w g g' ->
  exists w1 w2 g1, w = w1 ++ w2 /\ matches r1 w1 g g1 /\ matches r2 w2 g1 g'.
Proof. intros M. inv M. eauto 7. Qed.

Lemma no_newline_spec mid :
  forallb (fun c => negb (c =? 10)) mid = true <-> ~ In 10 mid.
Proof.
  induction mid as [|c mid IH]; simpl.
  - split; [intros _ [] | reflexivity].
  - rewrite andb_true_iff, IH, negb_true_iff, N.eqb_neq. split.
    + intros [H1 H2] [E | E]; [congruence | contradiction].
    + intros H. split; [intros E | intros E]; apply H; auto.
Qed.

Lemma search_product_href href :
  (exists m, search product_href_re href = Some m) <-> product_url_shape href.
Proof.
  unfold product_url_shape. split.
  - intros [m S]. apply search_sound in S as [E M].
    unfold product_href_re, any_chr in M.
    apply matches_seq_inv in M as (w1 & w23 & g1 & Ew & M1 & M23).
    apply matches_seq_inv in M23 as (w2 & w3 & g2 & -> & M2 & M3).
    apply matches_lit in M1 as [-> _]. apply matches_lit in M3 as [-> _].
    apply matches_star_chr in M2 as [F _].
    rewrite Ew in E.
    exists (m_before m), w2, (m_after m). split.
    + rewrite E. rewrite <- !app_assoc. reflexivity.
    + apply no_newline_spec, F.
  - intros (pre & mid & post & -> & N).
    apply no_newline_spec in N.
    replace (pre ++ u "/pk-en/" ++ mid ++ u ".html" ++ post)
      with (pre ++ (u "/pk-en/" ++ mid ++ u ".html") ++ post)
      by (rewrite <- !app_assoc; reflexivity).
    apply search_complete with (g := None).
    unfold product_href_re.
    apply M_Seq with (g1 := None); [apply lit_matches|].
    apply M_Seq with (g1 := None); [|apply lit_matches].
    apply star_chr_matches, N.
Qed.

Lemma descendants_parents n : forall parents e,
  In e (descendants parents n) -> el_parents e <> [].
Proof.
  induction n as [s | s | nm attrs contents IH] using node_induction;
    intros parents e H; simpl in H; try contradiction.
  apply in_flat_map in H as (c & Hc & [<- | H]).
  - simpl. discriminate.
  - rewrite Forall_forall in IH. exact (IH c Hc _ _ H).
Qed.

Lemma climb_some parents p :
  climb parents = Some p ->
  exists below above,
    parents = below ++ p :: above /\ stops_at p /\
    Forall (fun q => ~ stops_at q) below.
Proof.
  induction parents as [|q parents IH]; simpl; [discriminate|].
  destruct (str_eqb (name q) (u "body")) eqn:B; simpl.
  - intros [= <-]. exists [], parents. repeat split; [|constructor].
    left. apply str_eqb_eq, B.
  - destruct (contains (u "Rs.") (get_text q)) eqn:C.
    + intros [= <-]. exists [], parents. repeat split; [|constructor].
      right. apply contains_spec, C.
    + intros H. apply IH in H as (below & above & -> & S & F).
      exists (q :: below), above. repeat split; [exact S|].
      constructor; [|exact F]. intros [E | E].
      * apply str_eqb_eq in E. congruence.
      * apply contains_spec in E. congruence.
Qed.

Lemma climb_none parents :
  climb parents = None -> Forall (fun q => ~ stops_at q) parents.
Proof.
  induction parents as [|q parents IH]; simpl; [constructor|].
  destruct (str_eqb (name q) (u "body")) eqn:B; simpl; [discriminate|].
  destruct (contains (u "Rs.") (get_text q)) eqn:C; [discriminate|].
  intros H. constructor; [|apply IH, H]. intros [E | E].
  - apply str_eqb_eq in E. congruence.
  - apply contains_spec in E. congruence.
Qed.

Lemma actual_products_in soup link :
  In link (actual_products soup) <->
  In link (descendants [] soup) /\
  tag_matches (u "a") (u "href") product_href_re (el_node link) = true /\
  is_actual_product (get (el_node link) (u "href") []) = true.
Proof.
  unfold actual_products, product_links, find_all.
  rewrite !filter_In. tauto.
Qed.

Lemma tag_matches_spec n :
  tag_matches (u "a") (u "href") product_href_re n = true <->
  exists attrs contents href,
    n = Tag (u "a") attrs contents /\ lookup (u "href") attrs = Some href /\
    product_url_shape href.
Proof.
  destruct n as [s | s | nm attrs contents]; simpl.
  - split; [discriminate | intros (? & ? & ? & H & _); discriminate].
  - split; [discriminate | intros (? & ? & ? & H & _); discriminate].
  - split.
    + intros H. apply andb_prop in H as [H1 H2]. apply str_eqb_eq in H1. subst nm.
      destruct (lookup (u "href") attrs) as [href|] eqn:L; [|discriminate].
      exists attrs, contents, href. split; [reflexivity|]. split; [exact L|].
      apply search_product_href.
      destruct (search product_href_re href) as [m|]; [eauto | discriminate].
    + intros (attrs' & contents' & href & E & L & S). injection E as -> -> ->.
      rewrite L. apply search_product_href in S as [m ->].
      rewrite andb_true_r. apply str_eqb_eq. reflexivity.
Qed.

Lemma is_actual_product_spec href :
  is_actual_product href = true <->
  ~ substring (u "channel") href /\ ~ substring (u "home-kitchen") href /\
  ~ substring (u "category") href /\ ~ substring (u "search") href /\
  (30 < length href)%nat /\ substring (u "-") href.
Proof.
  unfold is_actual_product, skip_list. simpl existsb.
  rewrite !andb_true_iff, negb_true_iff, !orb_false_iff.
  rewrite !contains_false, contains_spec, Nat.ltb_lt. tauto.
Qed.

(** ** The title: [re.sub] and [strip] against the words of the text *)

Lemma rmatch_seq A r1 r2 s g (k : pystr -> option pystr -> option A) :
  rmatch (Seq r1 r2) s g k = rmatch r1 s g (fun s1 g1 => rmatch r2 s1 g1 k).
Proof. reflexivity. Qed.

Lemma rmatch_chr_cons A p c s g (k : pystr -> option pystr -> option A) :
  rmatch (Chr p) (c :: s) g k = if p c then k s g else None.
Proof. reflexivity. Qed.

Lemma star_space_greedy ws : forall rest g n,
  all_space ws -> starts_nonspace rest -> (length (ws ++ rest) <= n)%nat ->
  star_loop space (fun r g' => Some (r, g')) n (ws ++ rest) g = Some (rest, g).
Proof.
  unfold all_space. induction ws as [|c ws IH]; intros rest g n A R L.
  - destruct n as [|n]; [reflexivity|]. simpl.
    destruct rest as [|c rest]; [reflexivity|]. simpl in R. rewrite R. reflexivity.
  - simpl in A. apply andb_prop in A as [Ac A].
    destruct n as [|n]; [simpl in L; lia|].
    cbn [star_loop app]. unfold space at 1. rewrite rmatch_chr_cons, Ac.
    assert (T : (length (ws ++ rest) <? length (c :: ws ++ rest))%nat = true)
      by (apply Nat.ltb_lt; simpl; lia).
    rewrite T. rewrite IH; [reflexivity | exact A | exact R | simpl in L; lia].
Qed.

Lemma match_here_spaces ws rest :
  ws <> [] -> all_space ws -> starts_nonspace rest ->
  match_here spaces_re (ws ++ rest) = Some (rest, None).
Proof.
  intros Hne A R. destruct ws as [|c ws]; [congruence|].
  unfold all_space in A. simpl in A. apply andb_prop in A as [Ac A].
  unfold match_here, spaces_re, Plus. cbn [app].
  rewrite rmatch_seq. unfold space at 1. rewrite rmatch_chr_cons, Ac.
  rewrite rmatch_star.
  apply star_space_greedy; [exact A | exact R | lia].
Qed.

Lemma match_here_nonspace s :
  starts_nonspace s -> match_here spaces_re s = None.
Proof.
  intros R. unfold match_here, spaces_re, Plus, space. rewrite rmatch_seq.
  destruct s as [|c s]; [reflexivity|].
  rewrite rmatch_chr_cons. simpl in R. rewrite R. reflexivity.
Qed.

Lemma search_from_spaces p : forall before ws rest,
  no_space p -> ws <> [] -> all_space ws -> starts_nonspace rest ->
  search_from spaces_re before (p ++ ws ++ rest)
  = Some {| m_before := rev before ++ p; m_whole := ws;
            m_group := None; m_after := rest |}.
Proof.
  unfold no_space. induction p as [|c p IH]; intros before ws rest P Hne A R.
  - rewrite search_from_eq. cbn [app]. rewrite (@match_here_spaces ws rest Hne A R).
    rewrite firstn_matched, app_nil_r. reflexivity.
  - simpl in P. apply andb_prop in P as [Pc P]. apply negb_true_iff in Pc.
    rewrite search_from_eq. cbn [app].
    rewrite (@match_here_nonspace (c :: p ++ ws ++ rest)) by exact Pc.
    rewrite (IH (c :: before) ws rest P Hne A R). simpl.
    rewrite <- app_assoc. reflexivity.
Qed.

Lemma search_from_nospace p : forall before,
  no_space p -> search_from spaces_re before p = None.
Proof.
  unfold no_space. induction p as [|c p IH]; intros before P.
  - reflexivity.
  - simpl in P. apply andb_prop in P as [Pc P]. apply negb_true_iff in Pc.
    rewrite search_from_eq. rewrite (@match_here_nonspace (c :: p)) by exact Pc.
    apply IH, P.
Qed.

Lemma span_spec f s :
  s = fst (span f s) ++ snd (span f s) /\
  forallb f (fst (span f s)) = true /\
  match snd (span f s) with [] => True | c :: _ => f c = false end.
Proof.
  induction s as [|c s IH]; simpl; [auto|].
  destruct (f c) eqn:E; simpl; [|auto].
  destruct (span f s) as [a b]. simpl in *. destruct IH as (-> & F & R).
  rewrite E, F. auto.
Qed.

(** Every text is a stretch without whitespace, a run of whitespace, and
    a rest that does not begin with whitespace. *)
Lemma space_decomposition s :
  exists p ws rest,
    s = p ++ ws ++ rest /\ no_space p /\ all_space ws /\ starts_nonspace rest /\
    (ws = [] -> rest = []).
Proof.
  destruct (span_spec (fun c => negb (isspace c)) s) as (E1 & F1 & R1).
  destruct (span (fun c => negb (isspace c)) s) as [p s1]. simpl in *.
  destruct (span_spec isspace s1) as (E2 & F2 & R2).
  destruct (span isspace s1) as [ws rest]. simpl in *.
  exists p, ws, rest. subst s1.
  split; [exact E1|]. split; [exact F1|]. split; [exact F2|]. split; [exact R2|].
  intros ->. simpl in R1. destruct rest as [|c rest]; [reflexivity|].
  apply negb_false_iff in R1. simpl in R2. congruence.
Qed.

Lemma squeeze_flag s :
  starts_nonspace s -> squeeze_from true s = squeeze_from false s.
Proof. destruct s as [|c s]; simpl; [reflexivity|]. intros ->. reflexivity. Qed.

Lemma squeeze_nospace p : forall b x,
  no_space p -> p <> [] -> squeeze_from b (p ++ x) = p ++ squeeze_from false x.
Proof.
  unfold no_space. induction p as [|c p IH]; intros b x P Hne; [congruence|].
  simpl in P. apply andb_prop in P as [Pc P]. apply negb_true_iff in Pc.
  simpl. rewrite Pc. f_equal. destruct p as [|d p]; [reflexivity|].
  apply IH; [exact P | discriminate].
Qed.

Lemma squeeze_run ws : forall rest,
  all_space ws -> starts_nonspace rest ->
  squeeze_from true (ws ++ rest) = squeeze_from false rest.
Proof.
  unfold all_space. induction ws as [|c ws IH]; intros rest A R.
  - apply squeeze_flag, R.
  - simpl in A. apply andb_prop in A as [Ac A]. simpl. rewrite Ac. apply IH; assumption.
Qed.

Lemma squeeze_decomposed p ws rest :
  no_space p -> ws <> [] -> all_space ws -> starts_nonspace rest ->
  squeeze (p ++ ws ++ rest) = p ++ 32 :: squeeze rest.
Proof.
  intros P Hne A R. unfold squeeze.
  assert (W : squeeze_from false (ws ++ rest) = 32 :: squeeze_from false rest).
  { destruct ws as [|c ws]; [congruence|].
    unfold all_space in A. simpl in A. apply andb_prop in A as [Ac A].
    simpl. rewrite Ac. f_equal. apply squeeze_run; assumption. }
  destruct p as [|c p]; [exact W|].
  rewrite squeeze_nospace by (assumption || discriminate). rewrite W. reflexivity.
Qed.

Lemma squeeze_plain p : no_space p -> squeeze p = p.
Proof.
  intros P. destruct p as [|c p]; [reflexivity|].
  unfold squeeze. rewrite <- (app_nil_r (c :: p)) at 1.
  rewrite squeeze_nospace by (assumption || discriminate).
  simpl. rewrite app_nil_r. reflexivity.
Qed.

(** [re.sub(r'\s+', ' ', s)] is the scan. *)
Lemma finditer_spaces n : forall s,
  (length s < n)%nat ->
  (let (ms, tl) := finditer_fuel n spaces_re s in
   concat (map (fun m => m_before m ++ u " ") ms) ++ tl) = squeeze s.
Proof.
  induction n as [|n IH]; intros s L; [lia|].
  destruct (space_decomposition s) as (p & ws & rest & -> & P & A & R & Z).
  cbn [finditer_fuel]. destruct ws as [|c ws].
  - rewrite (Z eq_refl). cbn [app]. rewrite app_nil_r.
    unfold search. rewrite (search_from_nospace [] P).
    simpl. symmetry. apply squeeze_plain, P.
  - unfold search.
    rewrite (@search_from_spaces p [] (c :: ws) rest P ltac:(discriminate) A R).
    cbn [m_whole m_after].
    specialize (IH rest).
    destruct (finditer_fuel n spaces_re rest) as [ms tl].
    cbn [map concat m_before rev].
    rewrite squeeze_decomposed by (assumption || discriminate).
    rewrite <- IH.
    + rewrite <- !app_assoc. reflexivity.
    + rewrite !length_app in L. simpl in L. lia.
Qed.

Lemma sub_spaces s : sub spaces_re (u " ") s = squeeze s.
Proof.
  unfold sub, finditer. apply (finditer_spaces (n := S (length s))). lia.
Qed.

(** Stripping. *)

Lemma lstrip_run ws : forall rest,
  all_space ws -> starts_nonspace rest -> lstrip (ws ++ rest) = rest.
Proof.
  unfold all_space. induction ws as [|c ws IH]; intros rest A R.
  - destruct rest as [|c rest]; [reflexivity|]. simpl in *. rewrite R. reflexivity.
  - simpl in A. apply andb_prop in A as [Ac A]. simpl. rewrite Ac. apply IH; assumption.
Qed.

Lemma lstrip_fixed s : starts_nonspace s -> lstrip s = s.
Proof. intros R. apply (@lstrip_run [] s eq_refl R). Qed.

Lemma lstrip_app y z : lstrip y <> [] -> lstrip (y ++ z) = lstrip y ++ z.
Proof.
  induction y as [|c y IH]; simpl; [congruence|].
  destruct (isspace c); [exact IH | reflexivity].
Qed.

Lemma rstrip_snoc_space s c : isspace c = true -> rstrip (s ++ [c]) = rstrip s.
Proof. intros H. unfold rstrip. rewrite rev_app_distr. simpl. rewrite H. reflexivity. Qed.

Lemma rstrip_app a x : rstrip x <> [] -> rstrip (a ++ x) = a ++ rstrip x.
Proof.
  unfold rstrip. intros H. rewrite rev_app_distr, lstrip_app.
  - rewrite rev_app_distr, rev_involutive. reflexivity.
  - intros E. rewrite E in H. apply H. reflexivity.
Qed.

Lemma forallb_rev (f : char -> bool) s : forallb f (rev s) = forallb f s.
Proof.
  induction s as [|c s IH]; [reflexivity|].
  simpl. rewrite forallb_app, IH. simpl. rewrite andb_true_r. apply andb_comm.
Qed.

Lemma rstrip_plain p : no_space p -> rstrip p = p.
Proof.
  unfold no_space, rstrip. intros P. rewrite lstrip_fixed; [apply rev_involutive|].
  rewrite <- forallb_rev in P. destruct (rev p) as [|c r]; [exact I|].
  simpl in *. apply andb_prop in P as [Pc _]. apply negb_true_iff, Pc.
Qed.

Lemma lstrip_snoc_nonspace e : forall y,
  isspace e = false -> lstrip (y ++ [e]) <> [].
Proof.
  induction y as [|c y IH]; simpl; intros H.
  - rewrite H. discriminate.
  - destruct (isspace c); [apply IH, H | discriminate].
Qed.

Lemma rstrip_cons_nonspace e x : isspace e = false -> rstrip (e :: x) <> [].
Proof.
  intros H. unfold rstrip. simpl. intros G.
  apply (f_equal (@rev char)) in G. rewrite rev_involutive in G.
  exact (@lstrip_snoc_nonspace e (rev x) H G).
Qed.

(** Words. *)

Lemma words_from_nospace p : forall cur x,
  no_space p -> words_from cur (p ++ x) = words_from (rev p ++ cur) x.
Proof.
  unfold no_space. induction p as [|c p IH]; intros cur x P; [reflexivity|].
  simpl in P. apply andb_prop in P as [Pc P]. apply negb_true_iff in Pc.
  simpl. rewrite Pc, (IH _ _ P), <- app_assoc. reflexivity.
Qed.

Lemma words_from_run ws : forall rest,
  all_space ws -> words_from [] (ws ++ rest) = words_from [] rest.
Proof.
  unfold all_space. induction ws as [|c ws IH]; intros rest A; [reflexivity|].
  simpl in A. apply andb_prop in A as [Ac A]. simpl. rewrite Ac. apply IH, A.
Qed.

Lemma words_decomposed p ws rest :
  no_space p -> p <> [] -> ws <> [] -> all_space ws ->
  words (p ++ ws ++ rest) = p :: words rest.
Proof.
  intros P Hp Hw A. unfold words. rewrite (words_from_nospace _ _ P), app_nil_r.
  destruct ws as [|c ws]; [congruence|].
  unfold all_space in A. simpl in A. apply andb_prop in A as [Ac A].
  simpl. rewrite Ac.
  destruct (rev p) as [|d r] eqn:E.
  - apply (f_equal (@rev char)) in E. rewrite rev_involutive in E. simpl in E. congruence.
  - rewrite <- E, rev_involutive. f_equal. apply words_from_run, A.
Qed.

Lemma words_plain p : no_space p -> p <> [] -> words p = [p].
Proof.
  intros P Hp. unfold words. rewrite <- (app_nil_r p) at 1.
  rewrite (words_from_nospace _ _ P), app_nil_r. simpl.
  destruct (rev p) as [|d r] eqn:E.
  - apply (f_equal (@rev char)) in E. rewrite rev_involutive in E. simpl in E. congruence.
  - rewrite <- E, rev_involutive. reflexivity.
Qed.

Lemma words_from_trailing ws : all_space ws ->
  forall x cur, words_from cur (x ++ ws) = words_from cur x.
Proof.
  intros A. induction x as [|c x IH]; intros cur.
  - simpl. destruct ws as [|c ws]; [reflexivity|].
    unfold all_space in A. simpl in A. apply andb_prop in A as [Ac A].
    simpl. rewrite Ac.
    rewrite <- (app_nil_r ws), (words_from_run _ A). destruct cur; reflexivity.
  - simpl. destruct (isspace c); [destruct cur|]; rewrite IH; reflexivity.
Qed.

(** After the scan, stripping leaves the words joined by blanks. *)
Lemma rstrip_squeeze n : forall t,
  (length t < n)%nat -> starts_nonspace t ->
  rstrip (squeeze t) = join_blank (words t) /\ (t <> [] -> words t <> []).
Proof.
  induction n as [|n IH]; intros t L R; [lia|].
  destruct (space_decomposition t) as (p & ws & rest & -> & P & A & R' & Z).
  destruct p as [|c p].
  - (* the text begins with its whitespace: it is empty *)
    destruct ws as [|d ws].
    + rewrite (Z eq_refl). simpl. split; [reflexivity | congruence].
    + exfalso. unfold all_space in A. simpl in *. apply andb_prop in A as [Ad _]. congruence.
  - destruct ws as [|d ws].
    + rewrite (Z eq_refl). cbn [app]. rewrite app_nil_r.
      rewrite (squeeze_plain P), (rstrip_plain P), (words_plain P) by discriminate.
      split; [reflexivity | discriminate].
    + rewrite squeeze_decomposed by (assumption || discriminate).
      rewrite words_decomposed by (assumption || discriminate).
      split; [|discriminate].
      destruct (IH rest) as [E W]; [|exact R'|].
      { rewrite !length_app in L. simpl in L. simpl. lia. }
      destruct rest as [|e rest].
      * change (squeeze []) with (@nil char). change (words []) with (@nil pystr).
        rewrite rstrip_snoc_space by reflexivity. rewrite (rstrip_plain P). reflexivity.
      * specialize (W ltac:(discriminate)).
        assert (J : rstrip (squeeze (e :: rest)) <> []).
        { unfold squeeze. simpl in R'. simpl. rewrite R'.
          apply rstrip_cons_nonspace, R'. }
        replace ((c :: p) ++ 32 :: squeeze (e :: rest))
          with (((c :: p) ++ [32]) ++ squeeze (e :: rest))
          by (rewrite <- app_assoc; reflexivity).
        rewrite rstrip_app by exact J.
        rewrite E, <- app_assoc. simpl.
        destruct (words (e :: rest)); [congruence | reflexivity].
Qed.

Lemma lstrip_squeeze s : lstrip (squeeze s) = squeeze (lstrip s).
Proof.
  destruct (span_spec isspace s) as (E & A & R).
  destruct (span isspace s) as [ws rest]. simpl in *. subst s.
  rewrite (@lstrip_run ws rest A R).
  assert (F : lstrip (squeeze rest) = squeeze rest).
  { apply lstrip_fixed. destruct rest as [|c rest]; [exact I|].
    unfold squeeze. simpl in *. rewrite R. simpl. exact R. }
  destruct ws as [|c ws]; [exact F|].
  change (squeeze ((c :: ws) ++ rest)) with (squeeze ([] ++ (c :: ws) ++ rest)).
  rewrite (@squeeze_decomposed [] (c :: ws) rest eq_refl ltac:(discriminate) A R).
  simpl. exact F.
Qed.

(** The cleaning of the title is the joining of the words. *)
Theorem clean_title_collapsed s : clean_title s = collapsed s.
Proof.
  unfold clean_title, collapsed, strip. rewrite sub_spaces, lstrip_squeeze.
  destruct (span_spec isspace s) as (E & A & R).
  destruct (span isspace s) as [ws rest]. simpl in *.
  rewrite E at 2. unfold words at 1. rewrite (words_from_run _ A).
  rewrite E, (@lstrip_run ws rest A R).
  apply (@rstrip_squeeze (S (length rest)) rest); [lia | exact R].
Qed.

Lemma rstrip_decomposition s : exists ws, s = rstrip s ++ ws /\ all_space ws.
Proof.
  destruct (span_spec isspace (rev s)) as (E & A & R).
  destruct (span isspace (rev s)) as [ws rest]. simpl in *.
  exists (rev ws). split.
  - unfold rstrip. rewrite E, (@lstrip_run ws rest A R).
    rewrite <- rev_app_distr, <- E, rev_involutive. reflexivity.
  - unfold all_space. rewrite forallb_rev. exact A.
Qed.

Lemma words_strip s : words (strip s) = words s.
Proof.
  unfold strip.
  destruct (rstrip_decomposition (lstrip s)) as (ws & E & A).
  assert (W : words (lstrip s) = words s).
  { destruct (span_spec isspace s) as (E' & A' & R').
    destruct (span isspace s) as [ws' rest]. simpl in *.
    rewrite E' at 2. rewrite E', (@lstrip_run ws' rest A' R').
    unfold words. rewrite (words_from_run _ A'). reflexivity. }
  rewrite <- W. rewrite E at 2. unfold words.
  rewrite (words_from_trailing A). reflexivity.
Qed.

(** Stripping the text first changes nothing. *)
Corollary clean_title_strip s : clean_title (strip s) = clean_title s.
Proof. rewrite !clean_title_collapsed. unfold collapsed. rewrite words_strip. reflexivity. Qed.


(** ** Numbers of ordinary length convert *)

Lemma pow2_power e : (pow2 e == 2 ^ e)%Q.
Proof.
  unfold pow2. destruct (0 <=? e)%Z eqn:E.
  - apply Z.leb_le in E. apply (Zpower_Qpower 2 e E).
  - apply Z.leb_gt in E.
    rewrite <- (Z.opp_involutive e) at 2. rewrite Qpower_opp.
    rewrite (Zpower_Qpower 2 (- e)) by lia.
    unfold Qdiv. rewrite Qmult_1_l. reflexivity.
Qed.

Lemma round_half_even_le x M : (x <= inject_Z M)%Q -> (round_half_even x <= M)%Z.
Proof.
  intros H. unfold round_half_even.
  assert (F : (Qfloor x <= M)%Z).
  { rewrite <- (Qfloor_Z M). apply Qfloor_resp_le, H. }
  assert (G : (inject_Z (Qfloor x) < x)%Q -> (Qfloor x + 1 <= M)%Z).
  { intros L. assert (inject_Z (Qfloor x) < inject_Z M)%Q as L'
      by (eapply Qlt_le_trans; eassumption).
    rewrite <- Zlt_Qlt in L'. lia. }
  destruct (Qcompare (x - inject_Z (Qfloor x)) (1 # 2)) eqn:C.
  - destruct (Z.even (Qfloor x)); [exact F|]. apply G.
    apply Qeq_alt in C.
    apply Qlt_minus_iff. rewrite C. reflexivity.
  - exact F.
  - apply G. apply Qgt_alt in C. apply Qlt_minus_iff.
    eapply Qlt_trans; [|exact C]. reflexivity.
Qed.

Lemma ilog2_le q k :
  (0 < q)%Q -> (0 <= k)%Z -> (q <= 2 ^ k)%Q -> (ilog2 q <= k)%Z.
Proof.
  intros Hq Hk H.
  assert (E0 : (Z.log2 (Qnum q) - Z.log2 (Zpos (Qden q)) <= k)%Z).
  { rewrite <- (Zpower_Qpower 2 k Hk) in H.
    unfold Qle in H. simpl in H. rewrite Z.mul_1_r in H.
    assert (Z.log2 (Qnum q) <= Z.log2 (Zpos (Qden q) * 2 ^ k))%Z as L.
    { apply Z.log2_le_mono. lia. }
    rewrite Z.log2_mul_pow2 in L by lia. lia. }
  unfold ilog2. destruct (Qle_bool _ _); lia.
Qed.

(** A positive rational under [2 ^ k], [k <= 1023], rounds to a finite
    float under [2 ^ k]. *)
Lemma round_pos_bounded q k :
  (0 < q)%Q -> (0 <= k <= 1023)%Z -> (q <= 2 ^ k)%Q ->
  exists v, round_pos q = Finite v /\ (0 <= v)%Q /\ (v <= 2 ^ k)%Q.
Proof.
  intros Hq Hk H. unfold round_pos.
  set (e := Z.max (ilog2 q) (-1022)).
  assert (He : (e <= k)%Z).
  { unfold e. pose proof (@ilog2_le q k Hq (proj1 Hk) H). lia. }
  set (ulp := pow2 (e - 52)).
  assert (Hu : (0 < ulp)%Q) by apply pow2_pos.
  set (M := (2 ^ (k - e + 52))%Z).
  assert (HM : (2 ^ k == inject_Z M * ulp)%Q).
  { unfold M, ulp. rewrite pow2_power, (Zpower_Qpower 2 (k - e + 52)) by lia.
    rewrite <- Qpower_plus by discriminate.
    replace (k - e + 52 + (e - 52))%Z with k by lia. reflexivity. }
  assert (Hr : (round_half_even (q / ulp) <= M)%Z).
  { apply round_half_even_le. apply Qle_shift_div_r; [exact Hu|].
    rewrite <- HM. exact H. }
  assert (Hv : (inject_Z (round_half_even (q / ulp)) * ulp <= 2 ^ k)%Q).
  { rewrite HM. apply Qmult_le_compat_r; [|apply Qlt_le_weak, Hu].
    rewrite <- Zle_Qle. exact Hr. }
  assert (H0 : (0 <= inject_Z (round_half_even (q / ulp)) * ulp)%Q).
  { apply Qmult_le_0_compat; [|apply Qlt_le_weak, Hu].
    change 0%Q with (inject_Z 0). rewrite <- Zle_Qle.
    apply round_half_even_nonneg.
    apply Qle_shift_div_l; [exact Hu|]. rewrite Qmult_0_l. apply Qlt_le_weak, Hq. }
  destruct (Qle_bool (pow2 1024) _) eqn:O.
  - exfalso. apply Qle_bool_iff in O. rewrite pow2_power in O.
    assert (2 ^ k < 2 ^ 1024)%Q as L.
    { apply Qpower_lt_compat_l; [lia | reflexivity]. }
    apply (Qlt_irrefl (2 ^ 1024)).
    eapply Qle_lt_trans; [exact O|]. eapply Qle_lt_trans; [exact Hv | exact L].
  - eexists. split; [reflexivity|]. rewrite Qred_correct. split; assumption.
Qed.

Lemma rnd_bounded q k :
  (0 <= q)%Q -> (0 <= k <= 1023)%Z -> (q <= 2 ^ k)%Q ->
  exists v, rnd q = Finite v /\ (0 <= v)%Q /\ (v <= 2 ^ k)%Q.
Proof.
  intros Hq Hk H. unfold rnd. destruct (Qcompare q 0) eqn:C.
  - exists 0%Q. split; [reflexivity|]. split; [apply Qle_refl|].
    apply Qlt_le_weak, Qpower_0_lt. reflexivity.
  - rewrite <- Qlt_alt in C. exfalso. exact (Qlt_not_le _ _ C Hq).
  - rewrite <- Qgt_alt in C. apply round_pos_bounded; assumption.
Qed.

Lemma digits_val_bound ds : forall acc,
  all_digits_p ds -> (0 <= acc)%Z ->
  (fold_left (fun a c => 10 * a + digit_val c) ds acc
   <= (acc + 1) * 10 ^ Z.of_nat (length ds) - 1)%Z.
Proof.
  unfold all_digits_p. induction ds as [|c ds IH]; intros acc D Hacc.
  - simpl. lia.
  - cbn [forallb] in D. apply andb_prop in D as [Dc D].
    pose proof (is_digit_val _ Dc) as Hc.
    cbn [fold_left length]. rewrite Nat2Z.inj_succ, Z.pow_succ_r by lia.
    specialize (IH (10 * acc + digit_val c)%Z D ltac:(lia)).
    assert (0 < 10 ^ Z.of_nat (length ds))%Z by (apply Z.pow_pos_nonneg; lia).
    nia.
Qed.

Lemma digits_val_lt ds :
  all_digits_p ds -> (digits_val ds < 10 ^ Z.of_nat (length ds))%Z.
Proof.
  intros D. pose proof (@digits_val_bound ds 0%Z D ltac:(lia)) as H.
  unfold digits_val. lia.
Qed.

Lemma numeral_value_bound w :
  numeral w ->
  exists q, parse_decimal w = Some q /\ (0 <= q)%Q /\
            (q <= inject_Z (10 ^ Z.of_nat (length w)))%Q.
Proof.
  intros N. destruct (numeral_parses N) as (q & P & Hq).
  exists q. split; [exact P|]. split; [exact Hq|].
  destruct N as (ip & fp & Hne & Di & Df & [-> | ->]); unfold parse_decimal in P.
  - rewrite (span_digits_all Di) in P. destruct ip as [|c ip]; [congruence|].
    injection P as <-. rewrite <- Zle_Qle.
    apply Z.lt_le_incl, digits_val_lt, Di.
  - rewrite (@span_digits_app ip (46 :: fp) Di eq_refl) in P.
    destruct ip as [|c ip]; [congruence|].
    change (46 =? 46) with true in P. cbv iota in P.
    rewrite (span_digits_all Df) in P. injection P as <-.
    assert (0 < 10 ^ Z.of_nat (length fp))%Z as Hp by (apply Z.pow_pos_nonneg; lia).
    apply Qle_shift_div_r; [change 0%Q with (inject_Z 0); rewrite <- Zlt_Qlt; exact Hp|].
    rewrite <- inject_Z_mult, <- Zle_Qle.
    pose proof (digits_val_lt (@all_digits_app (c :: ip) fp Di Df)) as L.
    assert (10 ^ Z.of_nat (length ((c :: ip) ++ fp))
            <= 10 ^ Z.of_nat (length ((c :: ip) ++ 46%N :: fp)))%Z as Mono.
    { apply Z.pow_le_mono_r; [lia|]. rewrite !length_app. cbn [length]. lia. }
    assert (0 < 10 ^ Z.of_nat (length ((c :: ip) ++ 46%N :: fp)))%Z as Pos
      by (apply Z.pow_pos_nonneg; lia).
    change (digits_val (c :: ip ++ fp)) with (digits_val ((c :: ip) ++ fp)).
    revert L Mono Pos Hp.
    generalize (digits_val ((c :: ip) ++ fp)),
               (10 ^ Z.of_nat (length ((c :: ip) ++ fp)))%Z,
               (10 ^ Z.of_nat (length ((c :: ip) ++ 46%N :: fp)))%Z,
               (10 ^ Z.of_nat (length fp))%Z.
    intros d a b e L Mono Pos Hp. nia.
Qed.

Lemma ten_power_300 : (inject_Z (10 ^ 300) <= 2 ^ 1000)%Q.
Proof.
  rewrite <- (Zpower_Qpower 2 1000) by lia. rewrite <- Zle_Qle.
  apply Z.leb_le. vm_compute. reflexivity.
Qed.

(** A numeral of at most 300 characters converts to a finite float. *)
Lemma float_of_str_short w :
  numeral w -> (length w <= 300)%nat ->
  exists v, float_of_str w = Ok (Finite v) /\ (0 <= v)%Q /\ (v <= 2 ^ 1000)%Q.
Proof.
  intros N L. destruct (numeral_value_bound N) as (q & P & Hq & B).
  unfold float_of_str. rewrite P.
  destruct (@rnd_bounded q 1000 Hq ltac:(lia)) as (v & E & Hv).
  - eapply Qle_trans; [exact B|]. eapply Qle_trans; [|exact ten_power_300].
    rewrite <- Zle_Qle. apply Z.pow_le_mono_r; lia.
  - exists v. rewrite E. split; [reflexivity | exact Hv].
Qed.

Lemma fmul_thousand_finite v :
  (0 <= v)%Q -> (v <= 2 ^ 1000)%Q ->
  exists v', fmul (Finite v) (Finite 1000) = Finite v' /\ (0 <= v')%Q.
Proof.
  intros H0 H. cbn [fmul].
  destruct (@rnd_bounded (v * 1000) 1010) as (v' & E & Hv' & _).
  - apply Qmult_le_0_compat; [exact H0 | discriminate].
  - lia.
  - change 1010%Z with (1000 + 10)%Z. rewrite Qpower_plus by discriminate.
    apply Qmult_le_compat_nonneg; split; try assumption; discriminate.
  - exists v'. split; assumption.
Qed.

Lemma replace_from_shorter old s : forall k,
  (length (replace_from old [] k s) <= length s)%nat.
Proof.
  induction s as [|c s IH]; intros k; [simpl; lia|].
  cbn [replace_from]. destruct k as [|k].
  - destruct (startswith old (c :: s)); cbn [app length].
    + specialize (IH (length old - 1)%nat). lia.
    + specialize (IH 0%nat). lia.
  - specialize (IH k). cbn [length]. lia.
Qed.

Lemma search_whole_shorter r t m :
  search r t = Some m -> (length (m_whole m) <= length t)%nat.
Proof.
  intros H. apply search_sound in H as [E _]. rewrite E, !length_app. lia.
Qed.

Lemma search_k_number_shorter t m :
  search k_number_re t = Some m ->
  numeral (group1 m) /\ (length (group1 m) <= length t)%nat.
Proof.
  intros H. pose proof (search_whole_shorter _ _ H) as L.
  apply search_sound in H as [_ M]. unfold k_number_re in M.
  apply matches_seq_inv in M as (w1 & w2 & g1 & E & M1 & M2).
  apply matches_groupless in M2; [subst | reflexivity].
  inv M1. unfold group1.
  match goal with E : _ = m_group m |- _ => rewrite <- E end.
  match goal with M : matches number_re _ _ _ |- _ =>
    apply matches_number in M as [N _] end.
  split; [exact N|]. rewrite E, length_app in L. lia.
Qed.

(** A text of at most 300 characters has a number that converts. *)
Lemma extract_number_short t :
  (length t <= 300)%nat ->
  exists v, extract_number t = Ok v /\
            match v with
            | Some (PyInt z) => (0 <= z)%Z
            | Some (PyFloat x) => exists q, x = Finite q /\ (0 <= q)%Q
            | None => True
            end.
Proof.
  intros L. unfold extract_number.
  destruct (negb (nonempty t)); [exists None; split; [reflexivity | exact I]|].
  set (t' := replace _ _ _).
  assert (L' : (length t' <= 300)%nat).
  { unfold t', replace.
    pose proof (replace_from_shorter (u " ") (replace_from (u ",") [] 0 t) 0).
    pose proof (replace_from_shorter (u ",") t 0). lia. }
  destruct (if contains (u "K+") t' || contains (u "K") t'
            then search k_number_re t' else None) as [m|] eqn:K.
  - destruct (contains (u "K+") t' || contains (u "K") t'); [|discriminate].
    apply search_k_number_shorter in K as [N Ln].
    destruct (@float_of_str_short (group1 m) N ltac:(lia)) as (v & E & H0 & H1).
    rewrite E. cbn [bind].
    destruct (fmul_thousand_finite H0 H1) as (v' & E' & H').
    rewrite E'. cbn [int_of_float bind].
    eexists; split; [reflexivity|].
    apply (@int_of_float_nonneg (Finite v')); [exact H' | reflexivity].
  - destruct (search number_re t') as [m|] eqn:S;
      [|exists None; split; [reflexivity | exact I]].
    pose proof (search_whole_shorter _ _ S) as Lw.
    apply search_number_numeral in S.
    destruct (@float_of_str_short (m_whole m) S ltac:(lia)) as (v & E & H0 & _).
    rewrite E. cbn [bind]. exists (Some (PyFloat (Finite v))).
    split; [reflexivity|]. exists v. split; [reflexivity | exact H0].
Qed.

(** Sold numbers of up to 300 characters and review numbers of up to
    640 digits convert. *)
Lemma parse_sold_short text :
  (forall m, search sold_re text = Some m -> (length (group1 m) <= 300)%nat) ->
  exists z, parse_sold text = Ok z.
Proof.
  intros H. unfold parse_sold. destruct (search sold_re text) as [m|]; [|eauto].
  destruct (@extract_number_short (group1 m) (H m eq_refl)) as (v & E & Hv).
  rewrite E. cbn [bind]. destruct v as [[z|x]|]; cbn [or_zero].
  - destruct (num_truth (PyInt z)); cbn [int_of_num]; eauto.
  - destruct Hv as (q & -> & _).
    destruct (num_truth (PyFloat (Finite q))); cbn [int_of_num int_of_float]; eauto.
  - cbn [int_of_num]. eauto.
Qed.

Lemma parse_review_short lim text :
  (forall m, search review_re text = Some m -> (length (group1 m) <= 640)%nat) ->
  exists z, parse_review lim text = Ok z.
Proof.
  intros H. destruct (parse_review_cases lim text) as [(z & E & _) | (_ & m & S & L & _)].
  - eauto.
  - specialize (H m S). lia.
Qed.


(** ** The sink *)

Lemma encodable_app a b : encodable (a ++ b) = encodable a && encodable b.
Proof. unfold encodable. apply forallb_app. Qed.

Lemma encodable_escape f : encodable (Csv.escape f) = encodable f.
Proof.
  unfold encodable, Csv.escape. induction f as [|c f IH]; [reflexivity|].
  cbn [flat_map forallb]. rewrite forallb_app, IH.
  destruct (c =? Csv.quotechar) eqn:E.
  - apply N.eqb_eq in E. subst c. reflexivity.
  - cbn [forallb]. rewrite andb_true_r. reflexivity.
Qed.

Lemma encodable_write_field f : encodable (Csv.write_field f) = encodable f.
Proof.
  unfold Csv.write_field. destruct (existsb Csv.special f); [|reflexivity].
  change (Csv.quotechar :: Csv.escape f ++ [Csv.quotechar])
    with ([Csv.quotechar] ++ Csv.escape f ++ [Csv.quotechar]).
  rewrite !encodable_app, encodable_escape.
  change (encodable [Csv.quotechar]) with true. rewrite andb_true_r. reflexivity.
Qed.

Lemma encodable_join_fields fields :
  encodable (Csv.join_fields fields) = forallb encodable fields.
Proof.
  induction fields as [|f fields IH]; [reflexivity|].
  destruct fields as [|f' fields].
  - cbn [Csv.join_fields forallb]. rewrite andb_true_r. apply encodable_write_field.
  - change (Csv.join_fields (f :: f' :: fields))
      with (Csv.write_field f ++ [Csv.delimiter] ++ Csv.join_fields (f' :: fields)).
    rewrite !encodable_app, encodable_write_field, IH. reflexivity.
Qed.

(** A line has a surrogate exactly when one of its cells has one. *)
Lemma encodable_writerow fields :
  encodable (Csv.writerow fields) = forallb encodable fields.
Proof.
  assert (G : encodable (Csv.join_fields fields ++ Csv.lineterminator)
              = forallb encodable fields).
  { rewrite encodable_app, encodable_join_fields.
    change (encodable Csv.lineterminator) with true. apply andb_true_r. }
  unfold Csv.writerow. destruct fields as [|[|c f] [|f' fields]]; exact G.
Qed.

Lemma file_write_encodable buf text :
  file_write buf text = if encodable text then Ok (buf ++ text) else Raise UnicodeEncodeError.
Proof.
  unfold file_write, encodable.
  assert (E : existsb is_surrogate text
              = negb (forallb (fun c => negb (is_surrogate c)) text)).
  { induction text as [|c text IH]; [reflexivity|].
    cbn [existsb forallb]. rewrite IH, negb_andb, negb_involutive. reflexivity. }
  rewrite E. destruct (forallb _ text); reflexivity.
Qed.

Section SinkFacts.
Variable int_max_str_digits : nat.
Variable float_repr : pyfloat -> pystr.

Lemma str_raises_printable z :
  str_raises int_max_str_digits z = negb (printable int_max_str_digits z).
Proof.
  unfold str_raises, printable. apply eq_true_iff_eq.
  rewrite negb_true_iff, !andb_true_iff, !orb_false_iff, !Nat.ltb_lt, !Nat.leb_gt,
    Nat.eqb_neq.
  lia.
Qed.

Lemma cell_str_int z :
  cell_str int_max_str_digits float_repr (CNum (PyInt z))
  = if printable int_max_str_digits z then Ok (str_of_int z) else Raise ValueError.
Proof.
  cbn [cell_str cell_text]. rewrite str_raises_printable.
  destruct (printable int_max_str_digits z); reflexivity.
Qed.

Lemma cell_str_num v :
  cell_str int_max_str_digits float_repr (CNum v)
  = if num_printable int_max_str_digits v
    then Ok (cell_text float_repr (CNum v)) else Raise ValueError.
Proof. destruct v as [z|x]; [apply cell_str_int | reflexivity]. Qed.

Lemma cell_str_price p :
  cell_str int_max_str_digits float_repr (price_cell p)
  = Ok (cell_text float_repr (price_cell p)).
Proof. destruct p as [x|]; [|reflexivity]. cbn [price_cell]. destruct (ftruth x); reflexivity. Qed.

(** The write of the row of one product: the line of its cells, when
    the product is writable; an exception otherwise. *)
Lemma product_row_write p buf :
  dictwriter_writerow int_max_str_digits float_repr fieldnames (product_row p) buf
  = if writable int_max_str_digits float_repr p
    then Ok (buf ++ Csv.writerow (row_cells float_repr p))
    else Raise (if num_printable int_max_str_digits (discount_percent p) &&
                   printable int_max_str_digits (sold_count p) &&
                   num_printable int_max_str_digits (rating p) &&
                   printable int_max_str_digits (review_count p)
                then UnicodeEncodeError else ValueError).
Proof.
  unfold dictwriter_writerow, writable.
  change (dict_to_list fieldnames (product_row p))
    with (Ok [CStr (product_id p); CStr (title p); price_cell (current_price p);
              price_cell (original_price p); CNum (discount_percent p);
              CNum (PyInt (sold_count p)); CNum (rating p);
              CNum (PyInt (review_count p)); CStr (url p)]).
  cbn [bind mapM].
  rewrite !cell_str_price, !cell_str_int, !cell_str_num.
  cbn [cell_str bind].
  destruct (num_printable int_max_str_digits (discount_percent p)); [|reflexivity].
  cbn [bind andb].
  destruct (printable int_max_str_digits (sold_count p)); [|reflexivity].
  cbn [bind andb].
  destruct (num_printable int_max_str_digits (rating p)); [|reflexivity].
  cbn [bind andb].
  destruct (printable int_max_str_digits (review_count p)); [|reflexivity].
  cbn [bind andb cell_text].
  rewrite file_write_encodable, encodable_writerow. reflexivity.
Qed.

Lemma header_write buf :
  dictwriter_writerow int_max_str_digits float_repr fieldnames (header_row fieldnames) buf
  = Ok (buf ++ Csv.writerow fieldnames).
Proof. reflexivity. Qed.

(** The rows are written up to the first product that is not writable. *)
Lemma write_rows_products ps : forall buf,
  write_rows int_max_str_digits float_repr (map product_row ps) buf
  = (buf ++ csv_text (map (row_cells float_repr)
                          (written int_max_str_digits float_repr ps)),
     snd (write_rows int_max_str_digits float_repr (map product_row ps) buf)) /\
  (snd (write_rows int_max_str_digits float_repr (map product_row ps) buf) = Ok tt <->
   forallb (writable int_max_str_digits float_repr) ps = true).
Proof.
  induction ps as [|p ps IH]; intros buf.
  - cbn [map write_rows written csv_text concat snd forallb]. rewrite app_nil_r.
    split; [reflexivity | split; reflexivity].
  - cbn [map write_rows written forallb]. rewrite product_row_write.
    destruct (writable int_max_str_digits float_repr p).
    + destruct (IH (buf ++ Csv.writerow (row_cells float_repr p))) as [E I].
      split; [|exact I]. rewrite E at 1.
      unfold csv_text. cbn [map concat snd]. rewrite <- app_assoc. reflexivity.
    + cbn [map csv_text concat snd andb]. rewrite app_nil_r.
      split; [reflexivity | split; discriminate].
Qed.

Lemma written_all ps :
  forallb (writable int_max_str_digits float_repr) ps = true ->
  written int_max_str_digits float_repr ps = ps.
Proof.
  induction ps as [|p ps IH]; [reflexivity|]. cbn [forallb written]. intros H.
  apply andb_prop in H as [Hp H]. rewrite Hp, (IH H). reflexivity.
Qed.

(** The written products are the products up to some point. *)
Lemma written_prefix ps :
  exists rest, ps = written int_max_str_digits float_repr ps ++ rest.
Proof.
  induction ps as [|p ps [rest IH]]; [exists []; reflexivity|]. cbn [written].
  destruct (writable int_max_str_digits float_repr p).
  - exists rest. cbn [app]. f_equal. exact IH.
  - exists (p :: ps). reflexivity.
Qed.

(** The file the sink leaves, whether it returns or raises. *)
Lemma save_to_csv_file products output_file fs :
  products <> [] ->
  fst (save_to_csv int_max_str_digits float_repr products output_file fs)
  = write_file fs output_file
      (csv_text (fieldnames :: map (row_cells float_repr)
                                   (written int_max_str_digits float_repr products))).
Proof.
  intros Hne. unfold save_to_csv. destruct products as [|p ps]; [congruence|].
  cbn [write_rows]. rewrite header_write.
  destruct (write_rows_products (p :: ps) ([] ++ Csv.writerow fieldnames)) as [E _].
  rewrite E. cbn [fst app]. reflexivity.
Qed.

(** The sink returns exactly when every product is writable. *)
Lemma save_to_csv_returns products output_file fs :
  snd (save_to_csv int_max_str_digits float_repr products output_file fs) = Ok tt <->
  forallb (writable int_max_str_digits float_repr) products = true.
Proof.
  unfold save_to_csv. destruct products as [|p ps]; [split; reflexivity|].
  cbn [write_rows]. rewrite header_write.
  destruct (write_rows_products (p :: ps) ([] ++ Csv.writerow fieldnames)) as [E I].
  rewrite E. cbn [snd]. exact I.
Qed.

Lemma save_to_csv_content products output_file fs :
  products <> [] ->
  forallb (writable int_max_str_digits float_repr) products = true ->
  save_to_csv int_max_str_digits float_repr products output_file fs
  = (write_file fs output_file
       (csv_text (fieldnames :: map (row_cells float_repr) products)),
     Ok tt).
Proof.
  intros Hne W.
  pose proof (save_to_csv_file output_file fs Hne) as F.
  pose proof (proj2 (save_to_csv_returns products output_file fs) W) as R.
  rewrite (written_all _ W) in F.
  destruct (save_to_csv int_max_str_digits float_repr products output_file fs) as [fs' r].
  cbn [fst snd] in F, R. subst. reflexivity.
Qed.
End SinkFacts.

Lemma str_of_int_nonempty z : str_of_int z <> [].
Proof.
  unfold str_of_int. destruct (Z.to_int z) as [d|d]; [|discriminate].
  destruct d; discriminate.
Qed.

Lemma write_file_read fs path content : write_file fs path content path = Some content.
Proof. unfold write_file. rewrite String.eqb_refl. reflexivity. Qed.

(** ** The binary64 grid *)

Lemma pow2_le a b : (a <= b)%Z -> (pow2 a <= pow2 b)%Q.
Proof.
  intros H. rewrite !pow2_power. apply Qpower_le_compat_l; [exact H | discriminate].
Qed.

Lemma pow2_lt a b : (a < b)%Z -> (pow2 a < pow2 b)%Q.
Proof.
  intros H. rewrite !pow2_power. apply Qpower_lt_compat_l; [exact H | reflexivity].
Qed.

Lemma pow2_lt_inv a b : (pow2 a < pow2 b)%Q -> (a < b)%Z.
Proof.
  rewrite !pow2_power. intros H. apply (Qpower_lt_compat_l_inv 2); [exact H | reflexivity].
Qed.

Lemma pow2_add a b : (pow2 (a + b) == pow2 a * pow2 b)%Q.
Proof. rewrite !pow2_power. apply Qpower_plus. discriminate. Qed.

Lemma pow2_Z k : (0 <= k)%Z -> pow2 k = inject_Z (2 ^ k).
Proof. intros H. unfold pow2. apply Z.leb_le in H. rewrite H. reflexivity. Qed.

(** [ilog2] is the binary exponent. *)
Lemma ilog2_spec q :
  (0 < q)%Q -> (pow2 (ilog2 q) <= q)%Q /\ (q < pow2 (ilog2 q + 1))%Q.
Proof.
  intros Hq. destruct q as [n d].
  assert (Hn : (0 < n)%Z).
  { unfold Qlt in Hq. simpl in Hq. lia. }
  set (a := Z.log2 n). set (b := Z.log2 (Zpos d)).
  assert (Ha : (0 <= a)%Z) by apply Z.log2_nonneg.
  assert (Hb : (0 <= b)%Z) by apply Z.log2_nonneg.
  destruct (Z.log2_spec n Hn) as [A1 A2]. fold a in A1, A2.
  destruct (Z.log2_spec (Zpos d) ltac:(lia)) as [B1 B2]. fold b in B1, B2.
  assert (U : (n # d < pow2 (a - b + 1))%Q).
  { apply (proj1 (Qmult_lt_r _ _ (pow2 b) (pow2_pos b))).
    rewrite <- pow2_add. replace (a - b + 1 + b)%Z with (Z.succ a) by lia.
    rewrite !pow2_Z by lia.
    unfold Qlt, Qmult, inject_Z. simpl. rewrite Pos.mul_1_r. nia. }
  assert (L : (pow2 (a - b - 1) <= n # d)%Q).
  { apply (proj1 (Qmult_le_r _ _ (pow2 (Z.succ b)) (pow2_pos _))).
    rewrite <- pow2_add. replace (a - b - 1 + Z.succ b)%Z with a by lia.
    rewrite !pow2_Z by lia.
    unfold Qle, Qmult, inject_Z. simpl. rewrite Pos.mul_1_r. nia. }
  unfold ilog2. cbn [Qnum Qden]. fold a. fold b.
  destruct (Qle_bool (pow2 (a - b)) (n # d)) eqn:T.
  - apply Qle_bool_iff in T. split; [exact T | exact U].
  - split; [exact L|].
    replace (a - b - 1 + 1)%Z with (a - b)%Z by lia.
    apply Qnot_le_lt. intros C. apply Qle_bool_iff in C. congruence.
Qed.

Lemma ilog2_lt q e : (0 < q)%Q -> (q < pow2 (e + 1))%Q -> (ilog2 q <= e)%Z.
Proof.
  intros Hq H. destruct (ilog2_spec Hq) as [L _].
  assert (pow2 (ilog2 q) < pow2 (e + 1))%Q as T by (eapply Qle_lt_trans; eassumption).
  apply pow2_lt_inv in T. lia.
Qed.

Lemma round_half_even_Z x M : (x == inject_Z M)%Q -> round_half_even x = M.
Proof.
  intros E. unfold round_half_even.
  rewrite (Qfloor_comp _ _ E), Qfloor_Z.
  assert (C : (x - inject_Z M ?= 1 # 2)%Q = Lt).
  { rewrite E. apply Qlt_alt. unfold Qminus. rewrite Qplus_opp_r. reflexivity. }
  rewrite C. reflexivity.
Qed.

Lemma round_half_even_ge x M : (inject_Z M <= x)%Q -> (M <= round_half_even x)%Z.
Proof.
  intros H. unfold round_half_even.
  assert (F : (M <= Qfloor x)%Z).
  { rewrite <- (Qfloor_Z M). apply Qfloor_resp_le, H. }
  destruct (Qcompare _ _); [destruct (Z.even _)| |]; lia.
Qed.

Lemma grid_below_binade k e :
  (0 <= k < 2 ^ 53)%Z -> (inject_Z k * pow2 (e - 52) < pow2 (e + 1))%Q.
Proof.
  intros Hk. replace (e + 1)%Z with (53 + (e - 52))%Z by lia.
  rewrite pow2_add. apply Qmult_lt_compat_r; [apply pow2_pos|].
  rewrite pow2_Z by lia. rewrite <- Zlt_Qlt. lia.
Qed.

(** A grid value is a whole number of units of any smaller number. *)
Lemma grid_ulp v x :
  on_grid v -> (0 < x)%Q -> (x <= v)%Q ->
  exists M, (v == inject_Z M * pow2 (Z.max (ilog2 x) (-1022) - 52))%Q /\
            (v < pow2 1024)%Q.
Proof.
  intros (k & e & Hk & He & Ev) Hx Hxv.
  assert (B : (v < pow2 (e + 1))%Q) by (rewrite Ev; apply grid_below_binade, Hk).
  assert (Le : (Z.max (ilog2 x) (-1022) <= e)%Z).
  { assert (ilog2 x <= e)%Z; [|lia].
    apply ilog2_lt; [exact Hx|]. eapply Qle_lt_trans; eassumption. }
  set (ex := Z.max (ilog2 x) (-1022)) in *.
  exists (k * 2 ^ (e - ex))%Z. split.
  - rewrite Ev, inject_Z_mult, <- Qmult_assoc.
    rewrite <- (@pow2_Z (e - ex)%Z) by lia. rewrite <- pow2_add.
    replace (e - ex + (ex - 52))%Z with (e - 52)%Z by lia. reflexivity.
  - eapply Qlt_le_trans; [exact B|]. apply pow2_le. lia.
Qed.

(** Rounding never goes above a grid value it starts under. *)
Lemma round_pos_le_grid v x :
  on_grid v -> (0 < x)%Q -> (x <= v)%Q ->
  exists v', round_pos x = Finite v' /\ (0 <= v')%Q /\ (v' <= v)%Q.
Proof.
  intros G Hx Hxv. destruct (grid_ulp G Hx Hxv) as (M & EM & Hfin).
  unfold round_pos.
  set (ulp := pow2 (Z.max (ilog2 x) (-1022) - 52)) in *.
  assert (Hu : (0 < ulp)%Q) by apply pow2_pos.
  assert (Hr : (round_half_even (x / ulp) <= M)%Z).
  { apply round_half_even_le. apply Qle_shift_div_r; [exact Hu|].
    rewrite <- EM. exact Hxv. }
  assert (Hv : (inject_Z (round_half_even (x / ulp)) * ulp <= v)%Q).
  { rewrite EM. apply Qmult_le_compat_r; [|apply Qlt_le_weak, Hu].
    rewrite <- Zle_Qle. exact Hr. }
  assert (H0 : (0 <= inject_Z (round_half_even (x / ulp)) * ulp)%Q).
  { apply Qmult_le_0_compat; [|apply Qlt_le_weak, Hu].
    change 0%Q with (inject_Z 0). rewrite <- Zle_Qle.
    apply round_half_even_nonneg.
    apply Qle_shift_div_l; [exact Hu|]. rewrite Qmult_0_l. apply Qlt_le_weak, Hx. }
  destruct (Qle_bool (pow2 1024) _) eqn:O.
  - exfalso. apply Qle_bool_iff in O.
    apply (Qlt_irrefl (pow2 1024)).
    eapply Qle_lt_trans; [exact O|]. eapply Qle_lt_trans; [exact Hv | exact Hfin].
  - eexists. split; [reflexivity|]. rewrite Qred_correct. split; assumption.
Qed.

Lemma rnd_le_grid v x :
  on_grid v -> (0 <= x)%Q -> (x <= v)%Q ->
  exists v', rnd x = Finite v' /\ (0 <= v')%Q /\ (v' <= v)%Q.
Proof.
  intros G Hx Hxv. unfold rnd. destruct (Qcompare x 0) eqn:C.
  - exists 0%Q. split; [reflexivity|]. split; [apply Qle_refl|].
    eapply Qle_trans; eassumption.
  - rewrite <- Qlt_alt in C. exfalso. exact (Qlt_not_le _ _ C Hx).
  - rewrite <- Qgt_alt in C. apply round_pos_le_grid; assumption.
Qed.

(** A grid value rounds to itself. *)
Lemma round_pos_exact v :
  on_grid v -> (0 < v)%Q -> round_pos v = Finite (Qred v).
Proof.
  intros G Hv. destruct (grid_ulp G Hv (Qle_refl v)) as (M & EM & Hfin).
  unfold round_pos.
  set (ulp := pow2 (Z.max (ilog2 v) (-1022) - 52)) in *.
  assert (Hu : (0 < ulp)%Q) by apply pow2_pos.
  assert (R : round_half_even (v / ulp) = M).
  { apply round_half_even_Z. rewrite EM. unfold Qdiv.
    rewrite <- Qmult_assoc, Qmult_inv_r, Qmult_1_r; [reflexivity|].
    intros Z. rewrite Z in Hu. discriminate Hu. }
  rewrite R.
  destruct (Qle_bool (pow2 1024) _) eqn:O.
  - exfalso. apply Qle_bool_iff in O. rewrite <- EM in O.
    exact (Qlt_not_le _ _ Hfin O).
  - f_equal. apply Qred_complete. symmetry. exact EM.
Qed.

Lemma rnd_exact v : on_grid v -> (0 <= v)%Q -> rnd v = Finite (Qred v).
Proof.
  intros G Hv. unfold rnd. destruct (Qcompare v 0) eqn:C.
  - apply Qeq_alt in C. f_equal. symmetry. apply (Qred_complete v 0 C).
  - rewrite <- Qlt_alt in C. exfalso. exact (Qlt_not_le _ _ C Hv).
  - rewrite <- Qgt_alt in C. apply round_pos_exact; assumption.
Qed.

(** What rounding returns is on the grid. *)
Lemma round_pos_on_grid q v :
  (0 < q)%Q -> round_pos q = Finite v -> on_grid v.
Proof.
  intros Hq. unfold round_pos.
  set (e := Z.max (ilog2 q) (-1022)).
  set (ulp := pow2 (e - 52)).
  set (m := round_half_even (q / ulp)).
  assert (Hu : (0 < ulp)%Q) by apply pow2_pos.
  destruct (ilog2_spec Hq) as [L U].
  assert (Hm0 : (0 <= m)%Z).
  { apply round_half_even_nonneg. apply Qle_shift_div_l; [exact Hu|].
    rewrite Qmult_0_l. apply Qlt_le_weak, Hq. }
  assert (Hm1 : (m <= 2 ^ 53)%Z).
  { apply round_half_even_le. apply Qle_shift_div_r; [exact Hu|].
    rewrite <- (@pow2_Z 53%Z) by lia. unfold ulp. rewrite <- pow2_add.
    replace (53 + (e - 52))%Z with (e + 1)%Z by lia.
    apply Qlt_le_weak. eapply Qlt_le_trans; [exact U|]. apply pow2_le. lia. }
  destruct (Qle_bool (pow2 1024) (inject_Z m * ulp)) eqn:O; [discriminate|].
  intros E.
  assert (E' : v = Qred (inject_Z m * ulp)) by (injection E; intros <-; reflexivity).
  clear E. subst v.
  assert (Hfin : (inject_Z m * ulp < pow2 1024)%Q).
  { apply Qnot_le_lt. intros C. apply Qle_bool_iff in C. congruence. }
  assert (He : (e <= 1023)%Z).
  { destruct (Z_le_gt_dec e 1023) as [|G]; [assumption|exfalso].
    assert (Ee : e = ilog2 q) by lia.
    assert (2 ^ 52 <= m)%Z as Hm2.
    { apply round_half_even_ge. apply Qle_shift_div_l; [exact Hu|].
      rewrite <- (@pow2_Z 52%Z) by lia. unfold ulp. rewrite <- pow2_add.
      replace (52 + (e - 52))%Z with e by lia. rewrite Ee. exact L. }
    apply (Qlt_irrefl (pow2 1024)).
    eapply Qle_lt_trans; [|exact Hfin].
    apply Qle_trans with (pow2 e); [apply pow2_le; lia|].
    replace e with (52 + (e - 52))%Z at 1 by lia. rewrite pow2_add.
    apply Qmult_le_compat_r; [|apply Qlt_le_weak, Hu].
    rewrite pow2_Z by lia. rewrite <- Zle_Qle. exact Hm2. }
  destruct (Z.eq_dec m (2 ^ 53)) as [Em|Nm].
  - exists (2 ^ 52)%Z, (e + 1)%Z.
    assert (Ev : (inject_Z m * ulp == pow2 (e + 1))%Q).
    { rewrite Em, <- (@pow2_Z 53%Z) by lia. unfold ulp. rewrite <- pow2_add.
      replace (53 + (e - 52))%Z with (e + 1)%Z by lia. reflexivity. }
    split; [lia|]. split.
    + assert (pow2 (e + 1) < pow2 1024)%Q as T by (rewrite <- Ev; exact Hfin).
      apply pow2_lt_inv in T. lia.
    + rewrite Qred_correct, Ev, <- (@pow2_Z 52%Z) by lia. rewrite <- pow2_add.
      replace (52 + (e + 1 - 52))%Z with (e + 1)%Z by lia. reflexivity.
  - exists m, e. split; [lia|]. split; [lia|]. apply Qred_correct.
Qed.

Lemma rnd_on_grid q v : (0 <= q)%Q -> rnd q = Finite v -> on_grid v.
Proof.
  intros Hq. unfold rnd. destruct (Qcompare q 0) eqn:C.
  - intros E. injection E as <-. exists 0%Z, 0%Z.
    split; [lia|]. split; [lia|]. rewrite Qmult_0_l. reflexivity.
  - rewrite <- Qlt_alt in C. exfalso. exact (Qlt_not_le _ _ C Hq).
  - rewrite <- Qgt_alt in C. apply round_pos_on_grid, C.
Qed.

(** Whole numbers under [2 ^ 53] are on the grid. *)
Lemma integer_on_grid n : (0 <= n < 2 ^ 53)%Z -> on_grid (inject_Z n).
Proof.
  intros H. exists n, 52%Z. split; [exact H|]. split; [lia|].
  change (pow2 (52 - 52)) with 1%Q. rewrite Qmult_1_r. reflexivity.
Qed.

(** ** Replacement and stripping keep the other characters *)

Lemma replace_from_keeps (f : char -> bool) old : 
  old <> [] -> forallb (fun c => negb (f c)) old = true ->
  forall s k, forallb (fun c => negb (f c)) (firstn k s) = true ->
    filter f (replace_from old [] k s) = filter f s.
Proof.
  intros Hne Ho. induction s as [|c s IH]; intros k Hk; [reflexivity|].
  destruct k as [|k]; cbn [replace_from].
  - destruct (startswith old (c :: s)) eqn:S.
    + apply startswith_spec in S as [b E].
      destruct old as [|o old]; [congruence|]. injection E as -> ->.
      simpl in Ho. apply andb_prop in Ho as [Hc Ho'].
      cbn [app length]. rewrite Nat.sub_succ, Nat.sub_0_r.
      rewrite IH.
      * cbn [filter]. apply negb_true_iff in Hc. rewrite Hc. reflexivity.
      * rewrite firstn_app, Nat.sub_diag, firstn_all. cbn [firstn]. rewrite app_nil_r. exact Ho'.
    + cbn [filter]. rewrite (IH 0%nat) by reflexivity. reflexivity.
  - cbn [firstn forallb] in Hk. apply andb_prop in Hk as [Hc Hk].
    cbn [filter]. apply negb_true_iff in Hc. rewrite Hc. apply IH, Hk.
Qed.

Lemma replace_keeps (f : char -> bool) old s :
  old <> [] -> forallb (fun c => negb (f c)) old = true ->
  filter f (replace old [] s) = filter f s.
Proof. intros Hne Ho. apply replace_from_keeps; auto. Qed.

(** Removing a character is filtering it out. *)
Lemma replace_chr c s :
  replace [c] [] s = filter (fun x => negb (chr_eqb c x)) s.
Proof.
  unfold replace. induction s as [|x s IH]; [reflexivity|].
  cbn [replace_from startswith filter length]. rewrite andb_true_r.
  destruct (chr_eqb c x); cbn [negb app Nat.sub]; rewrite IH; reflexivity.
Qed.

(** A text that misses the first character of [old] is left as it is. *)
Lemma replace_absent old new s c old' :
  old = c :: old' -> forallb (fun x => negb (chr_eqb c x)) s = true ->
  replace old new s = s.
Proof.
  intros -> H. unfold replace. induction s as [|x s IH]; [reflexivity|].
  cbn [forallb] in H. apply andb_prop in H as [Hx H].
  apply negb_true_iff in Hx.
  cbn [replace_from startswith]. rewrite Hx. cbn [andb]. rewrite IH by exact H. reflexivity.
Qed.

Lemma lstrip_decomposition s : exists ws, s = ws ++ lstrip s /\ all_space ws.
Proof.
  induction s as [|c s (ws & E & A)]; [exists []; split; reflexivity|].
  cbn [lstrip]. destruct (isspace c) eqn:C.
  - exists (c :: ws). split; [cbn [app]; congruence|].
    unfold all_space. cbn [forallb]. rewrite C. exact A.
  - exists []. split; reflexivity.
Qed.

Lemma filter_all_space (f : char -> bool) ws :
  (forall c, f c = true -> isspace c = false) -> all_space ws -> filter f ws = [].
Proof.
  intros Hf. unfold all_space. induction ws as [|c ws IH]; intros A; [reflexivity|].
  cbn [forallb] in A. apply andb_prop in A as [Ac A]. cbn [filter].
  destruct (f c) eqn:F; [apply Hf in F; congruence | apply IH, A].
Qed.

Lemma strip_keeps (f : char -> bool) s :
  (forall c, f c = true -> isspace c = false) -> filter f (strip s) = filter f s.
Proof.
  intros Hf. unfold strip.
  destruct (lstrip_decomposition s) as (ws & E & A).
  destruct (rstrip_decomposition (lstrip s)) as (ws' & E' & A').
  rewrite E at 2. rewrite E' at 2.
  rewrite !filter_app, (filter_all_space f Hf A), (filter_all_space f Hf A'), app_nil_r.
  reflexivity.
Qed.

(** No whitespace character is a decimal digit: each run of digits is
    checked against the whitespace class. *)
Lemma digit_not_space c : is_digit c = true -> isspace c = false.
Proof.
  unfold is_digit. destruct (decimal_zero c) as [z|] eqn:E; [|discriminate].
  intros _. apply decimal_zero_spec in E as [I [B1 B2]].
  unfold decimal_zeros in I. cbn [In] in I.
  unfold isspace.
  repeat (destruct I as [<- | I]; [
    repeat (apply orb_false_iff; split);
    try (apply N.eqb_neq; lia);
    apply andb_false_iff;
    first [ right; apply N.leb_gt; lia | left; apply N.leb_gt; lia ] |]).
  destruct I.
Qed.

Lemma no_digit_filter t : no_digit t <-> filter is_digit t = [].
Proof.
  unfold no_digit. induction t as [|c t IH]; [split; reflexivity|].
  cbn [forallb filter]. destruct (is_digit c); cbn [negb andb].
  - split; discriminate.
  - exact IH.
Qed.

(** ** The matcher is greedy and leftmost *)

Lemma rmatch_alt A r1 r2 s g (k : pystr -> option pystr -> option A) :
  rmatch (Alt r1 r2) s g k
  = match rmatch r1 s g k with Some a => Some a | None => rmatch r2 s g k end.
Proof. reflexivity. Qed.

Lemma rmatch_eps A s g (k : pystr -> option pystr -> option A) :
  rmatch Eps s g k = k s g.
Proof. reflexivity. Qed.

Lemma rmatch_group A r0 s g (k : pystr -> option pystr -> option A) :
  rmatch (Group r0) s g k
  = rmatch r0 s g (fun s1 _ => k s1 (Some (firstn (length s - length s1) s))).
Proof. reflexivity. Qed.

Lemma star_chr_greedy A p ws : forall rest g n (k : pystr -> option pystr -> option A) a,
  forallb p ws = true -> stops p rest -> (length (ws ++ rest) <= n)%nat ->
  k rest g = Some a ->
  star_loop (Chr p) k n (ws ++ rest) g = Some a.
Proof.
  induction ws as [|c ws IH]; intros rest g n k a W R L K.
  - destruct n as [|n]; [exact K|]. cbn [star_loop app].
    destruct rest as [|c rest]; [exact K|]. rewrite rmatch_chr_cons.
    simpl in R. rewrite R. exact K.
  - simpl in W. apply andb_prop in W as [Wc W].
    destruct n as [|n]; [simpl in L; lia|].
    cbn [star_loop app]. rewrite rmatch_chr_cons, Wc.
    assert (T : (length (ws ++ rest) <? length (c :: ws ++ rest))%nat = true)
      by (apply Nat.ltb_lt; simpl; lia).
    rewrite T. rewrite (IH rest g n k a); [reflexivity | | | |]; auto.
    simpl in L. lia.
Qed.

Lemma rmatch_star_chr A p ws rest g (k : pystr -> option pystr -> option A) a :
  forallb p ws = true -> stops p rest -> k rest g = Some a ->
  rmatch (Star (Chr p)) (ws ++ rest) g k = Some a.
Proof.
  intros W R K. rewrite rmatch_star. apply star_chr_greedy; auto.
Qed.

Lemma rmatch_plus_chr A p ws rest g (k : pystr -> option pystr -> option A) a :
  ws <> [] -> forallb p ws = true -> stops p rest -> k rest g = Some a ->
  rmatch (Plus (Chr p)) (ws ++ rest) g k = Some a.
Proof.
  intros Hne W R K. destruct ws as [|c ws]; [congruence|].
  simpl in W. apply andb_prop in W as [Wc W].
  unfold Plus. rewrite rmatch_seq. cbn [app]. rewrite rmatch_chr_cons, Wc.
  apply rmatch_star_chr; auto.
Qed.

Lemma rmatch_plus_chr_none A p s g (k : pystr -> option pystr -> option A) :
  stops p s -> rmatch (Plus (Chr p)) s g k = None.
Proof.
  intros R. unfold Plus. rewrite rmatch_seq. destruct s as [|c s]; [reflexivity|].
  rewrite rmatch_chr_cons. simpl in R. rewrite R. reflexivity.
Qed.

Lemma rmatch_lit A l : forall s g (k : pystr -> option pystr -> option A),
  rmatch (lit l) s g k = if startswith l s then k (skipn (length l) s) g else None.
Proof.
  induction l as [|c l IH]; intros s g k; [reflexivity|].
  cbn [lit]. rewrite rmatch_seq. unfold lit_chr.
  destruct s as [|x s]; [reflexivity|].
  rewrite rmatch_chr_cons. cbn [startswith length skipn].
  destruct (chr_eqb c x); [apply IH | reflexivity].
Qed.

Lemma search_from_here r before s rest g :
  match_here r s = Some (rest, g) ->
  exists w, s = w ++ rest /\
    search_from r before s
    = Some {| m_before := rev before; m_whole := w; m_group := g; m_after := rest |}.
Proof.
  intros M. pose proof (match_here_sound _ _ M) as (w & E & _).
  exists w. split; [exact E|].
  rewrite search_from_eq, M, (firstn_matched_eq w rest E). reflexivity.
Qed.

(** No match starts before the one [search] returns. *)
Lemma search_from_leftmost r : forall s before m,
  search_from r before s = Some m ->
  exists pre,
    m_before m = rev before ++ pre /\ s = pre ++ m_whole m ++ m_after m /\
    forall a b, pre = a ++ b -> b <> [] ->
                match_here r (b ++ m_whole m ++ m_after m) = None.
Proof.
  assert (Here : forall s before m rest g,
            match_here r s = Some (rest, g) -> search_from r before s = Some m ->
            exists pre,
              m_before m = rev before ++ pre /\ s = pre ++ m_whole m ++ m_after m /\
              forall a b, pre = a ++ b -> b <> [] ->
                          match_here r (b ++ m_whole m ++ m_after m) = None).
  { intros s before m rest g M H.
    destruct (@search_from_here r before s rest g M) as (w & E & S).
    rewrite S in H. injection H as <-. cbn [m_before m_whole m_after].
    exists []. split; [rewrite app_nil_r; reflexivity|]. split; [exact E|].
    intros a b E' Hb. destruct a; destruct b; simpl in E'; congruence. }
  induction s as [|c s IH]; intros before m H.
  - destruct (match_here r []) as [[rest g]|] eqn:M; [exact (Here _ _ _ _ _ M H)|].
    rewrite search_from_eq, M in H. discriminate.
  - destruct (match_here r (c :: s)) as [[rest g]|] eqn:M; [exact (Here _ _ _ _ _ M H)|].
    rewrite search_from_eq, M in H.
    apply IH in H as (pre & E1 & E2 & L).
    exists (c :: pre). split; [|split].
    + rewrite E1. cbn [rev]. rewrite <- app_assoc. reflexivity.
    + cbn [app]. congruence.
    + intros a b E' Hb. destruct a as [|x a].
      * cbn [app] in E'. subst b. cbn [app]. rewrite <- E2. exact M.
      * injection E' as -> ->. apply (L a b eq_refl Hb).
Qed.

Lemma search_leftmost r s m :
  search r s = Some m ->
  s = m_before m ++ m_whole m ++ m_after m /\
  forall a b, m_before m = a ++ b -> b <> [] ->
              match_here r (b ++ m_whole m ++ m_after m) = None.
Proof.
  intros H. apply search_from_leftmost in H as (pre & E1 & E2 & L).
  cbn [rev app] in E1. rewrite E1. split; [exact E2 | exact L].
Qed.

(** A match at the head is the match [search] returns. *)
Lemma search_here r s rest g :
  match_here r s = Some (rest, g) ->
  search r s = Some {| m_before := []; m_whole := firstn (length s - length rest) s;
                       m_group := g; m_after := rest |}.
Proof. intros H. unfold search. rewrite search_from_eq, H. reflexivity. Qed.

(** Every match of [finditer] is a match of the pattern inside the text. *)
Lemma finditer_fuel_sound r n : forall s m,
  In m (fst (finditer_fuel n r s)) ->
  substring (m_whole m) s /\ matches r (m_whole m) None (m_group m).
Proof.
  induction n as [|n IH]; intros s m H; [contradiction|].
  cbn [finditer_fuel] in H.
  destruct (search r s) as [m0|] eqn:S; [|contradiction].
  pose proof (search_sound _ _ S) as [E M].
  assert (H0 : substring (m_whole m0) s /\ matches r (m_whole m0) None (m_group m0)).
  { split; [|exact M]. exists (m_before m0), (m_after m0). exact E. }
  assert (Hrest : forall rest, In m (fst (finditer_fuel n r rest)) ->
            substring rest s ->
            substring (m_whole m) s /\ matches r (m_whole m) None (m_group m)).
  { intros rest Hin (a & b & Es). apply IH in Hin as [(a' & b' & E') M'].
    split; [|exact M']. exists (a ++ a'), (b' ++ b).
    rewrite Es, E', <- !app_assoc. reflexivity. }
  destruct (m_whole m0) as [|c w] eqn:W; destruct (m_after m0) as [|d rest] eqn:A.
  - destruct H as [<- | []]. rewrite W. exact H0.
  - destruct (finditer_fuel n r rest) as [ms tl] eqn:F. destruct H as [<- | H].
    + rewrite W. exact H0.
    + apply (Hrest rest); [rewrite F; exact H|].
      exists (m_before m0 ++ [d]), []. rewrite E, app_nil_r, <- app_assoc. reflexivity.
  - destruct (finditer_fuel n r []) as [ms tl] eqn:F. destruct H as [<- | H].
    + rewrite W. exact H0.
    + apply (Hrest []); [rewrite F; exact H|].
      exists s, []. rewrite app_nil_r. reflexivity.
  - destruct (finditer_fuel n r (d :: rest)) as [ms tl] eqn:F. destruct H as [<- | H].
    + rewrite W. exact H0.
    + apply (Hrest (d :: rest)); [rewrite F; exact H|].
      exists (m_before m0 ++ c :: w), []. rewrite E, app_nil_r, <- app_assoc. reflexivity.
Qed.

Lemma search_from_match_here r : forall s before m,
  search_from r before s = Some m ->
  match_here r (m_whole m ++ m_after m) = Some (m_after m, m_group m).
Proof.
  induction s as [|c s IH]; intros before m H.
  - destruct (match_here r []) as [[rest g]|] eqn:M.
    + destruct (@search_from_here r before [] rest g M) as (w & E & S).
      rewrite S in H. injection H as <-. cbn [m_whole m_after m_group].
      rewrite <- E. exact M.
    + rewrite search_from_eq, M in H. discriminate.
  - destruct (match_here r (c :: s)) as [[rest g]|] eqn:M.
    + destruct (@search_from_here r before (c :: s) rest g M) as (w & E & S).
      rewrite S in H. injection H as <-. cbn [m_whole m_after m_group].
      rewrite <- E. exact M.
    + rewrite search_from_eq, M in H. apply IH in H. exact H.
Qed.

Lemma search_match_here r s m :
  search r s = Some m ->
  match_here r (m_whole m ++ m_after m) = Some (m_after m, m_group m).
Proof. apply search_from_match_here. Qed.

Lemma match_here_search r a b rest g :
  match_here r b = Some (rest, g) -> exists m, search r (a ++ b) = Some m.
Proof.
  intros M. apply match_here_sound in M as (w & -> & M).
  apply (@search_complete r a w rest g M).
Qed.

(** ** Texts without digit *)

Lemma matches_head r w g g' :
  matches r w g g' -> forall p, head_class r = Some p ->
  exists c w', w = c :: w' /\ p c = true.
Proof.
  induction 1; intros q Hq; cbn [head_class] in Hq; try discriminate.
  - injection Hq as <-. eauto.
  - destruct (IHmatches1 q Hq) as (c & w' & -> & Hc). exists c, (w' ++ w2). auto.
  - apply IHmatches, Hq.
Qed.

Lemma no_digit_app a b : no_digit (a ++ b) <-> no_digit a /\ no_digit b.
Proof. unfold no_digit. rewrite forallb_app. apply andb_true_iff. Qed.

Lemma no_digit_substring p s : substring p s -> no_digit s -> no_digit p.
Proof.
  intros (a & b & ->) H. apply no_digit_app in H as [_ H].
  apply no_digit_app in H as [H _]. exact H.
Qed.

(** A pattern whose matches begin with a digit finds nothing in a text
    without digit. *)
Lemma search_no_digit r t p :
  head_class r = Some p -> (forall c, p c = true -> is_digit c = true) ->
  no_digit t -> search r t = None.
Proof.
  intros Hr Hp Ht. destruct (search r t) as [m|] eqn:S; [exfalso|reflexivity].
  apply search_sound in S as [E M].
  destruct (matches_head M Hr) as (c & w' & Ew & Hc).
  rewrite E, Ew in Ht. apply no_digit_app in Ht as [_ Ht].
  unfold no_digit in Ht. cbn [app forallb] in Ht.
  rewrite (Hp c Hc) in Ht. discriminate.
Qed.

Lemma upto_five_digit c : (48 <=? c) && (c <=? 53) = true -> is_digit c = true.
Proof.
  intros H. apply andb_prop in H as [H1 H2]. apply N.leb_le in H1, H2.
  apply ascii_digit; lia.
Qed.

Lemma four_five_digit c : (52 <=? c) && (c <=? 53) = true -> is_digit c = true.
Proof.
  intros H. apply andb_prop in H as [H1 H2]. apply N.leb_le in H1, H2.
  apply ascii_digit; lia.
Qed.

(** A text with a digit has a match of the number pattern. *)
Lemma search_number_some t :
  ~ no_digit t -> exists m, search number_re t = Some m.
Proof.
  intros H.
  assert (D : exists pre d post, t = pre ++ [d] ++ post /\ is_digit d = true).
  { induction t as [|c t IH]; [exfalso; apply H; reflexivity|].
    destruct (is_digit c) eqn:C.
    - exists [], c, t. auto.
    - destruct IH as (pre & d & post & -> & Hd).
      + intros N. apply H. unfold no_digit. cbn [forallb]. rewrite C. exact N.
      + exists (c :: pre), d, post. auto. }
  destruct D as (pre & d & post & -> & Hd).
  apply (@search_complete number_re pre [d] post None).
  unfold number_re, Plus, Opt.
  change [d] with (([d] ++ []) ++ [] ++ []).
  apply M_Seq with (g1 := None).
  - apply M_Seq with (g1 := None); [apply M_Chr, Hd | apply M_Star0].
  - apply M_Seq with (g1 := None); [apply M_AltR, M_Eps | apply M_Star0].
Qed.

Lemma search_number_none t : search number_re t = None <-> no_digit t.
Proof.
  split.
  - intros S. destruct (forallb (fun c => negb (is_digit c)) t) eqn:N; [exact N|].
    destruct (@search_number_some t) as [m E]; [|congruence].
    unfold no_digit. congruence.
  - apply (@search_no_digit number_re t is_digit); auto.
Qed.

(** ** The text [extract_number] reads *)

Lemma number_text t :
  replace (u " ") [] (replace (u ",") [] t) = without_separators t.
Proof.
  change (u " ") with [32]. change (u ",") with [44].
  rewrite !replace_chr. unfold without_separators, is_separator.
  induction t as [|c t IH]; [reflexivity|].
  cbn [filter]. unfold chr_eqb at 2. rewrite (N.eqb_sym 44 c).
  destruct (c =? 44) eqn:E1; cbn [negb orb].
  - exact IH.
  - cbn [filter]. unfold chr_eqb at 1. rewrite (N.eqb_sym 32 c).
    destruct (c =? 32); cbn [negb]; [exact IH | rewrite IH; reflexivity].
Qed.

Lemma without_separators_idem t :
  without_separators (without_separators t) = without_separators t.
Proof.
  unfold without_separators. induction t as [|c t IH]; [reflexivity|].
  cbn [filter]. destruct (negb (is_separator c)) eqn:E; [|exact IH].
  cbn [filter]. rewrite E, IH. reflexivity.
Qed.

Lemma without_separators_digits t :
  filter is_digit (without_separators t) = filter is_digit t.
Proof.
  unfold without_separators. induction t as [|c t IH]; [reflexivity|].
  cbn [filter]. destruct (is_separator c) eqn:E; cbn [negb filter].
  - assert (is_digit c = false) as ->; [|exact IH].
    unfold is_separator in E. apply orb_prop in E as [E | E];
      apply N.eqb_eq in E; subst c; reflexivity.
  - rewrite IH. reflexivity.
Qed.

Lemma contains_chr c s : contains [c] s = existsb (chr_eqb c) s.
Proof.
  induction s as [|x s IH]; [reflexivity|].
  cbn [contains startswith existsb]. rewrite andb_true_r, IH. reflexivity.
Qed.

Lemma contains_head c p s : contains (c :: p) s = true -> existsb (chr_eqb c) s = true.
Proof.
  intros H. apply contains_spec in H as (a & b & ->).
  rewrite existsb_app. cbn [app existsb]. unfold chr_eqb at 2. rewrite N.eqb_refl.
  rewrite orb_true_r. reflexivity.
Qed.

Lemma existsb_without_separators c t :
  existsb (chr_eqb c) (without_separators t) = true -> existsb (chr_eqb c) t = true.
Proof.
  unfold without_separators. induction t as [|x t IH]; [discriminate|].
  cbn [filter existsb]. destruct (negb (is_separator x)).
  - cbn [existsb]. destruct (chr_eqb c x); [reflexivity|]. exact IH.
  - intros H. rewrite (IH H). apply orb_true_r.
Qed.

(** ** The number pattern takes a whole numeral *)

Lemma rmatch_number A ip dot fp rest g (k : pystr -> option pystr -> option A) a :
  ip <> [] -> all_digits_p ip -> all_digits_p fp ->
  (dot = [46] /\ stops is_digit rest) \/
  (dot = [] /\ fp = [] /\ stops (fun c => is_digit c || (c =? 46)) rest) ->
  k rest g = Some a ->
  rmatch number_re (ip ++ dot ++ fp ++ rest) g k = Some a.
Proof.
  intros Hne Di Df Hd K. unfold number_re, digit. rewrite rmatch_seq.
  apply rmatch_plus_chr; [exact Hne | exact Di | |].
  - destruct Hd as [[-> _] | (-> & -> & R)]; [reflexivity|].
    cbn [app]. destruct rest as [|c rest]; [exact I|].
    simpl in R |- *. apply orb_false_iff in R as [R _]. exact R.
  - rewrite rmatch_seq. unfold Opt. rewrite rmatch_alt.
    destruct Hd as [[-> R] | (-> & -> & R)].
    + cbn [app]. unfold lit_chr at 1. rewrite rmatch_chr_cons.
      change (chr_eqb 46 46) with true. cbv iota.
      rewrite (@rmatch_star_chr _ is_digit fp rest g k a Df R K). reflexivity.
    + cbn [app].
      assert (N : rmatch (lit_chr 46) rest g
                    (fun s1 g1 => rmatch (Star (Chr is_digit)) s1 g1 k) = None).
      { destruct rest as [|c rest]; [reflexivity|].
        unfold lit_chr. rewrite rmatch_chr_cons. simpl in R.
        apply orb_false_iff in R as [_ R]. unfold chr_eqb.
        rewrite N.eqb_sym, R. reflexivity. }
      rewrite N, rmatch_eps.
      apply (@rmatch_star_chr _ is_digit [] rest g k a); [reflexivity | | exact K].
      destruct rest as [|c rest]; [exact I|]. simpl in R |- *.
      apply orb_false_iff in R as [R _]. exact R.
Qed.

(** The two spellings of a numeral. *)
Lemma numeral_cases w :
  numeral w ->
  exists ip dot fp, w = ip ++ dot ++ fp /\ ip <> [] /\ all_digits_p ip /\ all_digits_p fp /\
                    (dot = [46] \/ (dot = [] /\ fp = [])).
Proof.
  intros (ip & fp & Hne & Di & Df & [-> | ->]).
  - exists ip, [], []. rewrite !app_nil_r. repeat split; auto.
  - exists ip, [46], fp. repeat split; auto.
Qed.

Lemma numeral_nonempty w : numeral w -> w <> [].
Proof.
  intros (ip & fp & H & _ & _ & [-> | ->]); destruct ip; try congruence; discriminate.
Qed.

Lemma match_here_number w rest :
  numeral w -> stops (fun c => is_digit c || (c =? 46)) rest ->
  match_here number_re (w ++ rest) = Some (rest, None).
Proof.
  intros Nw R. destruct (numeral_cases Nw) as (ip & dot & fp & -> & Hne & Di & Df & Hd).
  unfold match_here. rewrite <- !app_assoc.
  apply rmatch_number; auto.
  destruct Hd as [-> | [-> ->]]; [left | right]; repeat split; auto.
  destruct rest as [|c rest]; [exact I|]. simpl in R |- *.
  apply orb_false_iff in R as [R _]. exact R.
Qed.

Lemma search_number_here w rest :
  numeral w -> stops (fun c => is_digit c || (c =? 46)) rest ->
  search number_re (w ++ rest)
  = Some {| m_before := []; m_whole := w; m_group := None; m_after := rest |}.
Proof.
  intros Nw R. rewrite (@search_here number_re (w ++ rest) rest None (@match_here_number w rest Nw R)).
  rewrite firstn_matched. reflexivity.
Qed.

Lemma match_here_k_number w rest :
  numeral w ->
  match_here k_number_re (w ++ 75 :: rest) = Some (rest, Some w).
Proof.
  intros Nw. destruct (numeral_cases Nw) as (ip & dot & fp & -> & Hne & Di & Df & Hd).
  unfold match_here, k_number_re. rewrite rmatch_seq, rmatch_group.
  rewrite <- !app_assoc.
  apply rmatch_number; auto.
  - destruct Hd as [-> | [-> ->]]; [left | right]; repeat split; auto.
  - unfold lit_chr. rewrite rmatch_chr_cons. change (chr_eqb 75 75) with true. cbv iota.
    rewrite !app_assoc. rewrite firstn_matched. reflexivity.
Qed.

Lemma search_k_number_here w rest :
  numeral w ->
  search k_number_re (w ++ 75 :: rest)
  = Some {| m_before := []; m_whole := w ++ [75]; m_group := Some w; m_after := rest |}.
Proof.
  intros Nw. rewrite (@search_here k_number_re (w ++ 75 :: rest) rest (Some w) (@match_here_k_number w rest Nw)).
  replace (w ++ 75 :: rest) with ((w ++ [75]) ++ rest) by (rewrite <- app_assoc; reflexivity).
  rewrite firstn_matched. reflexivity.
Qed.

(** ** Whole numbers convert exactly *)

Lemma float_of_str_digits ds :
  ds <> [] -> all_digits_p ds ->
  float_of_str ds = Ok (rnd (inject_Z (digits_val ds))).
Proof.
  intros Hne D. unfold float_of_str, parse_decimal.
  rewrite (span_digits_all D). destruct ds; [congruence|]. reflexivity.
Qed.

Lemma Qred_inject_Z n : Qred (inject_Z n) = inject_Z n.
Proof.
  unfold Qred, inject_Z. cbn [Qnum Qden].
  pose proof (Z.ggcd_gcd n 1) as G. pose proof (Z.ggcd_correct_divisors n 1) as C.
  destruct (Z.ggcd n 1) as [g [a b]]. cbn [fst snd] in *.
  rewrite Z.gcd_1_r in G. subst g. destruct C as [C1 C2].
  rewrite !Z.mul_1_l in *. subst. reflexivity.
Qed.

Lemma rnd_integer n :
  (0 <= n < 2 ^ 53)%Z -> rnd (inject_Z n) = Finite (inject_Z n).
Proof.
  intros H. rewrite rnd_exact.
  - rewrite Qred_inject_Z. reflexivity.
  - apply integer_on_grid, H.
  - change 0%Q with (inject_Z 0). rewrite <- Zle_Qle. lia.
Qed.

Lemma ten_power_15 : (10 ^ 15 < 2 ^ 53)%Z.
Proof. reflexivity. Qed.

Lemma digits_val_small ds n :
  all_digits_p ds -> (length ds <= n)%nat ->
  (0 <= digits_val ds < 10 ^ Z.of_nat n)%Z.
Proof.
  intros D L. split; [apply digits_val_nonneg, D|].
  eapply Z.lt_le_trans; [apply digits_val_lt, D|].
  apply Z.pow_le_mono_r; lia.
Qed.

Lemma float_of_str_integer ds :
  ds <> [] -> all_digits_p ds -> (length ds <= 15)%nat ->
  float_of_str ds = Ok (Finite (inject_Z (digits_val ds))).
Proof.
  intros Hne D L. rewrite (float_of_str_digits Hne D), rnd_integer; [reflexivity|].
  pose proof (digits_val_small D L) as B. change (Z.of_nat 15) with 15%Z in B.
  pose proof ten_power_15. lia.
Qed.

Lemma kilo_integer n :
  (0 <= n < 10 ^ 12)%Z ->
  int_of_float (fmul (Finite (inject_Z n)) (Finite 1000)) = Ok (n * 1000)%Z.
Proof.
  intros H. cbn [fmul].
  assert (E : (inject_Z n * 1000 == inject_Z (n * 1000))%Q).
  { rewrite inject_Z_mult. reflexivity. }
  assert (G : on_grid (inject_Z n * 1000)).
  { destruct (@integer_on_grid (n * 1000)%Z) as (k & e & Hk & He & Ev).
    - assert (10 ^ 12 * 1000 < 2 ^ 53)%Z by reflexivity. lia.
    - exists k, e. rewrite E. auto. }
  rewrite rnd_exact; [|exact G|].
  - cbn [int_of_float].
    rewrite (Qred_complete _ _ E), Qred_inject_Z. cbn [inject_Z Qnum Qden].
    rewrite Z.quot_1_r. reflexivity.
  - rewrite E. change 0%Q with (inject_Z 0). rewrite <- Zle_Qle. lia.
Qed.

(** ** [extract_number] on a numeral and what follows it *)

Lemma extract_number_kilo_eq t w rest :
  without_separators t = w ++ 75 :: rest -> numeral w ->
  extract_number t
  = (x <- float_of_str w ;; z <- int_of_float (fmul x (Finite 1000)) ;; Ok (Some (PyInt z))).
Proof.
  intros E Nw. unfold extract_number. rewrite number_text, E.
  destruct t as [|c t]; [destruct w; discriminate E|].
  change (negb (nonempty (c :: t))) with false. cbv iota zeta.
  match goal with |- context [contains (u "K") ?s] =>
    assert (C : contains (u "K") s = true)
      by (apply contains_spec; exists w, rest; reflexivity)
  end.
  rewrite C, orb_true_r.
  match goal with |- context [search k_number_re ?s] =>
    replace (search k_number_re s)
      with (Some {| m_before := []; m_whole := w ++ [75];
                    m_group := Some w; m_after := rest |})
      by (symmetry; apply search_k_number_here; exact Nw)
  end.
  reflexivity.
Qed.

Lemma numeral_no_chr w c :
  numeral w -> is_digit c = false -> c <> 46 -> existsb (chr_eqb c) w = false.
Proof.
  intros Nw Hd Hc. destruct (existsb (chr_eqb c) w) eqn:X; [exfalso|reflexivity].
  apply existsb_exists in X as (x & Hin & Hx). apply N.eqb_eq in Hx. subst x.
  destruct Nw as (ip & fp & _ & Di & Df & Hw).
  unfold all_digits_p in Di, Df. rewrite forallb_forall in Di, Df.
  destruct Hw as [-> | ->].
  - apply Di in Hin. congruence.
  - apply in_app_or in Hin as [I | [I | I]]; [apply Di in I | | apply Df in I]; congruence.
Qed.

Lemma extract_number_plain_eq t w rest :
  without_separators t = w ++ rest -> numeral w ->
  stops (fun c => is_digit c || (c =? 46)) rest ->
  existsb (chr_eqb 75) rest = false ->
  extract_number t = (x <- float_of_str w ;; Ok (Some (PyFloat x))).
Proof.
  intros E Nw R NK. unfold extract_number. rewrite number_text, E.
  destruct t as [|c t].
  { destruct w; [exfalso; apply (numeral_nonempty Nw); reflexivity | discriminate E]. }
  change (negb (nonempty (c :: t))) with false. cbv iota zeta.
  assert (NKw : existsb (chr_eqb 75) (w ++ rest) = false).
  { rewrite existsb_app, NK, orb_false_r.
    apply (numeral_no_chr Nw); [reflexivity | discriminate]. }
  assert (C1 : contains (u "K+") (w ++ rest) = false).
  { destruct (contains (u "K+") (w ++ rest)) eqn:C; [|reflexivity].
    change (u "K+") with [75; 43] in C. apply contains_head in C.
    rewrite NKw in C. discriminate C. }
  assert (C2 : contains (u "K") (w ++ rest) = false).
  { change (u "K") with [75]. rewrite contains_chr. exact NKw. }
  match goal with |- context [contains (u "K+") ?s] => change s with (w ++ rest) end.
  rewrite C1, C2. cbn [orb]. rewrite (@search_number_here w rest Nw R). reflexivity.
Qed.

Lemma int_of_float_integer n : int_of_float (Finite (inject_Z n)) = Ok n.
Proof. cbn [int_of_float inject_Z Qnum Qden]. rewrite Z.quot_1_r. reflexivity. Qed.

(** ** The text [extract_price_from_text] reads *)

Lemma price_text_digits t :
  filter is_digit
    (strip (replace (u ",") [] (replace (u "Rs") [] (replace (u "Rs.") [] t))))
  = filter is_digit t.
Proof.
  rewrite strip_keeps by apply digit_not_space.
  rewrite !replace_keeps; reflexivity || discriminate.
Qed.

Lemma numeral_chars w c :
  numeral w -> In c w -> is_digit c = true \/ c = 46.
Proof.
  intros (ip & fp & _ & Di & Df & Hw) Hin.
  unfold all_digits_p in Di, Df. rewrite forallb_forall in Di, Df.
  destruct Hw as [-> | ->]; [left; apply Di, Hin|].
  apply in_app_or in Hin as [I | [I | I]]; auto.
Qed.

Lemma numeral_no_space w : numeral w -> no_space w.
Proof.
  intros Nw. unfold no_space. apply forallb_forall. intros c Hin.
  apply negb_true_iff.
  destruct (@numeral_chars w c Nw Hin) as [D | ->]; [apply digit_not_space, D | reflexivity].
Qed.

Lemma strip_plain w : no_space w -> strip w = w.
Proof.
  intros H. unfold strip. rewrite lstrip_fixed.
  - apply rstrip_plain, H.
  - destruct w as [|c w]; [exact I|]. unfold no_space in H. simpl in H |- *.
    apply andb_prop in H as [H _]. apply negb_true_iff, H.
Qed.

(** A numeral written with thousands separators loses them. *)
Lemma price_text_grouped p :
  numeral (without_commas p) ->
  strip (replace (u ",") [] (replace (u "Rs") [] (replace (u "Rs.") [] p)))
  = without_commas p.
Proof.
  intros Nw. unfold without_commas in *.
  assert (NR : forallb (fun x => negb (chr_eqb 82 x)) p = true).
  { apply forallb_forall. intros c Hin. apply negb_true_iff.
    destruct (chr_eqb 82 c) eqn:E; [exfalso|reflexivity].
    apply N.eqb_eq in E. subst c.
    assert (In 82 (filter (fun c => negb (chr_eqb 44 c)) p)) as I
      by (apply filter_In; split; [exact Hin | reflexivity]).
    destruct (@numeral_chars _ 82 Nw I) as [D | D]; discriminate D. }
  rewrite (@replace_absent (u "Rs.") [] p 82 (u "s.") eq_refl NR).
  rewrite (@replace_absent (u "Rs") [] p 82 (u "s") eq_refl NR).
  change (u ",") with [44]. rewrite replace_chr.
  apply strip_plain, numeral_no_space, Nw.
Qed.

(** ** Prices are binary64 values *)

Lemma float_of_str_binary64 w x : float_of_str w = Ok x -> is_binary64 x.
Proof.
  unfold float_of_str. destruct (parse_decimal w) as [q|] eqn:P; [|discriminate].
  intros E. injection E as <-. apply parse_decimal_nonneg in P.
  destruct (rnd q) as [v|s|] eqn:R; cbn [is_binary64]; auto.
  apply (@rnd_on_grid q v P R).
Qed.

Lemma extract_price_binary64 t x :
  extract_price_from_text t = Ok (Some x) -> is_binary64 x.
Proof.
  unfold extract_price_from_text. destruct (negb (nonempty t)); [discriminate|].
  destruct (search number_re _) as [m|]; [|discriminate].
  destruct (float_of_str (m_whole m)) as [y|e] eqn:F; [|discriminate].
  cbn [bind]. intros E. injection E as <-. apply (@float_of_str_binary64 (m_whole m) y F).
Qed.

Lemma mapM_inv A B (f : A -> result B) : forall l bs,
  mapM f l = Ok bs -> Forall2 (fun a b => f a = Ok b) l bs.
Proof.
  induction l as [|a l IH]; intros bs H; cbn [mapM] in H.
  - injection H as <-. constructor.
  - destruct (f a) as [b|e] eqn:F; [|discriminate]. cbn [bind] in H.
    destruct (mapM f l) as [bs'|e] eqn:M; [|discriminate]. cbn [bind] in H.
    injection H as <-. constructor; [exact F | apply IH; reflexivity].
Qed.

Lemma parse_prices_binary64 t ps :
  parse_prices t = Ok ps -> Forall is_binary64 ps.
Proof.
  unfold parse_prices.
  destruct (mapM extract_price_from_text _) as [vs|e] eqn:M; [|discriminate].
  cbn [bind]. intros E. injection E as <-.
  apply mapM_inv in M. induction M as [|a v l vs F _ IH]; [constructor|].
  cbn [flat_map]. apply Forall_app. split; [|exact IH].
  destruct v as [x|]; cbn [positive_price]; [|constructor].
  destruct (ftruth x && fgt x (Finite 0)); constructor; [|constructor].
  apply (@extract_price_binary64 a x F).
Qed.

(** ** The discount is a percentage *)

Lemma hundred_on_grid : on_grid 100.
Proof.
  exists (100 * 2 ^ 46)%Z, 6%Z. split; [split; [lia | reflexivity]|].
  split; [lia|]. reflexivity.
Qed.

Lemma one_on_grid : on_grid 1.
Proof. apply (@integer_on_grid 1). split; [lia | reflexivity]. Qed.

Lemma positive_cases x :
  positive x -> (exists q, x = Finite q /\ (0 < q)%Q) \/ x = Infinity false.
Proof.
  unfold positive. destruct x as [q|s|]; cbn [fgt]; intros H.
  - left. exists q. split; [reflexivity|]. apply Qnot_le_lt. intros L.
    apply Qle_bool_iff in L. rewrite L in H. discriminate.
  - right. destruct s; [discriminate | reflexivity].
  - discriminate.
Qed.

Lemma compute_discount_range c o d :
  positive c -> positive o -> is_binary64 o ->
  compute_discount (Some c) (Some o) = Ok d ->
  d = PyInt 0 \/
  (exists q, d = PyFloat (Finite q) /\ (0 <= q)%Q /\ (q <= 100)%Q) \/
  (d = PyFloat NaN /\ o = Infinity false).
Proof.
  intros Pc Po Go. unfold compute_discount.
  rewrite (positive_truth Po), (positive_truth Pc). cbn [andb].
  destruct (fgt o c) eqn:G; [|intros E; injection E as <-; left; reflexivity].
  destruct (positive_cases Po) as [(qo & -> & Ho) | ->];
    destruct (positive_cases Pc) as [(qc & -> & Hc) | ->]; cbn [fgt] in G; try discriminate.
  - (* both finite *)
    assert (Lt : (qc < qo)%Q).
    { apply Qnot_le_lt. intros L. apply Qle_bool_iff in L. rewrite L in G. discriminate. }
    cbn [fsub].
    destruct (@rnd_le_grid qo (qo - qc) Go) as (d1 & E1 & H1 & L1).
    { apply (Qplus_le_l _ _ qc). ring_simplify. apply Qlt_le_weak, Lt. }
    { apply (Qplus_le_l _ _ qc). ring_simplify.
      rewrite <- (Qplus_0_r qo) at 1. apply Qplus_le_r. apply Qlt_le_weak, Hc. }
    rewrite E1. cbn [fdiv].
    assert (Z : is_zero qo = false).
    { unfold is_zero. destruct (Qeq_bool qo 0) eqn:Q; [|reflexivity].
      apply Qeq_bool_iff in Q. rewrite Q in Ho. discriminate Ho. }
    rewrite Z. cbn [bind].
    destruct (@rnd_le_grid 1 (d1 / qo) one_on_grid) as (d2 & E2 & H2 & L2).
    { apply Qle_shift_div_l; [exact Ho|]. rewrite Qmult_0_l. exact H1. }
    { apply Qle_shift_div_r; [exact Ho|]. rewrite Qmult_1_l. exact L1. }
    rewrite E2. cbn [fmul].
    destruct (@rnd_le_grid 100 (d2 * 100) hundred_on_grid) as (d3 & E3 & H3 & L3).
    { apply Qmult_le_0_compat; [exact H2 | discriminate]. }
    { rewrite <- (Qmult_1_l 100) at 2. apply Qmult_le_compat_r; [exact L2 | discriminate]. }
    rewrite E3. cbn [round2].
    destruct (@rnd_le_grid 100 (inject_Z (round_half_even (d3 * 100)) / 100) hundred_on_grid)
      as (d4 & E4 & H4 & L4).
    { apply Qle_shift_div_l; [reflexivity|]. rewrite Qmult_0_l.
      change 0%Q with (inject_Z 0). rewrite <- Zle_Qle. apply round_half_even_nonneg.
      apply Qmult_le_0_compat; [exact H3 | discriminate]. }
    { apply Qle_shift_div_r; [reflexivity|].
      change (100 * 100)%Q with (inject_Z 10000). rewrite <- Zle_Qle.
      apply round_half_even_le. change (inject_Z 10000) with (100 * 100)%Q.
      apply Qmult_le_compat_r; [exact L3 | discriminate]. }
    rewrite E4. intros E. injection E as <-. right. left. exists d4. auto.
  - (* the original price overflowed *)
    cbn [fsub fdiv is_neg xorb bind fmul round2]. intros E. injection E as <-.
    right. right. split; reflexivity.
Qed.

(** ** The shape of a cleaned title *)

Lemma words_from_words s : forall cur,
  no_space cur -> Forall is_word (words_from cur s).
Proof.
  induction s as [|c s IH]; intros cur Hc; cbn [words_from].
  - destruct cur as [|x cur]; [constructor|]. constructor; [|constructor].
    split; [|unfold no_space; rewrite forallb_rev; exact Hc].
    intros E. apply (f_equal (@length _)) in E. rewrite length_rev in E. discriminate E.
  - destruct (isspace c) eqn:C.
    + destruct cur as [|x cur]; [apply IH; reflexivity|].
      constructor; [|apply IH; reflexivity].
      split; [|unfold no_space; rewrite forallb_rev; exact Hc].
      intros E. apply (f_equal (@length _)) in E. rewrite length_rev in E. discriminate E.
    + apply IH. unfold no_space in *. cbn [forallb]. rewrite C. exact Hc.
Qed.

Lemma words_are_words s : Forall is_word (words s).
Proof. apply words_from_words. reflexivity. Qed.

Lemma word_starts w : is_word w -> starts_nonspace w /\ rstrip w = w.
Proof.
  intros [Hne Hw]. split; [|apply rstrip_plain, Hw].
  destruct w as [|c w]; [congruence|]. unfold no_space in Hw. simpl in Hw |- *.
  apply andb_prop in Hw as [Hw _]. apply negb_true_iff, Hw.
Qed.

Lemma join_blank_cons w ws :
  ws <> [] -> join_blank (w :: ws) = w ++ 32 :: join_blank ws.
Proof. destruct ws; [congruence | reflexivity]. Qed.

Lemma join_blank_starts ws :
  Forall is_word ws -> starts_nonspace (join_blank ws) /\ (ws <> [] -> join_blank ws <> []).
Proof.
  intros F. destruct F as [|w ws Hw F]; [split; [exact I | congruence]|].
  destruct (word_starts Hw) as [S _]. destruct Hw as [Hne _].
  destruct ws as [|w' ws]; cbn [join_blank].
  - split; [exact S | auto].
  - destruct w as [|c w]; [congruence|]. split; [exact S | discriminate].
Qed.

(** The words of a text joined by blanks are its words again. *)
Lemma words_join_blank ws : Forall is_word ws -> words (join_blank ws) = ws.
Proof.
  induction 1 as [|w ws Hw F IH]; [reflexivity|].
  destruct Hw as [Hne Hw].
  destruct ws as [|w' ws]; [apply words_plain; assumption|].
  rewrite join_blank_cons by discriminate.
  change (w ++ 32 :: join_blank (w' :: ws)) with (w ++ [32] ++ join_blank (w' :: ws)).
  rewrite words_decomposed; [rewrite IH; reflexivity | | | discriminate | reflexivity];
    assumption.
Qed.

Lemma collapsed_idem s : collapsed (collapsed s) = collapsed s.
Proof. unfold collapsed. rewrite words_join_blank; [reflexivity | apply words_are_words]. Qed.

Lemma join_blank_spaces ws c :
  Forall is_word ws -> In c (join_blank ws) -> isspace c = true -> c = 32.
Proof.
  induction 1 as [|w ws [_ Hw] F IH]; [contradiction|].
  intros Hin Hc.
  assert (Nw : In c w -> False).
  { intros I. unfold no_space in Hw. rewrite forallb_forall in Hw.
    apply Hw in I. rewrite Hc in I. discriminate I. }
  destruct ws as [|w' ws]; [exfalso; exact (Nw Hin)|].
  rewrite join_blank_cons in Hin by discriminate.
  apply in_app_or in Hin as [I | [I | I]]; [exfalso; exact (Nw I) | auto | auto].
Qed.

Lemma contains_blanks_word w x :
  no_space w -> starts_nonspace x ->
  contains [32; 32] (w ++ 32 :: x) = contains [32; 32] x.
Proof.
  intros Hw Hx. unfold no_space in Hw. induction w as [|c w IH].
  - cbn [app contains startswith]. change (chr_eqb 32 32) with true. cbn [andb].
    destruct x as [|d x]; [reflexivity|]. simpl in Hx.
    assert (chr_eqb 32 d = false) as ->; [|reflexivity].
    destruct (chr_eqb 32 d) eqn:E; [|reflexivity]. apply N.eqb_eq in E. subst d.
    discriminate Hx.
  - cbn [forallb] in Hw. apply andb_prop in Hw as [Hc Hw].
    cbn [app contains startswith].
    assert (chr_eqb 32 c = false) as ->; [|exact (IH Hw)].
    destruct (chr_eqb 32 c) eqn:E; [|reflexivity]. apply N.eqb_eq in E. subst c.
    discriminate Hc.
Qed.

Lemma contains_blanks_plain w : no_space w -> contains [32; 32] w = false.
Proof.
  unfold no_space. induction w as [|c w IH]; intros Hw; [reflexivity|].
  cbn [forallb] in Hw. apply andb_prop in Hw as [Hc Hw].
  cbn [contains startswith].
  assert (chr_eqb 32 c = false) as ->; [|exact (IH Hw)].
  destruct (chr_eqb 32 c) eqn:E; [|reflexivity]. apply N.eqb_eq in E. subst c.
  discriminate Hc.
Qed.

Lemma join_blank_single_spaced ws :
  Forall is_word ws -> contains [32; 32] (join_blank ws) = false.
Proof.
  induction 1 as [|w ws [Hne Hw] F IH]; [reflexivity|].
  destruct ws as [|w' ws]; [apply contains_blanks_plain, Hw|].
  rewrite join_blank_cons by discriminate.
  rewrite contains_blanks_word; [exact IH | exact Hw |].
  apply join_blank_starts, F.
Qed.

Lemma join_blank_stripped ws : Forall is_word ws -> strip (join_blank ws) = join_blank ws.
Proof.
  intros F. unfold strip. rewrite lstrip_fixed by apply (join_blank_starts F).
  induction F as [|w ws Hw F IH]; [reflexivity|].
  destruct ws as [|w' ws]; [apply (word_starts Hw)|].
  rewrite join_blank_cons by discriminate.
  change (w ++ 32 :: join_blank (w' :: ws)) with (w ++ [32] ++ join_blank (w' :: ws)).
  rewrite !app_assoc. rewrite rstrip_app; [rewrite IH; reflexivity|].
  rewrite IH. apply (join_blank_starts F). discriminate.
Qed.

(** ** Texts inside texts *)

Lemma substring_refl s : substring s s.
Proof. exists [], []. rewrite app_nil_r. reflexivity. Qed.

Lemma substring_trans a b c : substring a b -> substring b c -> substring a c.
Proof.
  intros (x & y & ->) (x' & y' & ->). exists (x' ++ x), (y ++ y').
  rewrite <- !app_assoc. reflexivity.
Qed.

Lemma substring_concat (x : pystr) l : In x l -> substring x (concat l).
Proof.
  intros H. apply in_split in H as (l1 & l2 & ->).
  exists (concat l1), (concat l2). rewrite concat_app. reflexivity.
Qed.

Lemma child_text nm attrs contents c :
  In c contents -> substring (get_text c) (get_text (Tag nm attrs contents)).
Proof.
  intros H. cbn [get_text]. apply substring_concat, in_map, H.
Qed.

(** The text of a node is part of the text of each of its parents. *)
Lemma descendants_text n : forall parents e,
  In e (descendants parents n) ->
  (forall p, In p parents -> substring (get_text n) (get_text p)) ->
  forall p, In p (el_parents e) -> substring (get_text (el_node e)) (get_text p).
Proof.
  induction n as [s|s|nm attrs contents IH] using node_induction;
    intros parents e He Hp p Hin; try contradiction.
  cbn [descendants] in He. apply in_flat_map in He as (c & Hc & He).
  assert (Up : forall q, In q (Tag nm attrs contents :: parents) ->
                         substring (get_text c) (get_text q)).
  { intros q [<- | Hq]; [apply child_text, Hc|].
    eapply substring_trans; [apply (child_text nm attrs _ _ Hc) | apply Hp, Hq]. }
  destruct He as [<- | He].
  - cbn [el_node el_parents] in *. apply Up, Hin.
  - rewrite Forall_forall in IH. apply (IH c Hc _ e He Up p Hin).
Qed.

Lemma container_in_parents link p :
  container link = Some p -> In p (el_parents link).
Proof.
  unfold container. destruct (climb (el_parents link)) as [q|] eqn:C.
  - intros E. injection E as <-. apply climb_some in C as (below & above & -> & _).
    apply in_or_app. right. left. reflexivity.
  - unfold find_parent. destruct (el_parents link) as [|q above]; [discriminate|].
    intros E. injection E as <-. left. reflexivity.
Qed.

(** ** Records and links *)

Lemma emitted_accepted lim link :
  emitted lim link
  = match process_link lim link with Ok (Some r) => [r] | _ => [] end.
Proof. unfold emitted. destruct (process_link lim link) as [[r|]|e]; reflexivity. Qed.

Lemma flat_map_emitted lim links :
  Forall2 (fun link r => process_link lim link = Ok (Some r))
          (filter (accepted lim) links) (flat_map (emitted lim) links) /\
  (length (flat_map (emitted lim) links) <= length links)%nat.
Proof.
  induction links as [|link links [IH1 IH2]]; [split; [constructor | reflexivity]|].
  cbn [filter flat_map]. unfold accepted, emitted at 1 3.
  destruct (process_link lim link) as [[r|]|e] eqn:E; cbn [app length].
  - split; [constructor; assumption | lia].
  - split; [assumption | lia].
  - split; [assumption | lia].
Qed.

Lemma filter_length_le A (f : A -> bool) l : (length (filter f l) <= length l)%nat.
Proof.
  induction l as [|a l IH]; [reflexivity|]. cbn [filter].
  destruct (f a); cbn [length]; lia.
Qed.

(** ** The captured group lies inside the match *)

Lemma matches_group_inside r w g g' :
  matches r w g g' -> g' = g \/ exists n, g' = Some n /\ substring n w.
Proof.
  induction 1.
  - left. reflexivity.
  - left. reflexivity.
  - destruct IHmatches2 as [-> | (n & -> & (a & b & ->))].
    + destruct IHmatches1 as [-> | (n & -> & (a & b & ->))]; [left; reflexivity|].
      right. exists n. split; [reflexivity|]. exists a, (b ++ w2).
      rewrite <- !app_assoc. reflexivity.
    + right. exists n. split; [reflexivity|]. exists (w1 ++ a), b.
      rewrite <- !app_assoc. reflexivity.
  - exact IHmatches.
  - exact IHmatches.
  - left. reflexivity.
  - destruct IHmatches2 as [-> | (n & -> & (a & b & ->))].
    + destruct IHmatches1 as [-> | (n & -> & (a & b & ->))]; [left; reflexivity|].
      right. exists n. split; [reflexivity|]. exists a, (b ++ w2).
      rewrite <- !app_assoc. reflexivity.
    + right. exists n. split; [reflexivity|]. exists (w1 ++ a), b.
      rewrite <- !app_assoc. reflexivity.
  - right. exists w. split; [reflexivity | apply substring_refl].
Qed.

Lemma group1_inside r w g : matches r w None g ->
  substring (match g with Some n => n | None => [] end) w.
Proof.
  intros M. destruct (matches_group_inside M) as [-> | (n & -> & S)]; [|exact S].
  exists [], w. reflexivity.
Qed.

Lemma findall_inside r s g : In g (findall r s) -> substring g s.
Proof.
  unfold findall, finditer. intros H. apply in_map_iff in H as (m & <- & Hm).
  apply finditer_fuel_sound in Hm as [S M].
  eapply substring_trans; [|exact S]. unfold group1. apply (group1_inside M).
Qed.

(** ** A container without digit *)

Lemma extract_price_none t : no_digit t -> extract_price_from_text t = Ok None.
Proof.
  intros H. unfold extract_price_from_text. destruct (negb (nonempty t)); [reflexivity|].
  cbv zeta.
  assert (S : search number_re
                (strip (replace (u ",") [] (replace (u "Rs") [] (replace (u "Rs.") [] t))))
              = None).
  { apply search_number_none, no_digit_filter. rewrite price_text_digits.
    apply no_digit_filter, H. }
  rewrite S. reflexivity.
Qed.

Lemma mapM_none A B (f : A -> result (option B)) l :
  (forall a, In a l -> f a = Ok None) -> mapM f l = Ok (map (fun _ => None) l).
Proof.
  induction l as [|a l IH]; intros H; [reflexivity|].
  cbn [mapM map]. rewrite (H a (or_introl eq_refl)). cbn [bind].
  rewrite IH by (intros b Hb; apply H; right; exact Hb). reflexivity.
Qed.

Lemma parse_prices_no_digit t : no_digit t -> parse_prices t = Ok [].
Proof.
  intros H. unfold parse_prices.
  rewrite (@mapM_none _ _ extract_price_from_text).
  - cbn [bind]. f_equal. induction (filter nonempty (findall price_re t)); auto.
  - intros g Hg. apply filter_In in Hg as [Hg _]. apply extract_price_none.
    apply (no_digit_substring (findall_inside _ _ _ Hg) H).
Qed.

(** ** The product id *)

Lemma span_digits_span s : span_digits s = span is_digit s.
Proof.
  induction s as [|c s IH]; [reflexivity|]. cbn [span_digits span].
  rewrite IH. reflexivity.
Qed.

Lemma match_here_product_id s :
  match_here product_id_re s
  = if startswith (u "-g-") s
    then match fst (span is_digit (skipn 3 s)) with
         | [] => None
         | ds => Some (snd (span is_digit (skipn 3 s)), Some ds)
         end
    else None.
Proof.
  unfold match_here, product_id_re. rewrite rmatch_seq, rmatch_lit.
  destruct (startswith (u "-g-") s); [|reflexivity].
  change (length (u "-g-")) with 3%nat. set (s1 := skipn 3 s).
  rewrite rmatch_group. unfold digit.
  destruct (span_spec is_digit s1) as (E & D & R).
  destruct (fst (span is_digit s1)) as [|d ds] eqn:F.
  - apply rmatch_plus_chr_none. cbn [app] in E. rewrite E. exact R.
  - rewrite E at 1.
    rewrite (@rmatch_plus_chr _ is_digit (d :: ds) (snd (span is_digit s1)) None _
               (snd (span is_digit s1), Some (d :: ds))); auto; [discriminate|].
    rewrite (firstn_matched_eq (d :: ds) (snd (span is_digit s1)) E). reflexivity.
Qed.

Lemma match_here_product_id_some s rest g :
  match_here product_id_re s = Some (rest, g) ->
  exists ds, g = Some ds /\ s = u "-g-" ++ ds ++ rest /\
             ds <> [] /\ all_digits_p ds /\ stops is_digit rest.
Proof.
  rewrite match_here_product_id. destruct (startswith (u "-g-") s) eqn:S; [|discriminate].
  apply startswith_spec in S as [b ->].
  change (skipn 3 (u "-g-" ++ b)) with b.
  destruct (span_spec is_digit b) as (E & D & R).
  destruct (fst (span is_digit b)) as [|d ds] eqn:F; [discriminate|].
  intros H. injection H as <- <-. exists (d :: ds).
  split; [reflexivity|]. split; [rewrite E at 1; reflexivity|].
  split; [discriminate|]. split; [exact D | exact R].
Qed.

Lemma match_here_product_id_none s :
  match_here product_id_re s = None <-> ~ id_marker_at s.
Proof.
  rewrite match_here_product_id. split.
  - intros H (d & rest & -> & Hd).
    change (startswith (u "-g-") (u "-g-" ++ d :: rest)) with true in H.
    change (skipn 3 (u "-g-" ++ d :: rest)) with (d :: rest) in H.
    cbn [span] in H. rewrite Hd in H.
    destruct (span is_digit rest) as [a b]. discriminate H.
  - intros H. destruct (startswith (u "-g-") s) eqn:S; [|reflexivity].
    apply startswith_spec in S as [b ->].
    change (skipn 3 (u "-g-" ++ b)) with b.
    destruct b as [|d rest]; [reflexivity|]. cbn [span].
    destruct (is_digit d) eqn:Hd; [|reflexivity].
    exfalso. apply H. exists d, rest. auto.
Qed.

(** ** Prices with their marker *)

Lemma replace_from_skip old new x : forall s,
  replace_from old new (length x) (x ++ s) = replace_from old new 0 s.
Proof. induction x as [|c x IH]; intros s; [reflexivity|]. destruct s; apply IH. Qed.

Lemma replace_prefix old s : old <> [] -> replace old [] (old ++ s) = replace old [] s.
Proof.
  intros Hne. destruct old as [|c old]; [congruence|].
  unfold replace. cbn [app replace_from].
  assert (S : startswith (c :: old) (c :: old ++ s) = true).
  { apply startswith_spec. exists s. reflexivity. }
  rewrite S. cbn [app length]. rewrite Nat.sub_succ, Nat.sub_0_r.
  apply replace_from_skip.
Qed.

Lemma replace_cons old new c s :
  startswith old (c :: s) = false ->
  replace old new (c :: s) = c :: replace old new s.
Proof. intros H. unfold replace. cbn [replace_from]. rewrite H. reflexivity. Qed.

Lemma all_space_no_chr ws c :
  isspace c = false -> all_space ws -> forallb (fun x => negb (chr_eqb c x)) ws = true.
Proof.
  intros Hc A. unfold all_space in A. rewrite forallb_forall in *.
  intros x Hx. apply negb_true_iff. destruct (chr_eqb c x) eqn:E; [|reflexivity].
  apply N.eqb_eq in E. subst x. apply A in Hx. congruence.
Qed.

Lemma filter_id A (f : A -> bool) l : forallb f l = true -> filter f l = l.
Proof.
  induction l as [|a l IH]; [reflexivity|]. cbn [forallb filter].
  intros H. apply andb_prop in H as [Ha H]. rewrite Ha, IH by exact H. reflexivity.
Qed.

Lemma grouped_numeral_chars p c :
  numeral (without_commas p) -> In c p -> is_digit c = true \/ c = 46 \/ c = 44.
Proof.
  intros Nw Hin. destruct (chr_eqb 44 c) eqn:E.
  - apply N.eqb_eq in E. auto.
  - assert (In c (without_commas p)) as I
      by (apply filter_In; split; [exact Hin | rewrite E; reflexivity]).
    destruct (@numeral_chars _ c Nw I); auto.
Qed.

Lemma grouped_numeral_no_chr p c :
  numeral (without_commas p) -> is_digit c = false -> c <> 46 -> c <> 44 ->
  forallb (fun x => negb (chr_eqb c x)) p = true.
Proof.
  intros Nw Hd H1 H2. apply forallb_forall. intros x Hx. apply negb_true_iff.
  destruct (chr_eqb c x) eqn:E; [|reflexivity]. apply N.eqb_eq in E. subst x.
  destruct (@grouped_numeral_chars p c Nw Hx) as [D | [D | D]]; congruence.
Qed.

Lemma grouped_numeral_head p :
  numeral (without_commas p) ->
  exists c p', p = c :: p' /\ (is_digit c = true \/ c = 44).
Proof.
  intros Nw. destruct p as [|c p']; [exfalso; apply (numeral_nonempty Nw); reflexivity|].
  exists c, p'. split; [reflexivity|].
  destruct (@grouped_numeral_chars (c :: p') c Nw (or_introl eq_refl)) as [D | [D | D]]; auto.
  exfalso. subst c. unfold without_commas in Nw. cbn [filter] in Nw.
  change (negb (chr_eqb 44 46)) with true in Nw. cbv iota in Nw.
  destruct Nw as (ip & fp & Hne & Di & _ & [E | E]);
    (destruct ip as [|d ip]; [congruence|]); injection E as <- _;
    unfold all_digits_p in Di; simpl in Di; discriminate Di.
Qed.

(** The text read for a price written as marker, blanks and a numeral
    with thousands separators. *)
Lemma price_text_marked prefix ws p :
  prefix = [] \/ prefix = u "Rs." \/ prefix = u "Rs" ->
  all_space ws -> numeral (without_commas p) ->
  strip (replace (u ",") []
           (replace (u "Rs") [] (replace (u "Rs.") [] (prefix ++ ws ++ p))))
  = without_commas p.
Proof.
  intros Hp A Nw.
  assert (NR : forallb (fun x => negb (chr_eqb 82 x)) (ws ++ p) = true).
  { rewrite forallb_app. apply andb_true_intro. split.
    - apply all_space_no_chr; [reflexivity | exact A].
    - apply grouped_numeral_no_chr; [exact Nw | reflexivity | discriminate | discriminate]. }
  assert (E : replace (u "Rs") [] (replace (u "Rs.") [] (prefix ++ ws ++ p)) = ws ++ p).
  { destruct Hp as [-> | [-> | ->]].
    - cbn [app].
      rewrite (@replace_absent (u "Rs.") [] (ws ++ p) 82 (u "s.") eq_refl NR).
      apply (@replace_absent (u "Rs") [] (ws ++ p) 82 (u "s") eq_refl NR).
    - rewrite replace_prefix by discriminate.
      rewrite (@replace_absent (u "Rs.") [] (ws ++ p) 82 (u "s.") eq_refl NR).
      apply (@replace_absent (u "Rs") [] (ws ++ p) 82 (u "s") eq_refl NR).
    - assert (Hd : startswith (u "Rs.") (u "Rs" ++ ws ++ p) = false).
      { change (startswith (u "Rs.") (u "Rs" ++ ws ++ p))
          with (startswith [46] (ws ++ p)).
        destruct ws as [|c ws].
        - destruct (@grouped_numeral_head p Nw) as (c & p' & -> & [D | ->]); cbn [app startswith].
          + destruct (chr_eqb 46 c) eqn:X; [|reflexivity].
            apply N.eqb_eq in X. subst c. discriminate D.
          + reflexivity.
        - unfold all_space in A. cbn [forallb] in A. apply andb_prop in A as [Ac _].
          cbn [app startswith]. destruct (chr_eqb 46 c) eqn:X; [|reflexivity].
          apply N.eqb_eq in X. subst c. discriminate Ac. }
      assert (E1 : replace (u "Rs.") [] (u "Rs" ++ ws ++ p) = u "Rs" ++ ws ++ p).
      { etransitivity; [apply replace_cons; exact Hd|].
        apply (f_equal (cons 82)).
        apply (@replace_absent (u "Rs.") [] (115 :: ws ++ p) 82 (u "s.") eq_refl).
        cbn [forallb]. rewrite NR. reflexivity. }
      rewrite E1, replace_prefix by discriminate.
      apply (@replace_absent (u "Rs") [] (ws ++ p) 82 (u "s") eq_refl NR). }
  rewrite E. change (u ",") with [44]. rewrite replace_chr, filter_app.
  rewrite (@filter_id _ _ ws (@all_space_no_chr ws 44 eq_refl A)).
  fold (without_commas p). unfold strip.
  assert (Np : no_space (without_commas p)) by apply numeral_no_space, Nw.
  rewrite lstrip_run; [apply rstrip_plain, Np | exact A |].
  destruct (without_commas p) as [|c w]; [exact I|].
  unfold no_space in Np. simpl in Np |- *. apply andb_prop in Np as [Np _].
  apply negb_true_iff, Np.
Qed.

Lemma matches_price_marker w g g' :
  matches price_re w g g' -> exists rest, w = u "Rs" ++ rest.
Proof.
  unfold price_re. intros M. apply matches_seq_inv in M as (w1 & w2 & g1 & -> & M1 & _).
  apply matches_lit in M1 as [-> _]. exists w2. reflexivity.
Qed.

Lemma search_price_marker t :
  ~ substring (u "Rs") t -> search price_re t = None.
Proof.
  intros H. destruct (search price_re t) as [m|] eqn:S; [exfalso|reflexivity].
  apply search_sound in S as [E M]. apply matches_price_marker in M as [rest Ew].
  apply H. exists (m_before m), (rest ++ m_after m).
  rewrite E, Ew, <- !app_assoc. reflexivity.
Qed.

Lemma parse_prices_no_marker t : ~ substring (u "Rs") t -> parse_prices t = Ok [].
Proof.
  intros H. unfold parse_prices, findall, finditer. cbn [finditer_fuel].
  rewrite (@search_price_marker t H). reflexivity.
Qed.

(** ** The sold count *)

Lemma ci_k_cases c : ci_eqb 107 c = true -> c = 107 \/ c = 75 \/ c = 8490.
Proof.
  unfold ci_eqb. change (107 =? 105) with false. change (107 =? 115) with false.
  change (107 =? 107) with true. change (107 - 32) with 75.
  cbn [andb orb]. rewrite !orb_false_r. intros H.
  apply orb_prop in H as [H | H]; [apply orb_prop in H as [H | H]|];
    apply N.eqb_eq in H; auto.
Qed.

(** What the sold pattern captures: a numeral, then maybe a [k] in
    either case or the Kelvin sign, then maybe a plus. *)
Lemma matches_sold w g' :
  matches sold_re w None g' ->
  exists n k p, g' = Some (n ++ k ++ p) /\ numeral n /\
                (k = [] \/ exists c, k = [c] /\ ci_eqb 107 c = true) /\
                (p = [] \/ p = [43]).
Proof.
  unfold sold_re. intros M. inv M.
  match goal with M : matches (Seq (Star space) _) _ _ _ |- _ =>
    apply matches_groupless in M; [subst | reflexivity] end.
  match goal with M : matches (Group _) _ _ _ |- _ => inv M end.
  unfold Plus, Opt, digit, lit_chr in *. inv_matches.
  all: match goal with
       | |- exists n k p, Some (([?c] ++ ?ds1) ++ ?dot ++ ?ds2 ++ ?k0 ++ ?p0) = _ /\ _ =>
           exists (([c] ++ ds1) ++ dot ++ ds2), k0, p0
       end.
  all: split; [rewrite <- !app_assoc; reflexivity|].
  all: split; [apply numeral_intro; auto|].
  all: split; [eauto | auto].
Qed.

Lemma without_separators_id t :
  forallb (fun c => negb (is_separator c)) t = true -> without_separators t = t.
Proof. apply filter_id. Qed.

Lemma numeral_no_separator w :
  numeral w -> forallb (fun c => negb (is_separator c)) w = true.
Proof.
  intros Nw. apply forallb_forall. intros c Hin. apply negb_true_iff.
  destruct (@numeral_chars w c Nw Hin) as [D | ->]; [|reflexivity].
  unfold is_separator. apply is_digit_ge in D.
  apply orb_false_iff. split; apply N.eqb_neq; lia.
Qed.

Lemma int_of_float_zero x : ftruth x = false -> int_of_float x = Ok 0%Z.
Proof.
  destruct x as [q|s|]; try discriminate. cbn [ftruth int_of_float]. intros H.
  apply negb_false_iff in H. unfold is_zero in H. apply Qeq_bool_iff in H.
  unfold Qeq in H. cbn [Qnum Qden] in H. rewrite Z.mul_0_l, Z.mul_1_r in H.
  rewrite H. reflexivity.
Qed.

Lemma sold_of_group w k p :
  numeral w ->
  k = [] \/ k = [75] \/ k = [107] \/ k = [8490] ->
  p = [] \/ p = [43] ->
  (v <- extract_number (w ++ k ++ p) ;; int_of_num (or_zero v))
  = (x <- float_of_str w ;;
     int_of_float (if str_eqb k [75] then fmul x (Finite 1000) else x)).
Proof.
  intros Nw Hk Hp.
  assert (Id : without_separators (w ++ k ++ p) = w ++ k ++ p).
  { apply without_separators_id. rewrite !forallb_app, (numeral_no_separator Nw).
    destruct Hk as [-> | [-> | [-> | ->]]]; destruct Hp as [-> | ->]; reflexivity. }
  destruct (float_of_str_numeral Nw) as (x & Ex & _).
  destruct Hk as [-> | [-> | [-> | ->]]].
  2: { rewrite (@extract_number_kilo_eq (w ++ [75] ++ p) w p Id Nw), Ex. cbn [bind].
       change (str_eqb [75] [75]) with true. cbv iota.
       destruct (int_of_float (fmul x (Finite 1000))) as [z|e]; [|reflexivity].
       cbn [bind or_zero num_truth]. destruct (negb (z =? 0)%Z) eqn:Z; [reflexivity|].
       apply negb_false_iff, Z.eqb_eq in Z. subst z. reflexivity. }
  all: match goal with
       | Nw0 : numeral ?w0, Id0 : without_separators (?w0 ++ ?k ++ ?p0) = _ |- _ =>
           rewrite (@extract_number_plain_eq (w0 ++ k ++ p0) w0 (k ++ p0) Id0 Nw0)
       end.
  all: try (destruct Hp as [-> | ->]; reflexivity).
  all: rewrite Ex; cbn [bind or_zero num_truth].
  all: match goal with |- context [str_eqb ?a ?b] => change (str_eqb a b) with false end.
  all: cbv iota.
  all: destruct (ftruth x) eqn:T; [reflexivity|].
  all: rewrite (@int_of_float_zero x T); reflexivity.
Qed.

(** ** The range of a rating *)

Lemma one_leading_digit_point c d t : one_leading_digit (c :: d :: t) -> d = 46.
Proof.
  cbn [one_leading_digit]. destruct d as [|p]; [contradiction|].
  repeat (destruct p as [p|p|]; try contradiction). reflexivity.
Qed.

(** Rounding never goes below a grid value it starts above. *)
Lemma round_pos_ge_grid v x :
  on_grid v -> (0 < x)%Q -> (v <= x)%Q ->
  match round_pos x with
  | Finite v' => (v <= v')%Q
  | Infinity s => s = false
  | NaN => False
  end.
Proof.
  intros (k & e & Hk & He & Ev) Hx Hvx. unfold round_pos.
  set (ex := Z.max (ilog2 x) (-1022)).
  set (ulp := pow2 (ex - 52)).
  assert (Hu : (0 < ulp)%Q) by apply pow2_pos.
  assert (G : (v <= inject_Z (round_half_even (x / ulp)) * ulp)%Q).
  { destruct (Z_le_gt_dec ex e) as [Le | Gt].
    - assert (EM : (v == inject_Z (k * 2 ^ (e - ex)) * ulp)%Q).
      { rewrite Ev, inject_Z_mult, <- Qmult_assoc.
        rewrite <- (@pow2_Z (e - ex)%Z) by lia. unfold ulp. rewrite <- pow2_add.
        replace (e - ex + (ex - 52))%Z with (e - 52)%Z by lia. reflexivity. }
      rewrite EM. apply Qmult_le_compat_r; [|apply Qlt_le_weak, Hu].
      rewrite <- Zle_Qle. apply round_half_even_ge.
      apply Qle_shift_div_l; [exact Hu|]. rewrite <- EM. exact Hvx.
    - assert (Ex : ex = ilog2 x) by lia.
      destruct (ilog2_spec Hx) as [L _]. rewrite <- Ex in L.
      apply Qle_trans with (pow2 (e + 1)).
      { apply Qlt_le_weak. rewrite Ev. apply grid_below_binade, Hk. }
      apply Qle_trans with (pow2 ex); [apply pow2_le; lia|].
      replace ex with (52 + (ex - 52))%Z at 1 by lia. rewrite pow2_add.
      apply Qmult_le_compat_r; [|apply Qlt_le_weak, Hu].
      rewrite (@pow2_Z 52%Z) by lia. rewrite <- Zle_Qle.
      apply round_half_even_ge. apply Qle_shift_div_l; [exact Hu|].
      rewrite <- (@pow2_Z 52%Z) by lia. unfold ulp. rewrite <- pow2_add.
      replace (52 + (ex - 52))%Z with ex by lia. exact L. }
  destruct (Qle_bool (pow2 1024) _); [reflexivity|].
  rewrite Qred_correct. exact G.
Qed.

Lemma rnd_between lo hi x :
  on_grid lo -> on_grid hi -> (0 < lo)%Q -> (lo <= x)%Q -> (x <= hi)%Q ->
  exists v, rnd x = Finite v /\ (lo <= v)%Q /\ (v <= hi)%Q.
Proof.
  intros Gl Gh Hl Hlo Hhi.
  assert (Hx : (0 < x)%Q) by (eapply Qlt_le_trans; eassumption).
  unfold rnd. destruct (Qcompare x 0) eqn:C.
  - apply Qeq_alt in C. rewrite C in Hx. discriminate Hx.
  - rewrite <- Qlt_alt in C. exfalso. apply (Qlt_irrefl 0).
    eapply Qlt_trans; eassumption.
  - destruct (@round_pos_le_grid hi x Gh Hx Hhi) as (v & E & _ & Hv).
    pose proof (@round_pos_ge_grid lo x Gl Hx Hlo) as L. rewrite E in L.
    exists v. auto.
Qed.

Lemma digits_val_lower ds : forall acc,
  all_digits_p ds -> (0 <= acc)%Z ->
  (acc * 10 ^ Z.of_nat (length ds)
   <= fold_left (fun a c => 10 * a + digit_val c) ds acc)%Z.
Proof.
  unfold all_digits_p. induction ds as [|c ds IH]; intros acc D Hacc.
  - simpl. lia.
  - cbn [forallb] in D. apply andb_prop in D as [Dc D].
    pose proof (is_digit_val _ Dc) as Hc.
    cbn [fold_left length]. rewrite Nat2Z.inj_succ, Z.pow_succ_r by lia.
    specialize (IH (10 * acc + digit_val c)%Z D ltac:(lia)).
    assert (0 < 10 ^ Z.of_nat (length ds))%Z by (apply Z.pow_pos_nonneg; lia).
    nia.
Qed.

(** The value of a digit, a point and more digits lies between the
    digit and the digit plus one. *)
Lemma pointed_value c fp :
  is_digit c = true -> all_digits_p fp ->
  exists q, parse_decimal (c :: 46 :: fp) = Some q /\
            (inject_Z (digit_val c) <= q)%Q /\ (q <= inject_Z (digit_val c + 1))%Q.
Proof.
  intros Dc Df. unfold parse_decimal.
  assert (D1 : all_digits_p [c]) by (unfold all_digits_p; simpl; rewrite Dc; reflexivity).
  change (c :: 46 :: fp) with ([c] ++ 46 :: fp).
  rewrite (@span_digits_app [c] (46 :: fp) D1 eq_refl).
  change (46 =? 46) with true. cbv iota. rewrite (span_digits_all Df).
  eexists. split; [reflexivity|].
  assert (Hp : (0 < 10 ^ Z.of_nat (length fp))%Z) by (apply Z.pow_pos_nonneg; lia).
  pose proof (is_digit_val _ Dc) as Hc.
  pose proof (@digits_val_lower fp (digit_val c) Df ltac:(lia)) as Lo.
  pose proof (@digits_val_bound fp (digit_val c) Df ltac:(lia)) as Hi.
  assert (Ev : digits_val ([c] ++ fp)
               = fold_left (fun a x => (10 * a + digit_val x)%Z) fp (digit_val c)).
  { unfold digits_val. cbn [app fold_left]. rewrite Z.mul_0_r, Z.add_0_l. reflexivity. }
  rewrite Ev. split.
  - apply Qle_shift_div_l; [change 0%Q with (inject_Z 0); rewrite <- Zlt_Qlt; exact Hp|].
    rewrite <- inject_Z_mult, <- Zle_Qle. exact Lo.
  - apply Qle_shift_div_r; [change 0%Q with (inject_Z 0); rewrite <- Zlt_Qlt; exact Hp|].
    rewrite <- inject_Z_mult, <- Zle_Qle. lia.
Qed.

(** What the two rating patterns capture. *)
Lemma matches_rating_shape w g' :
  matches rating_re w None g' ->
  exists c dot ds, g' = Some (c :: dot ++ ds) /\
    (48 <= c <= 53)%N /\ (dot = [] \/ dot = [46]) /\ all_digits_p ds.
Proof.
  unfold rating_re. intros M. inv M.
  match goal with M : matches (Seq (Star space) _) _ _ _ |- _ =>
    apply matches_groupless in M; [subst | reflexivity] end.
  match goal with M : matches (Group _) _ _ _ |- _ => inv M end.
  unfold Opt, digit, lit_chr in *. inv_matches.
  all: match goal with
       | E : (_ && _) = true |- exists c dot ds, Some ([?c0] ++ ?dot0 ++ ?ds0) = _ /\ _ =>
           exists c0, dot0, ds0; apply andb_prop in E as [E1 E2];
           apply N.leb_le in E1, E2
       end.
  all: split; [reflexivity|]. all: split; [lia|]. all: split; auto.
Qed.

Lemma matches_bare_rating_shape w g' :
  matches bare_rating_re w None g' ->
  exists c fp, g' = Some (c :: 46 :: fp) /\ (52 <= c <= 53)%N /\ all_digits_p fp.
Proof.
  unfold bare_rating_re. intros M. inv M.
  unfold Plus, digit, lit_chr in *. inv_matches.
  match goal with
  | E : (_ && _) = true |- exists c fp, Some ([?c0] ++ [46] ++ [?d] ++ ?ds) = _ /\ _ =>
      exists c0, (d :: ds); apply andb_prop in E as [E1 E2]; apply N.leb_le in E1, E2
  end.
  split; [reflexivity|]. split; [lia|].
  unfold all_digits_p. simpl. apply andb_true_intro. auto.
Qed.

Lemma digit_range c lo hi :
  (48 <= lo)%N -> (hi <= 57)%N -> (lo <= c <= hi)%N ->
  is_digit c = true /\ (Z.of_N lo - 48 <= digit_val c <= Z.of_N hi - 48)%Z.
Proof.
  intros Hlo Hhi Hc. split.
  - apply ascii_digit; lia.
  - rewrite (proj2 (@ascii_digit c ltac:(lia))). lia.
Qed.

Lemma six_on_grid : on_grid 6.
Proof. apply (@integer_on_grid 6). split; [lia | reflexivity]. Qed.

Lemma four_on_grid : on_grid 4.
Proof. apply (@integer_on_grid 4). split; [lia | reflexivity]. Qed.

(** ** Comments do not count *)

Lemma get_text_recomment f n : get_text (recomment f n) = get_text n.
Proof.
  induction n as [s|s|nm attrs contents IH] using node_induction; try reflexivity.
  cbn [recomment get_text]. rewrite map_map. f_equal.
  apply map_ext_in. intros c Hc. rewrite Forall_forall in IH. apply IH, Hc.
Qed.

Lemma stripped_strings_recomment f n :
  stripped_strings (recomment f n) = stripped_strings n.
Proof.
  induction n as [s|s|nm attrs contents IH] using node_induction; try reflexivity.
  cbn [recomment stripped_strings]. rewrite flat_map_concat_map, map_map.
  rewrite flat_map_concat_map. f_equal.
  apply map_ext_in. intros c Hc. rewrite Forall_forall in IH. apply IH, Hc.
Qed.

Lemma name_recomment f n : name (recomment f n) = name n.
Proof. destruct n; reflexivity. Qed.

Lemma get_recomment f n key default :
  get (recomment f n) key default = get n key default.
Proof. destruct n; reflexivity. Qed.

Lemma tag_matches_recomment f tag_name attr r n :
  tag_matches tag_name attr r (recomment f n) = tag_matches tag_name attr r n.
Proof. destruct n; reflexivity. Qed.

Lemma descendants_recomment f n : forall parents,
  descendants (map (recomment f) parents) (recomment f n)
  = map (recomment_element f) (descendants parents n).
Proof.
  induction n as [s|s|nm attrs contents IH] using node_induction; intros parents;
    try reflexivity.
  cbn [recomment descendants]. rewrite Forall_forall in IH.
  rewrite !flat_map_concat_map, concat_map, !map_map. f_equal.
  apply map_ext_in. intros c Hc. cbn [map]. f_equal.
  change (Tag nm attrs (map (recomment f) contents) :: map (recomment f) parents)
    with (map (recomment f) (Tag nm attrs contents :: parents)).
  apply (IH c Hc).
Qed.

Lemma filter_map_commute A B (g : A -> B) (p : B -> bool) l :
  filter p (map g l) = map g (filter (fun a => p (g a)) l).
Proof.
  induction l as [|a l IH]; [reflexivity|]. cbn [map filter].
  destruct (p (g a)); cbn [map]; rewrite IH; reflexivity.
Qed.

Lemma actual_products_recomment f soup :
  actual_products (recomment f soup)
  = map (recomment_element f) (actual_products soup).
Proof.
  unfold actual_products, product_links, find_all.
  change (descendants [] (recomment f soup))
    with (descendants (map (recomment f) []) (recomment f soup)).
  rewrite descendants_recomment, !filter_map_commute. f_equal.
  etransitivity.
  { apply filter_ext. intros a. cbn [recomment_element el_node].
    rewrite get_recomment. reflexivity. }
  f_equal. apply filter_ext. intros a. apply tag_matches_recomment.
Qed.

Lemma climb_recomment f parents :
  climb (map (recomment f) parents) = option_map (recomment f) (climb parents).
Proof.
  induction parents as [|p above IH]; [reflexivity|].
  cbn [map climb]. rewrite name_recomment, get_text_recomment, IH.
  destruct (negb (str_eqb (name p) (u "body"))); [|reflexivity].
  destruct (contains (u "Rs.") (get_text p)); reflexivity.
Qed.

Lemma parent_text_recomment f link :
  parent_text_of (recomment_element f link) = parent_text_of link.
Proof.
  unfold parent_text_of, container, find_parent. cbn [recomment_element el_parents].
  rewrite climb_recomment. destruct (climb (el_parents link)) as [p|]; cbn [option_map].
  - apply get_text_recomment.
  - destruct (el_parents link) as [|p above]; [reflexivity|]. apply get_text_recomment.
Qed.

Lemma process_link_recomment lim f link :
  process_link lim (recomment_element f link) = process_link lim link.
Proof.
  unfold process_link. rewrite parent_text_recomment. cbn [recomment_element el_node].
  rewrite get_recomment. unfold get_text_strip. rewrite stripped_strings_recomment.
  reflexivity.
Qed.

(** ** Where the sold pattern can match *)

Lemma matches_lit_ci_head l w g g' c l' :
  l = c :: l' -> matches (lit_ci l) w g g' ->
  exists x w', w = x :: w' /\ ci_eqb c x = true.
Proof.
  intros -> M. cbn [lit_ci] in M.
  apply matches_seq_inv in M as (w1 & w2 & g1 & -> & M1 & _).
  inv M1. match goal with H : ci_eqb c ?x = true |- _ => exists x, w2 end.
  split; [reflexivity | assumption].
Qed.

(** A match of the sold pattern: the numeral, then a non-empty rest
    that begins with one of the characters above. *)
Lemma matches_sold_whole w g' :
  matches sold_re w None g' ->
  exists n k p t,
    w = n ++ k ++ p ++ t /\ g' = Some (n ++ k ++ p) /\ numeral n /\
    (k = [] \/ exists c, k = [c] /\ ci_eqb 107 c = true) /\
    (p = [] \/ p = [43]) /\
    exists c t', t = c :: t' /\ (isspace c = true \/ ci_eqb 115 c = true).
Proof.
  unfold sold_re. intros M.
  apply matches_seq_inv in M as (w1 & w2 & g1 & -> & M1 & M2).
  assert (T : exists c t', w2 = c :: t' /\ (isspace c = true \/ ci_eqb 115 c = true)).
  { apply matches_seq_inv in M2 as (sp & kw & g2 & -> & Ms & Mk).
    apply matches_star_chr in Ms as [Hs _].
    destruct (@matches_lit_ci_head (u "sold") kw g2 g' 115 (u "old") eq_refl Mk)
      as (x & kw' & -> & Hx).
    destruct sp as [|c sp]; cbn [app].
    - exists x, kw'. auto.
    - cbn [forallb] in Hs. apply andb_prop in Hs as [Hc _].
      exists c, (sp ++ x :: kw'). auto. }
  assert (G : exists n k p, g1 = Some (n ++ k ++ p) /\ w1 = n ++ k ++ p /\ numeral n /\
                (k = [] \/ exists c, k = [c] /\ ci_eqb 107 c = true) /\
                (p = [] \/ p = [43])).
  { inv M1. unfold Plus, Opt, digit, lit_chr in *. inv_matches.
    all: match goal with
         | |- exists n k p, Some (([?c] ++ ?ds1) ++ ?dot ++ ?ds2 ++ ?k0 ++ ?p0) = _ /\ _ =>
             exists (([c] ++ ds1) ++ dot ++ ds2), k0, p0
         end.
    all: split; [rewrite <- !app_assoc; reflexivity|].
    all: split; [rewrite <- !app_assoc; reflexivity|].
    all: split; [apply numeral_intro; auto|].
    all: split; [eauto | auto]. }
  destruct G as (n & k & p & -> & -> & Nn & Hk & Hp).
  apply matches_groupless in M2; [subst g' | reflexivity].
  exists n, k, p, w2. rewrite <- !app_assoc. auto 10.
Qed.

Lemma after_sold_number_head k p t c t' :
  (k = [] \/ exists x, k = [x] /\ ci_eqb 107 x = true) ->
  (p = [] \/ p = [43]) ->
  t = c :: t' -> (isspace c = true \/ ci_eqb 115 c = true) ->
  exists x r, k ++ p ++ t = x :: r /\ after_sold_number x = true.
Proof.
  intros Hk Hp -> Hc. unfold after_sold_number.
  destruct Hk as [-> | (x & -> & Hx)]; cbn [app].
  - destruct Hp as [-> | ->]; cbn [app].
    + exists c, t'. split; [reflexivity|].
      destruct Hc as [-> | ->]; rewrite ?orb_true_r; reflexivity.
    + exists 43, (c :: t'). split; [reflexivity|]. rewrite orb_true_r. reflexivity.
  - exists x, (p ++ c :: t'). split; [reflexivity|]. rewrite Hx. reflexivity.
Qed.

(** Two splittings of a text at its first character that is no digit. *)
Lemma digit_run_unique ds ds' x r x' r' :
  all_digits_p ds -> all_digits_p ds' ->
  is_digit x = false -> is_digit x' = false ->
  ds ++ x :: r = ds' ++ x' :: r' -> ds = ds' /\ x = x' /\ r = r'.
Proof.
  unfold all_digits_p. revert ds'. induction ds as [|d ds IH]; intros ds' D D' Hx Hx' E.
  - destruct ds' as [|d' ds']; cbn [app] in E.
    + injection E as -> ->. auto.
    + injection E as -> _. cbn [forallb] in D'. rewrite Hx in D'. discriminate D'.
  - cbn [forallb] in D. apply andb_prop in D as [Dd D].
    destruct ds' as [|d' ds']; cbn [app] in E.
    + injection E as -> _. congruence.
    + injection E as -> E. cbn [forallb] in D'. apply andb_prop in D' as [_ D'].
      destruct (IH ds' D D' Hx Hx' E) as (-> & -> & ->). auto.
Qed.

(** A match of the sold pattern at a run of digits takes the whole run
    and needs one of the characters above right after it; it captures
    the run alone unless that character is a [k] or a plus. *)
Lemma sold_at_digit_run ds x r w rest g :
  all_digits_p ds -> ds <> [] -> is_digit x = false -> x <> 46 ->
  ds ++ x :: r = w ++ rest -> matches sold_re w None g ->
  after_sold_number x = true /\
  (ci_eqb 107 x = false -> x <> 43 -> g = Some ds).
Proof.
  intros D Hne Hx Hdot E M.
  apply matches_sold_whole in M as (n & k & p & t & -> & -> & Nn & Hk & Hp & c & t' & Et & Hc).
  destruct (@after_sold_number_head k p t c t' Hk Hp Et Hc) as (y & s & Ey & Hy).
  assert (Dy : is_digit y = false).
  { destruct (is_digit y) eqn:Dy; [exfalso|reflexivity].
    pose proof (digit_not_space _ Dy) as Sy. unfold after_sold_number in Hy.
    rewrite Sy, orb_false_r in Hy.
    apply orb_prop in Hy as [Hy | Hy]; [apply orb_prop in Hy as [Hy | Hy]|].
    - apply ci_k_cases in Hy as [-> | [-> | ->]]; discriminate Dy.
    - apply N.eqb_eq in Hy. subst y. discriminate Dy.
    - unfold ci_eqb in Hy. change (115 =? 105) with false in Hy.
      change (115 =? 107) with false in Hy. change (115 =? 115) with true in Hy.
      change (115 - 32) with 83 in Hy.
      cbn [andb orb] in Hy. rewrite !orb_false_r in Hy.
      apply orb_prop in Hy as [Hy | Hy]; [apply orb_prop in Hy as [Hy | Hy]|];
        apply N.eqb_eq in Hy; subst y; discriminate Dy. }
  assert (E' : ds ++ x :: r = n ++ y :: (s ++ rest)).
  { rewrite E, <- !app_assoc. f_equal.
    change (y :: s ++ rest) with ((y :: s) ++ rest). rewrite <- Ey, <- !app_assoc.
    reflexivity. }
  destruct (numeral_cases Nn) as (ip & dot & fp & -> & Hi & Di & Df & Hd).
  destruct Hd as [-> | [-> ->]].
  - exfalso. rewrite <- !app_assoc in E'. cbn [app] in E'.
    destruct (@digit_run_unique ds ip x r 46 (fp ++ y :: s ++ rest) D Di Hx eq_refl E')
      as (_ & X & _). congruence.
  - rewrite !app_nil_r in *. cbn [app] in E'.
    destruct (@digit_run_unique ds ip x r y (s ++ rest) D Di Hx Dy E') as (-> & -> & _).
    split; [exact Hy|]. intros Nk Np.
    destruct Hk as [-> | (c0 & -> & Hc0)].
    + destruct Hp as [-> | ->]; [rewrite !app_nil_r; reflexivity|].
      cbn [app] in Ey. injection Ey as Ey _. congruence.
    + cbn [app] in Ey. injection Ey as Ey _. congruence.
Qed.

Lemma match_here_head_none r p s :
  head_class r = Some p -> stops p s -> match_here r s = None.
Proof.
  intros Hr Hs. destruct (match_here r s) as [[rest g]|] eqn:M; [exfalso|reflexivity].
  apply match_here_sound in M as (w & -> & M).
  destruct (matches_head M Hr) as (c & w' & -> & Hc).
  cbn [app stops] in Hs. congruence.
Qed.

(** [search] passes a stretch in which no match starts. *)
Lemma search_from_skip r pre : forall before s,
  (forall a b, pre = a ++ b -> b <> [] -> match_here r (b ++ s) = None) ->
  search_from r before (pre ++ s) = search_from r (rev pre ++ before) s.
Proof.
  induction pre as [|c pre IH]; intros before s H; [reflexivity|].
  pose proof (H [] (c :: pre) eq_refl ltac:(discriminate)) as H0. cbn [app] in H0.
  cbn [app]. rewrite search_from_eq, H0.
  rewrite IH.
  - cbn [rev]. rewrite <- app_assoc. reflexivity.
  - intros a b E Hb. apply (H (c :: a) b); [rewrite E; reflexivity | exact Hb].
Qed.

Lemma suffix_of_digits (ds a b : pystr) :
  all_digits_p ds -> ds = a ++ b -> all_digits_p b.
Proof.
  unfold all_digits_p. intros D ->. rewrite forallb_app in D.
  apply andb_prop in D as [_ D]. exact D.
Qed.

Lemma no_digit_suffix (t a b : pystr) : no_digit t -> t = a ++ b -> no_digit b.
Proof. intros N ->. apply no_digit_app in N as [_ N]. exact N. Qed.

Lemma no_digit_stops b s : no_digit b -> b <> [] -> stops is_digit (b ++ s).
Proof.
  intros N Hb. destruct b as [|c b]; [congruence|].
  unfold no_digit in N. cbn [forallb app stops] in *.
  apply andb_prop in N as [N _]. apply negb_true_iff, N.
Qed.

Lemma quiet_app r p1 p2 tail :
  quiet r p1 (p2 ++ tail) -> quiet r p2 tail -> quiet r (p1 ++ p2) tail.
Proof.
  intros Q1 Q2 a b E Hb. apply app_eq_app in E as [l [[-> ->] | [-> ->]]].
  - destruct l as [|c l].
    + cbn [app]. apply (Q2 [] p2 eq_refl). 
      intros ->. apply Hb. reflexivity.
    + rewrite <- app_assoc. apply (Q1 a (c :: l) eq_refl). discriminate.
  - apply (Q2 l b eq_refl Hb).
Qed.

Lemma quiet_no_digit r p pre tail :
  head_class r = Some p -> (forall c, p c = true -> is_digit c = true) ->
  no_digit pre -> quiet r pre tail.
Proof.
  intros Hr Hp N a b E Hb. apply (@match_here_head_none r p _ Hr).
  pose proof (@no_digit_stops b tail (@no_digit_suffix pre a b N E) Hb) as S.
  destruct (b ++ tail) as [|c s]; [exact I|]. cbn [stops] in *.
  destruct (p c) eqn:Pc; [|reflexivity]. apply Hp in Pc. congruence.
Qed.

(** No match of the sold pattern starts in a run of digits that a comma
    follows. *)
Lemma quiet_before_comma ds tail : all_digits_p ds -> quiet sold_re ds (44 :: tail).
Proof.
  intros D a b E Hb.
  destruct (match_here sold_re (b ++ 44 :: tail)) as [[rest g]|] eqn:M; [exfalso|reflexivity].
  apply match_here_sound in M as (w & Ew & M).
  destruct (@sold_at_digit_run b 44 tail w rest g (@suffix_of_digits ds a b D E) Hb
              eq_refl ltac:(discriminate) Ew M) as [H _].
  discriminate H.
Qed.

Lemma lit_ci_matches l g :
  forallb (fun c => ci_eqb c c) l = true -> matches (lit_ci l) l g g.
Proof.
  induction l as [|c l IH]; intros H; [apply M_Eps|].
  cbn [forallb] in H. apply andb_prop in H as [Hc H].
  cbn [lit_ci]. change (c :: l) with ([c] ++ l).
  apply M_Seq with (g1 := g); [apply M_Chr, Hc | apply IH, H].
Qed.

(** The sold pattern matches digits, blanks and the word. *)
Lemma sold_phrase_matches ds sp :
  ds <> [] -> all_digits_p ds -> all_space sp ->
  exists g, matches sold_re (ds ++ sp ++ u "sold") None g.
Proof.
  intros Hne D A. destruct ds as [|d ds]; [congruence|].
  unfold all_digits_p in D. cbn [forallb] in D. apply andb_prop in D as [Dd D].
  exists (Some (([d] ++ ds) ++ [] ++ [] ++ [] ++ [])).
  replace ((d :: ds) ++ sp ++ u "sold")
    with ((([d] ++ ds) ++ [] ++ [] ++ [] ++ []) ++ sp ++ u "sold")
    by (rewrite !app_nil_r; reflexivity).
  unfold sold_re, Plus, Opt.
  apply M_Seq with (g1 := Some (([d] ++ ds) ++ [] ++ [] ++ [] ++ [])).
  - apply M_Group with (g' := None).
    apply M_Seq with (g1 := None).
    + apply M_Seq with (g1 := None); [apply M_Chr, Dd | apply star_chr_matches, D].
    + apply M_Seq with (g1 := None); [apply M_AltR, M_Eps|].
      apply M_Seq with (g1 := None); [apply M_Star0|].
      apply M_Seq with (g1 := None); apply M_AltR, M_Eps.
  - apply M_Seq with (g1 := Some (([d] ++ ds) ++ [] ++ [] ++ [] ++ [])).
    + apply star_chr_matches, A.
    + apply lit_ci_matches. reflexivity.
Qed.

(** The sold count of a text whose first sold phrase is digits, blanks
    and the word. *)
Lemma parse_sold_at pre ds sp post :
  quiet sold_re pre (ds ++ sp ++ u "sold" ++ post) ->
  ds <> [] -> all_digits_p ds -> (length ds <= 15)%nat -> all_space sp ->
  parse_sold (pre ++ ds ++ sp ++ u "sold" ++ post) = Ok (digits_val ds).
Proof.
  intros Q Hne D L A. set (tail := ds ++ sp ++ u "sold" ++ post) in *.
  assert (S : exists m, search sold_re (pre ++ tail) = Some m /\ m_group m = Some ds).
  { unfold search. rewrite (@search_from_skip sold_re pre [] tail Q).
    destruct (@sold_phrase_matches ds sp Hne D A) as [g0 M0].
    destruct (@rmatch_complete _ sold_re (ds ++ sp ++ u "sold") None g0 post
                (fun rest g => Some (rest, g)) (post, g0) M0 eq_refl) as [[rest g] Mh].
    assert (Mh' : match_here sold_re tail = Some (rest, g)).
    { unfold match_here, tail. rewrite <- Mh. rewrite <- !app_assoc. reflexivity. }
    destruct (@search_from_here sold_re (rev pre ++ []) tail rest g Mh') as (w & Ew & Sf).
    rewrite Sf. eexists. split; [reflexivity|]. cbn [m_group].
    apply match_here_sound in Mh' as (w' & Ew' & M).
    assert (X : exists x r, sp ++ u "sold" ++ post = x :: r /\ is_digit x = false /\
                            x <> 46 /\ ci_eqb 107 x = false /\ x <> 43).
    { destruct sp as [|c sp].
      - exists 115, (u "old" ++ post). repeat split; discriminate.
      - exists c, (sp ++ u "sold" ++ post). unfold all_space in A. cbn [forallb] in A.
        apply andb_prop in A as [Ac _]. split; [reflexivity|].
        split; [destruct (is_digit c) eqn:Dc; [apply digit_not_space in Dc; congruence|];
                reflexivity|].
        split; [intros ->; discriminate Ac|].
        split; [|intros ->; discriminate Ac].
        destruct (ci_eqb 107 c) eqn:Kc; [|reflexivity].
        apply ci_k_cases in Kc as [-> | [-> | ->]]; discriminate Ac. }
    destruct X as (x & r & Ex & Dx & N46 & Nk & N43).
    unfold tail in Ew'. rewrite Ex in Ew'.
    apply (proj2 (@sold_at_digit_run ds x r w' rest g D Hne Dx N46 Ew' M) Nk N43). }
  destruct S as (m & S & G). unfold parse_sold. rewrite S. unfold group1. rewrite G.
  assert (Nd : numeral ds) by (exists ds, []; repeat split; auto).
  pose proof (@sold_of_group ds [] [] Nd (or_introl eq_refl) (or_introl eq_refl)) as V.
  rewrite !app_nil_r in V. rewrite V.
  rewrite float_of_str_integer by assumption. cbn [bind].
  change (str_eqb [] [75]) with false. cbv iota. apply int_of_float_integer.
Qed.

(** ** Where the review pattern can match *)

Lemma ci_r_cases c : ci_eqb 114 c = true -> c = 114 \/ c = 82.
Proof.
  unfold ci_eqb. change (114 =? 105) with false. change (114 =? 115) with false.
  change (114 =? 107) with false. change (114 - 32) with 82.
  cbn [andb orb]. rewrite !orb_false_r. intros H.
  apply orb_prop in H as [H | H]; apply N.eqb_eq in H; auto.
Qed.

Lemma matches_alt_inv r1 r2 w g g' :
  matches (Alt r1 r2) w g g' -> matches r1 w g g' \/ matches r2 w g g'.
Proof. intros M. inv M; auto. Qed.

(** A match of the review pattern: the digits, then a non-empty rest
    that begins with a blank or an [r]. *)
Lemma matches_review_whole w g' :
  matches review_re w None g' ->
  exists n c t, w = n ++ c :: t /\ g' = Some n /\ n <> [] /\ all_digits_p n /\
                after_review_number c = true.
Proof.
  unfold review_re. intros M.
  apply matches_seq_inv in M as (w1 & w2 & g1 & -> & M1 & M2).
  assert (T : exists c t, w2 = c :: t /\ after_review_number c = true).
  { apply matches_seq_inv in M2 as (sp & kw & g2 & -> & Ms & Mk).
    apply matches_star_chr in Ms as [Hs _].
    assert (K : exists x kw', kw = x :: kw' /\ ci_eqb 114 x = true).
    { apply matches_alt_inv in Mk as [Mk | Mk].
      - apply (@matches_lit_ci_head (u "review") kw g2 g' 114 (u "eview") eq_refl Mk).
      - apply (@matches_lit_ci_head (u "rating") kw g2 g' 114 (u "ating") eq_refl Mk). }
    destruct K as (x & kw' & -> & Hx). unfold after_review_number.
    destruct sp as [|c sp]; cbn [app].
    - exists x, kw'. rewrite Hx, orb_true_r. auto.
    - cbn [forallb] in Hs. apply andb_prop in Hs as [Hc _].
      exists c, (sp ++ x :: kw'). rewrite Hc. auto. }
  destruct T as (c & t & -> & Hc).
  apply matches_groupless in M2; [subst g' | reflexivity].
  inv M1.
  match goal with M : matches (Plus digit) _ _ _ |- _ =>
    apply matches_plus_digit in M as (Hne & D & _) end.
  eauto 10.
Qed.

Lemma after_review_not_digit c : after_review_number c = true -> is_digit c = false.
Proof.
  intros H. destruct (is_digit c) eqn:D; [exfalso|reflexivity].
  pose proof (digit_not_space _ D) as S. unfold after_review_number in H.
  rewrite S in H. cbn [orb] in H. apply ci_r_cases in H as [-> | ->]; discriminate D.
Qed.

(** A match of the review pattern at a run of digits takes the whole
    run and needs a blank or an [r] right after it. *)
Lemma review_at_digit_run ds x r w rest g :
  all_digits_p ds -> is_digit x = false ->
  ds ++ x :: r = w ++ rest -> matches review_re w None g ->
  after_review_number x = true /\ g = Some ds.
Proof.
  intros D Hx E M.
  apply matches_review_whole in M as (n & c & t & -> & -> & Hne & Dn & Hc).
  rewrite <- app_assoc in E. cbn [app] in E.
  destruct (@digit_run_unique ds n x r c (t ++ rest) D Dn Hx (after_review_not_digit _ Hc) E)
    as (-> & -> & _).
  auto.
Qed.

(** No match of the review pattern starts in a run of digits followed
    by a character that is neither a digit, a blank nor an [r]. *)
Lemma quiet_before_break ds x tail :
  all_digits_p ds -> is_digit x = false -> after_review_number x = false ->
  quiet review_re ds (x :: tail).
Proof.
  intros D Hx Hb a b E Hne.
  destruct (match_here review_re (b ++ x :: tail)) as [[rest g]|] eqn:M; [exfalso|reflexivity].
  apply match_here_sound in M as (w & Ew & M).
  destruct (@review_at_digit_run b x tail w rest g (@suffix_of_digits ds a b D E) Hx Ew M)
    as [H _].
  congruence.
Qed.

(** The review pattern matches digits, blanks and one of its words. *)
Lemma review_phrase_matches ds sp kw :
  ds <> [] -> all_digits_p ds -> all_space sp ->
  kw = u "review" \/ kw = u "rating" ->
  exists g, matches review_re (ds ++ sp ++ kw) None g.
Proof.
  intros Hne D A Hk. destruct ds as [|d ds]; [congruence|].
  unfold all_digits_p in D. cbn [forallb] in D. apply andb_prop in D as [Dd D].
  exists (Some ([d] ++ ds)).
  change ((d :: ds) ++ sp ++ kw) with (([d] ++ ds) ++ sp ++ kw).
  unfold review_re, Plus.
  apply M_Seq with (g1 := Some ([d] ++ ds)).
  - apply M_Group with (g' := None).
    apply M_Seq with (g1 := None); [apply M_Chr, Dd | apply star_chr_matches, D].
  - apply M_Seq with (g1 := Some ([d] ++ ds)); [apply star_chr_matches, A|].
    destruct Hk as [-> | ->]; [apply M_AltL | apply M_AltR];
      apply lit_ci_matches; reflexivity.
Qed.

(** The review count of a text whose first review phrase is digits,
    blanks and one of the words. *)
Lemma parse_review_at lim pre ds sp kw post :
  quiet review_re pre (ds ++ sp ++ kw ++ post) ->
  ds <> [] -> all_digits_p ds -> (length ds <= 640)%nat -> all_space sp ->
  kw = u "review" \/ kw = u "rating" ->
  parse_review lim (pre ++ ds ++ sp ++ kw ++ post) = Ok (digits_val ds).
Proof.
  intros Q Hne D L A Hk. set (tail := ds ++ sp ++ kw ++ post) in *.
  assert (S : exists m, search review_re (pre ++ tail) = Some m /\ m_group m = Some ds).
  { unfold search. rewrite (@search_from_skip review_re pre [] tail Q).
    destruct (@review_phrase_matches ds sp kw Hne D A Hk) as [g0 M0].
    destruct (@rmatch_complete _ review_re (ds ++ sp ++ kw) None g0 post
                (fun rest g => Some (rest, g)) (post, g0) M0 eq_refl) as [[rest g] Mh].
    assert (Mh' : match_here review_re tail = Some (rest, g)).
    { unfold match_here, tail. rewrite <- Mh. rewrite <- !app_assoc. reflexivity. }
    destruct (@search_from_here review_re (rev pre ++ []) tail rest g Mh') as (w & Ew & Sf).
    rewrite Sf. eexists. split; [reflexivity|]. cbn [m_group].
    apply match_here_sound in Mh' as (w' & Ew' & M).
    assert (X : exists x r, sp ++ kw ++ post = x :: r /\ is_digit x = false).
    { destruct sp as [|c sp].
      - destruct Hk as [-> | ->]; eexists; eexists; split; reflexivity.
      - exists c, (sp ++ kw ++ post). unfold all_space in A. cbn [forallb] in A.
        apply andb_prop in A as [Ac _]. split; [reflexivity|].
        destruct (is_digit c) eqn:Dc; [apply digit_not_space in Dc; congruence|].
        reflexivity. }
    destruct X as (x & r & Ex & Dx).
    unfold tail in Ew'. rewrite Ex in Ew'.
    apply (proj2 (@review_at_digit_run ds x r w' rest g D Dx Ew' M)). }
  destruct S as (m & S & G). unfold parse_review. rewrite S. unfold group1. rewrite G.
  rewrite (int_of_str_digits lim Hne D).
  assert ((640 <? length ds)%nat = false) as -> by (apply Nat.ltb_ge, L).
  reflexivity.
Qed.

(** ** The decimal text of an integer *)

Lemma u_cons c s : u (String c s) = N_of_ascii c :: u s.
Proof. reflexivity. Qed.

(** The text of a decimal number is made of ASCII digits. *)
Lemma uint_text_ascii d :
  forallb (fun c => (48 <=? c) && (c <=? 57)) (u (NilEmpty.string_of_uint d)) = true.
Proof. induction d; cbn [NilEmpty.string_of_uint]; rewrite ?u_cons; try exact IHd; reflexivity. Qed.

Lemma ascii_digits_digits s :
  forallb (fun c => (48 <=? c) && (c <=? 57)) s = true -> all_digits_p s.
Proof.
  unfold all_digits_p. induction s as [|c s IH]; [reflexivity|]. cbn [forallb].
  intros H. apply andb_prop in H as [Hc H]. rewrite (IH H), andb_true_r.
  apply andb_prop in Hc as [H1 H2]. apply N.leb_le in H1, H2.
  apply ascii_digit. lia.
Qed.

(** Its value, read with [acc] before it. *)
Lemma of_uint_acc_val d : forall acc,
  Zpos (Pos.of_uint_acc d acc)
  = fold_left (fun a c => (10 * a + digit_val c)%Z) (u (NilEmpty.string_of_uint d)) (Zpos acc).
Proof.
  induction d; intros acc; cbn [Pos.of_uint_acc NilEmpty.string_of_uint];
    rewrite ?u_cons; cbn [fold_left]; [reflexivity|..]; rewrite IHd; f_equal.
  all: match goal with |- context [digit_val ?c] =>
         let v := eval vm_compute in (digit_val c) in change (digit_val c) with v end.
  all: lia.
Qed.

Lemma of_uint_val d :
  Z.of_N (Pos.of_uint d) = digits_val (u (NilEmpty.string_of_uint d)).
Proof.
  unfold digits_val.
  induction d; cbn [Pos.of_uint NilEmpty.string_of_uint];
    rewrite ?u_cons; cbn [fold_left]; [reflexivity | exact IHd |..].
  all: match goal with |- context [digit_val ?c] =>
         let v := eval vm_compute in (digit_val c) in change (digit_val c) with v end.
  all: cbn [Z.of_N]; rewrite of_uint_acc_val; reflexivity.
Qed.

Lemma str_of_int_pos p :
  str_of_int (Zpos p) = u (NilEmpty.string_of_uint (Pos.to_uint p)).
Proof.
  unfold str_of_int. cbn [Z.to_int Pos.to_int NilZero.string_of_int].
  unfold NilZero.string_of_uint.
  pose proof (DecimalPos.Unsigned.to_uint_nonnil p) as H.
  destruct (Pos.to_uint p); [congruence|..]; reflexivity.
Qed.

(** [str] of a positive integer reads back as the integer. *)
Lemma digits_val_str_of_int p : digits_val (str_of_int (Zpos p)) = Zpos p.
Proof.
  rewrite str_of_int_pos, <- of_uint_val, DecimalPos.Unsigned.of_to. reflexivity.
Qed.

(** It begins with a digit that is not zero. *)
Lemma str_of_int_head p :
  exists c t, str_of_int (Zpos p) = c :: t /\ (1 <= digit_val c)%Z /\ all_digits_p (c :: t).
Proof.
  pose proof (ascii_digits_digits _ (uint_text_ascii (Pos.to_uint p))) as D.
  rewrite str_of_int_pos.
  assert (Nz : forall d', Pos.to_uint p <> Decimal.D0 d').
  { intros d' E.
    pose proof (DecimalPos.Unsigned.to_of (Pos.to_uint p)) as T.
    rewrite DecimalPos.Unsigned.of_to in T. cbn [N.to_uint] in T.
    pose proof (DecimalPos.Unsigned.to_uint_nonzero p) as Z0.
    assert (Hn : Decimal.nzhead (Pos.to_uint p) <> Decimal.Nil).
    { intros Hn. apply Z0. rewrite T. apply DecimalFacts.unorm_0, Hn. }
    rewrite (DecimalFacts.unorm_nzhead _ Hn) in T.
    apply (@DecimalFacts.nzhead_nonzero (Pos.to_uint p) d'). rewrite <- T. exact E. }
  pose proof (DecimalPos.Unsigned.to_uint_nonnil p) as Nn.
  destruct (Pos.to_uint p) as [|d|d|d|d|d|d|d|d|d|d]; [congruence | exfalso; apply (Nz d); reflexivity |..];
    cbn [NilEmpty.string_of_uint] in *; rewrite u_cons in *;
    eexists; eexists; (split; [reflexivity|]); (split; [|exact D]); vm_compute; discriminate.
Qed.

(** A non-negative integer under [10 ^ n] has at most [n] digits. *)
Lemma str_of_int_length z n :
  (0 <= z < 10 ^ Z.of_nat n)%Z -> (1 <= n)%nat -> (length (str_of_int z) <= n)%nat.
Proof.
  intros [H0 H] Hn. destruct z as [|p|p]; [exact Hn | | lia].
  destruct (str_of_int_head p) as (c & t & E & Hc & D).
  pose proof (digits_val_str_of_int p) as V. rewrite E in *.
  unfold all_digits_p in D. cbn [forallb] in D. apply andb_prop in D as [Dc Dt].
  unfold digits_val in V. cbn [fold_left] in V.
  pose proof (@digits_val_lower t (10 * 0 + digit_val c)%Z Dt ltac:(lia)) as L.
  rewrite V in L.
  assert (P : (0 < 10 ^ Z.of_nat (length t))%Z) by (apply Z.pow_pos_nonneg; lia).
  assert (B : (10 ^ Z.of_nat (length t) < 10 ^ Z.of_nat n)%Z) by nia.
  apply Z.pow_lt_mono_r_iff in B; [|lia|lia]. cbn [length]. lia.
Qed.

(** [str] of an integer has no surrogate. *)
Lemma ascii_encodable s :
  forallb (fun c => c <? 128) s = true -> encodable s = true.
Proof.
  unfold encodable. induction s as [|c s IH]; [reflexivity|]. cbn [forallb].
  intros H. apply andb_prop in H as [Hc H]. rewrite (IH H), andb_true_r.
  apply N.ltb_lt in Hc. unfold is_surrogate. apply negb_true_iff, andb_false_iff.
  left. apply N.leb_gt. lia.
Qed.

Lemma str_of_int_encodable z : encodable (str_of_int z) = true.
Proof.
  assert (U : forall d, forallb (fun c => c <? 128) (u (NilEmpty.string_of_uint d)) = true).
  { intros d. induction d; cbn [NilEmpty.string_of_uint]; rewrite ?u_cons; try exact IHd;
      reflexivity. }
  apply ascii_encodable. unfold str_of_int.
  destruct (Z.to_int z) as [d|d]; cbn [NilZero.string_of_int]; rewrite ?u_cons;
    unfold NilZero.string_of_uint; cbn [forallb];
    destruct d; try reflexivity; apply U.
Qed.

(** ** The integers of a record can be printed *)

Lemma on_grid_lt v : on_grid v -> (v < inject_Z (2 ^ 1024))%Q.
Proof.
  intros (k & e & Hk & He & E). rewrite E.
  apply Qle_lt_trans with (inject_Z k * pow2 971)%Q.
  - rewrite !(Qmult_comm (inject_Z k)). apply Qmult_le_compat_r.
    + apply pow2_le. lia.
    + change 0%Q with (inject_Z 0). rewrite <- Zle_Qle. lia.
  - rewrite (@pow2_Z 971) by lia. rewrite <- inject_Z_mult, <- Zlt_Qlt.
    assert (P : (0 < 2 ^ 971)%Z) by reflexivity.
    replace (2 ^ 1024)%Z with (2 ^ 53 * 2 ^ 971)%Z by reflexivity.
    apply Z.mul_lt_mono_pos_r; [exact P | lia].
Qed.

Lemma int_of_float_small v z :
  (0 <= v)%Q -> on_grid v -> int_of_float (Finite v) = Ok z -> (0 <= z < 2 ^ 1024)%Z.
Proof.
  intros H0 G E. cbn [int_of_float] in E. injection E as <-.
  apply on_grid_lt in G. unfold Qle in H0. unfold Qlt in G. cbn [Qnum Qden inject_Z] in *.
  rewrite Z.mul_1_r in *. rewrite Z.quot_div_nonneg by lia. split.
  - apply Z.div_pos; lia.
  - apply Z.div_lt_upper_bound; lia.
Qed.

(** A sold count is under [2 ^ 1024], the bound of the finite floats. *)
Lemma parse_sold_small t z : parse_sold t = Ok z -> (0 <= z < 2 ^ 1024)%Z.
Proof.
  assert (Z0 : (0 <= 0 < 2 ^ 1024)%Z) by (split; [lia | reflexivity]).
  unfold parse_sold. destruct (search sold_re t) as [m|] eqn:S;
    [|intros E; injection E as <-; exact Z0].
  pose proof (search_sound _ _ S) as [_ M].
  apply matches_sold in M as (w & k & p & G & Nw & Hk & Hp).
  assert (Hk' : k = [] \/ k = [75] \/ k = [107] \/ k = [8490]).
  { destruct Hk as [-> | (c & -> & Hc)]; [auto|].
    destruct (ci_k_cases c Hc) as [-> | [-> | ->]]; auto. }
  unfold group1. rewrite G. intros E.
  assert (V : (x <- float_of_str w ;;
               int_of_float (if str_eqb k [75] then fmul x (Finite 1000) else x)) = Ok z).
  { rewrite <- E. symmetry. apply (sold_of_group Nw Hk' Hp). }
  clear E. revert V.
  destruct (float_of_str w) as [x|] eqn:F; cbn [bind]; [|discriminate].
  pose proof (float_of_str_nonneg _ F) as Hx.
  pose proof (float_of_str_binary64 _ F) as Bx.
  destruct (str_eqb k [75]).
  - destruct x as [a|s|]; cbn [fmul].
    + cbn [nonneg] in Hx.
      assert (Ha : (0 <= a * 1000)%Q) by (apply Qmult_le_0_compat; [exact Hx | discriminate]).
      destruct (rnd (a * 1000)) as [v|s|] eqn:R; cbn [int_of_float]; try discriminate.
      apply int_of_float_small; [|apply (rnd_on_grid Ha R)].
      pose proof (rnd_nonneg Ha) as Hv. rewrite R in Hv. exact Hv.
    + cbn [is_zero]. destruct (Qeq_bool 1000 0); discriminate.
    + discriminate.
  - destruct x as [a|s|]; try discriminate.
    apply int_of_float_small; [exact Hx | exact Bx].
Qed.

Lemma printable_small lim z n :
  (0 <= z < 10 ^ Z.of_nat n)%Z -> (1 <= n)%nat ->
  (n <= 640)%nat \/ lim = 0%nat \/ (n <= lim)%nat ->
  printable lim z = true.
Proof.
  intros Hz Hn H. pose proof (str_of_int_length Hz Hn) as L.
  unfold printable. rewrite Z.abs_eq by lia.
  apply orb_true_iff. destruct H as [H | [H | H]].
  - left. apply orb_true_iff. left. apply Nat.leb_le. lia.
  - left. apply orb_true_iff. right. apply Nat.eqb_eq, H.
  - right. apply Nat.leb_le. lia.
Qed.

Lemma parse_sold_printable lim t z : parse_sold t = Ok z -> printable lim z = true.
Proof.
  intros E. apply parse_sold_small in E.
  apply (@printable_small lim z 309); [|lia|left; lia].
  assert ((2 ^ 1024 < 10 ^ Z.of_nat 309)%Z) by reflexivity. lia.
Qed.

(** A review count that [int] converted is one [str] converts, under
    the same limit. *)
Lemma parse_review_printable lim t z : parse_review lim t = Ok z -> printable lim z = true.
Proof.
  unfold parse_review. destruct (search review_re t) as [m|] eqn:S.
  - pose proof (search_sound _ _ S) as [_ M].
    apply matches_review in M as (n & E & Hne & D).
    unfold group1. rewrite E, (int_of_str_digits lim Hne D).
    destruct ((640 <? length n)%nat && ((0 <? lim)%nat && (lim <? length n)%nat)) eqn:C;
      [discriminate|].
    intros V. injection V as <-.
    apply (@printable_small lim _ (length n)).
    + split; [apply digits_val_nonneg, D | apply digits_val_lt, D].
    + destruct n; [congruence | cbn [length]; lia].
    + apply andb_false_iff in C as [C | C]; [left; apply Nat.ltb_ge, C|].
      apply andb_false_iff in C as [C | C].
      * right. left. apply Nat.ltb_ge in C. lia.
      * right. right. apply Nat.ltb_ge, C.
  - intros V. injection V as <-. reflexivity.
Qed.

(** ** The cells of a record can be encoded *)

(** No decimal digit is a surrogate. *)
Lemma digit_not_surrogate c : is_digit c = true -> is_surrogate c = false.
Proof.
  unfold is_digit. destruct (decimal_zero c) as [z|] eqn:E; [|discriminate].
  intros _. apply decimal_zero_spec in E as [I [B1 B2]].
  unfold decimal_zeros in I. cbn [In] in I. unfold is_surrogate.
  repeat (destruct I as [<- | I]; [
    apply andb_false_iff;
    first [ right; apply N.leb_gt; lia | left; apply N.leb_gt; lia ] |]).
  destruct I.
Qed.

Lemma digits_encodable ds : all_digits_p ds -> encodable ds = true.
Proof.
  unfold all_digits_p, encodable. induction ds as [|c ds IH]; [reflexivity|].
  cbn [forallb]. intros H. apply andb_prop in H as [Hc H].
  rewrite (digit_not_surrogate _ Hc), (IH H). reflexivity.
Qed.

Lemma parse_product_id_digits href : all_digits_p (parse_product_id href).
Proof.
  unfold parse_product_id. destruct (search product_id_re href) as [m|] eqn:S; [|reflexivity].
  pose proof (search_sound _ _ S) as [_ M]. unfold product_id_re in M.
  apply matches_seq_inv in M as (w1 & w2 & g1 & _ & _ & M).
  inv M. unfold group1.
  match goal with H : _ = m_group m |- _ => rewrite <- H end.
  match goal with M : matches (Plus digit) _ _ _ |- _ =>
    apply matches_plus_digit in M as (_ & D & _) end.
  exact D.
Qed.

Section Writable.
Variable lim : nat.
Variable float_repr : pyfloat -> pystr.
Hypothesis float_repr_encodable : forall x, encodable (float_repr x) = true.

Lemma price_cell_encodable p :
  encodable (cell_text float_repr (price_cell p)) = true.
Proof.
  destruct p as [x|]; [|reflexivity]. cbn [price_cell].
  destruct (ftruth x); [apply float_repr_encodable | reflexivity].
Qed.

Lemma num_cell_encodable v : encodable (cell_text float_repr (CNum v)) = true.
Proof. destruct v as [z|x]; [apply str_of_int_encodable | apply float_repr_encodable]. Qed.

(** A record of the extractor can be written as soon as its title and
    its url hold no surrogate. *)
Lemma parsed_writable soup r :
  In r (parse_temu_html lim soup) ->
  encodable (title r) = true -> encodable (url r) = true ->
  writable lim float_repr r = true.
Proof.
  intros H Ht Hu. apply in_parse_temu_html in H as (link & _ & E).
  unfold process_link in E.
  apply build_record_inv in E as (prices & _ & _ & _ & _ & Ed & Es & Er & Ev & _ & _ & Ei & _).
  unfold writable.
  assert (Pd : num_printable lim (discount_percent r) = true).
  { destruct (compute_discount_ok (pick_current prices) (pick_original prices))
      as (d & D & [-> | (x & -> & _)]); rewrite D in Ed; injection Ed as <-; reflexivity. }
  assert (Pr : num_printable lim (rating r) = true).
  { unfold parse_rating in Er.
    destruct (match search rating_re _ with Some m => Some m | None => _ end) as [m|].
    - destruct (float_of_str (group1 m)); cbn [bind] in Er; [|discriminate].
      injection Er as <-. reflexivity.
    - injection Er as <-. reflexivity. }
  rewrite Pd, Pr, (parse_sold_printable lim _ Es), (parse_review_printable _ _ Ev).
  cbn [andb row_cells forallb].
  rewrite Ei, (digits_encodable (parse_product_id_digits _)), Ht, Hu,
    !price_cell_encodable, !num_cell_encodable, !str_of_int_encodable.
  reflexivity.
Qed.
End Writable.

(** ** Files *)

Lemma write_file_other fs path content p :
  p <> path -> write_file fs path content p = fs p.
Proof.
  intros H. unfold write_file. destruct (String.eqb p path) eqn:E; [|reflexivity].
  apply String.eqb_eq in E. congruence.
Qed.

Lemma save_to_csv_fst lim float_repr products output_file fs :
  fst (save_to_csv lim float_repr products output_file fs)
  = match products with
    | [] => fs
    | _ :: _ =>
        write_file fs output_file
          (csv_text (fieldnames :: map (row_cells float_repr)
                                       (written lim float_repr products)))
    end.
Proof.
  destruct products as [|p ps]; [reflexivity|].
  apply save_to_csv_file. discriminate.
Qed.

(** For a record of the extractor, to be writable is to have no
    surrogate in the title nor in the url. *)
Lemma parsed_writable_iff lim float_repr soup r :
  (forall x, encodable (float_repr x) = true) ->
  In r (parse_temu_html lim soup) ->
  writable lim float_repr r = encodable (title r) && encodable (url r).
Proof.
  intros R H.
  destruct (encodable (title r) && encodable (url r)) eqn:E.
  - apply andb_prop in E as [Et Eu]. apply (@parsed_writable lim float_repr R soup r H Et Eu).
  - destruct (writable lim float_repr r) eqn:W; [|reflexivity].
    unfold writable in W. apply andb_prop in W as [_ W].
    cbn [row_cells forallb] in W.
    apply andb_prop in W as [_ W]. apply andb_prop in W as [Wt W].
    do 6 (apply andb_prop in W as [_ W]). apply andb_prop in W as [Wu _].
    rewrite Wt, Wu in E. discriminate E.
Qed.

(** ** How the sink ends *)

(** When the writes raise, they raise at the first product that is not
    writable, with the exception of its conversion or of its write. *)
Lemma write_rows_raise lim float_repr ps : forall buf e,
  snd (write_rows lim float_repr (map product_row ps) buf) = Raise e ->
  exists bad rest,
    ps = written lim float_repr ps ++ bad :: rest /\
    writable lim float_repr bad = false /\
    e = if integers_printable lim bad then UnicodeEncodeError else ValueError.
Proof.
  induction ps as [|p ps IH]; intros buf e; [discriminate|].
  cbn [map write_rows written]. rewrite product_row_write.
  destruct (writable lim float_repr p) eqn:W.
  - intros E. apply IH in E as (bad & rest & Eps & Wb & Ee).
    exists bad, rest. split; [cbn [app]; f_equal; exact Eps | auto].
  - cbn [snd]. intros E. injection E as <-.
    exists p, ps. split; [reflexivity|]. split; [exact W | reflexivity].
Qed.

Lemma save_to_csv_raise lim float_repr products output_file fs e :
  snd (save_to_csv lim float_repr products output_file fs) = Raise e ->
  exists bad rest,
    products = written lim float_repr products ++ bad :: rest /\
    writable lim float_repr bad = false /\
    e = if integers_printable lim bad then UnicodeEncodeError else ValueError.
Proof.
  unfold save_to_csv. destruct products as [|p ps]; [discriminate|].
  cbn [write_rows]. rewrite header_write.
  destruct (write_rows lim float_repr (map product_row (p :: ps)) ([] ++ Csv.writerow fieldnames))
    as [content r] eqn:E.
  cbn [snd]. intros ->.
  apply (@write_rows_raise lim float_repr (p :: ps) ([] ++ Csv.writerow fieldnames) e).
  rewrite E. reflexivity.
Qed.

Lemma written_writable lim float_repr ps :
  forallb (writable lim float_repr) (written lim float_repr ps) = true.
Proof.
  induction ps as [|p ps IH]; [reflexivity|]. cbn [written].
  destruct (writable lim float_repr p) eqn:W; [|reflexivity].
  cbn [forallb]. rewrite W, IH. reflexivity.
Qed.

(** ** Facts about the examples *)

Lemma excluded_not_actual href : excluded href -> is_actual_product href = false.
Proof.
  intros H. destruct (is_actual_product href) eqn:E; [|reflexivity].
  exfalso. apply is_actual_product_spec in E as (N1 & N2 & N3 & N4 & L & S).
  destruct H as [(skip & Hin & Hs) | [H | H]].
  - simpl in Hin. destruct Hin as [<- | [<- | [<- | [<- | []]]]]; contradiction.
  - lia.
  - contradiction.
Qed.

Lemma scenario_a_emitted lim :
  In scenario_a_record (parse_temu_html lim scenario_a_doc).
Proof. vm_compute. left. reflexivity. Qed.

Lemma out_of_stock_rating :
  exists r, In r (parse_temu_html 4300 out_of_stock_doc) /\
            rating r = PyFloat (Finite 250).
Proof. eexists. split; [vm_compute; left; reflexivity | reflexivity]. Qed.

Lemma body_link_found : In body_link (actual_products body_doc).
Proof. vm_compute. left. reflexivity. Qed.

Lemma body_link_containers :
  container body_link = Some (Tag (u "body") [] [body_div]) /\
  nearest_currency_container body_link = Some body_div.
Proof. split; vm_compute; reflexivity. Qed.

Lemma huge_sold_overflow :
  In huge_sold_link (actual_products huge_sold_doc) /\
  (5 < length (claimed_title huge_sold_link))%nat /\
  process_link 4300 huge_sold_link = Raise OverflowError /\
  parse_temu_html 4300 huge_sold_doc = [].
Proof.
  split; [vm_compute; left; reflexivity|].
  split; [vm_compute; lia|].
  split; vm_compute; reflexivity.
Qed.

(** ** Checks of the model on known values *)

(** The binary64 values of 0.1 and of a third. *)
Example rnd_tenth : rnd (1 # 10) = Finite (3602879701896397 # 36028797018963968).
Proof. vm_compute. reflexivity. Qed.

Example rnd_third : rnd (1 # 3) = Finite (6004799503160661 # 18014398509481984).
Proof. vm_compute. reflexivity. Qed.

(** The largest float, and the first rational that rounds to infinity. *)
Example rnd_largest :
  rnd (inject_Z (2 ^ 1024 - 2 ^ 970 - 1)) = Finite (inject_Z ((2 ^ 53 - 1) * 2 ^ 971)).
Proof. vm_compute. reflexivity. Qed.

Example rnd_overflow : rnd (inject_Z (2 ^ 1024 - 2 ^ 970)) = Infinity false.
Proof. vm_compute. reflexivity. Qed.

(** Half the smallest subnormal rounds to zero. *)
Example rnd_underflow : rnd (1 / inject_Z (2 ^ 1075)) = Finite 0.
Proof. vm_compute. reflexivity. Qed.

(** [round(2.675, 2)] is [2.67]: the float below the literal is rounded. *)
Example round2_below_half :
  option_map round2 (match float_of_str (u "2.675") with Ok x => Some x | Raise _ => None end)
  = Some (rnd (267 # 100)).
Proof. vm_compute. reflexivity. Qed.

(** [int(1.001 * 1000)] is [1000]: the product is the float below 1001. *)
Example kilo_truncates : extract_number (u "1.001K") = Ok (Some (PyInt 1000)).
Proof. vm_compute. reflexivity. Qed.

(** A lower-case [k] is no thousands mark. *)
Example small_k_ignored : parse_sold (u "3.2k sold") = Ok 3%Z.
Proof. vm_compute. reflexivity. Qed.

Example findall_prices :
  findall price_re (u "Nice WidgetRs. 500 Rs. 1,200 Rs,, Rs.5.5.5")
  = [u "500"; u "1,200"; u ",,"; u "5.5"].
Proof. vm_compute. reflexivity. Qed.

Example prices_skip_commas :
  parse_prices (u "Nice WidgetRs. 500 Rs. 1,200 Rs,, Rs.5.5.5")
  = Ok [Finite 500; Finite 1200; rnd (55 # 10)].
Proof. vm_compute. reflexivity. Qed.

(** [re.IGNORECASE] reads the long s as an [s]. *)
Example ignorecase_long_s :
  option_map group1 (search sold_re (u "3.2K+ " ++ [383] ++ u "OLD")) = Some (u "3.2K+").
Proof. vm_compute. reflexivity. Qed.

Example clean_title_example :
  clean_title (u "  Nice " ++ [10; 9] ++ u " Widget ") = u "Nice Widget".
Proof. vm_compute. reflexivity. Qed.

Example replace_leftmost : replace (u "aba") (u "x") (u "ababa") = u "xba".
Proof. vm_compute. reflexivity. Qed.

(** Lines of the writer: an only empty field is quoted, an empty row is
    a bare line end, special characters quote their field. *)
Example writer_lines :
  csv_text [[[]]; []; [u "a,b"; u "c" ++ [34] ++ u "d"; u "e" ++ [10] ++ u "f"; u " x "; []]]
  = [34; 34; 13; 10] ++ [13; 10]
    ++ [34] ++ u "a,b" ++ [34; 44]
    ++ [34] ++ u "c" ++ [34; 34] ++ u "d" ++ [34; 44]
    ++ [34] ++ u "e" ++ [10] ++ u "f" ++ [34; 44]
    ++ u " x ," ++ [13; 10].
Proof. vm_compute. reflexivity. Qed.

(** The title is made of the stripped text nodes: a blank at the end of
    a node is lost, and with it a character of the title. *)
Example split_title_loses_blank :
  let link :=
    {| el_node := Tag (u "a") [(u "href", scenario_a_href)]
                    [Tag (u "b") [] [NavigableString (u "ab ")];
                     Tag (u "b") [] [NavigableString (u "cde")]];
       el_parents := [document []] |} in
  claimed_title link = u "ab cde" /\
  clean_title (get_text_strip (el_node link)) = u "abcde" /\
  process_link 4300 link = Ok None.
Proof. vm_compute. repeat split; reflexivity. Qed.

(** Digits outside ASCII are digits for the patterns and for the
    conversions: the Arabic-Indic three alone, and before an ASCII
    five. *)
Example arabic_indic_number :
  extract_number [1635] = Ok (Some (PyFloat (Finite 3))) /\
  extract_number (u "12" ++ [1635]) = Ok (Some (PyFloat (Finite 123))) /\
  extract_price_from_text [1635] = Ok (Some (Finite 3)) /\
  parse_prices (u "Rs. 0." ++ [1637] ++ u " Rs. 7") = Ok [Finite (1 # 2); Finite 7].
Proof. vm_compute. repeat split; reflexivity. Qed.

Example arabic_indic_counts :
  parse_sold ([1635; 53] ++ u " sold") = Ok 35%Z /\
  parse_review 4300 ([1635; 53] ++ u " reviews") = Ok 35%Z /\
  parse_product_id (u "/pk-en/x-g-" ++ [1777; 1778] ++ u ".html") = [1777; 1778].
Proof. vm_compute. repeat split; reflexivity. Qed.

(** A row with a surrogate is not written, nor are the rows after it:
    the sink raises and the file keeps the header and the rows before. *)
Example surrogate_stops_the_sink :
  save_to_csv 4300 sample_repr
    [scenario_a_record; surrogate_title_record; scenario_a_record]
    "temu_products.csv" no_files
  = (write_file no_files "temu_products.csv"
       (csv_text [fieldnames; row_cells sample_repr scenario_a_record]),
     Raise UnicodeEncodeError).
Proof. vm_compute. reflexivity. Qed.

(** So does an integer [str] refuses to convert: 641 digits under a
    limit of 640. *)
Example huge_integer_stops_the_sink :
  save_to_csv 640 sample_repr [huge_review_record] "temu_products.csv" no_files
  = (write_file no_files "temu_products.csv" (csv_text [fieldnames]),
     Raise ValueError) /\
  snd (save_to_csv 0 sample_repr [huge_review_record] "temu_products.csv" no_files)
  = Ok tt.
Proof. vm_compute. split; reflexivity. Qed.

(* ====================================================================== *)
(** * The claims *)

(** C1.  Scenario A: a link with href [/pk-en/widget-thing-g-998877.html]
    and text [Nice Widget] in a container with the text
    [Rs. 500 Rs. 1,200 3.2K+ sold 4.7 out of 5 120 reviews] gives exactly
    the record with id 998877, that title, prices 500.0 and 1200.0,
    discount 58.33, 3200 sold, rating 4.7, 120 reviews and the absolute
    url.  The first part runs the loop body on the texts of the scenario;
    the second runs the whole extraction on a card with that link
    followed by that text (the text of the card then begins with the
    title). *)
Theorem scenario_a_extraction lim :
  build_record lim scenario_a_href (u "Nice Widget") scenario_a_text
    = Ok (Some scenario_a_record) /\
  parse_temu_html lim scenario_a_doc = [scenario_a_record].
Proof. split; vm_compute; reflexivity. Qed.

(** C2, as stated, fails: the rating is not bounded by 5.  The card
    [Rs. 250 out of stock] gets the rating 250.0. *)
Lemma rating_above_five :
  ~ (forall lim soup r,
        In r (parse_temu_html lim soup) -> rating_in_range (rating r)).
Proof.
  intros H. destruct out_of_stock_rating as (r & Hin & E).
  specialize (H _ _ _ Hin). rewrite E in H. simpl in H.
  destruct H as [_ H]. revert H. apply Qlt_not_le. reflexivity.
Qed.

(** C2, amended.  In every emitted record no numeric field is negative
    (both prices, discount, sold count, rating, review count), and the
    rating is the integer 0 when neither rating pattern matches the
    text of the container. *)
Theorem numeric_fields_not_negative lim soup r :
  In r (parse_temu_html lim soup) ->
  (forall x, current_price r = Some x -> fnegative x = false) /\
  (forall x, original_price r = Some x -> fnegative x = false) /\
  num_negative (discount_percent r) = false /\
  (0 <= sold_count r)%Z /\
  num_negative (rating r) = false /\
  (0 <= review_count r)%Z /\
  exists link,
    In link (actual_products soup) /\ process_link lim link = Ok (Some r) /\
    (search rating_re (parent_text_of link) = None ->
     search bare_rating_re (parent_text_of link) = None ->
     rating r = PyInt 0).
Proof.
  intros H. apply in_parse_temu_html in H as (link & Hin & E).
  pose proof E as E'. unfold process_link in E'.
  apply build_record_inv in E'
    as (prices & P & F & Ec & Eo & Ed & Es & Er & Ev & _).
  assert (Hc : forall x, current_price r = Some x -> nonneg x).
  { intros x Hx. rewrite Ec in Hx.
    apply positive_nonneg, (pick_current_positive F Hx). }
  assert (Ho : forall x, original_price r = Some x -> nonneg x).
  { intros x Hx. rewrite Eo in Hx.
    apply pick_original_spec in Hx as (c & rest & -> & G).
    apply (fgt_nonneg _ _ G). apply positive_nonneg. inversion F; assumption. }
  split; [intros x Hx; apply nonneg_not_negative, Hc, Hx|].
  split; [intros x Hx; apply nonneg_not_negative, Ho, Hx|].
  split.
  { destruct (compute_discount_ok (pick_current prices) (pick_original prices))
      as (d & D & [-> | (x & -> & Hx)]); rewrite D in Ed; injection Ed as <-.
    - reflexivity.
    - destruct (pick_current prices) as [c|] eqn:C.
      + apply nonneg_not_negative, (Hx c eq_refl), Hc. rewrite Ec. reflexivity.
      + unfold compute_discount in D. destruct (pick_original prices); discriminate. }
  split.
  { destruct (parse_sold_cases (parent_text_of link)) as [(z & Ez & Hz) | Ez];
      rewrite Ez in Es; [injection Es as <-; exact Hz | discriminate]. }
  split.
  { destruct (parse_rating_ok (parent_text_of link)) as (v & Ev' & Hv).
    rewrite Ev' in Er. injection Er as <-. exact Hv. }
  split.
  { destruct (parse_review_cases lim (parent_text_of link)) as [(z & Ez & Hz) | [Ez _]];
      rewrite Ez in Ev; [injection Ev as <-; exact Hz | discriminate]. }
  exists link. split; [exact Hin|]. split; [exact E|].
  intros S1 S2. unfold parse_rating in Er. rewrite S1, S2 in Er.
  injection Er as <-. reflexivity.
Qed.

Lemma numeric_fields_not_negative_witness :
  In scenario_a_record (parse_temu_html 4300 scenario_a_doc) /\
  (0 <= sold_count scenario_a_record)%Z /\
  num_negative (rating scenario_a_record) = false.
Proof.
  assert (H : In scenario_a_record (parse_temu_html 4300 scenario_a_doc))
    by (vm_compute; left; reflexivity).
  split; [exact H|].
  destruct (@numeric_fields_not_negative 4300 scenario_a_doc scenario_a_record H)
    as (_ & _ & _ & Hs & Hr & _).
  split; assumption.
Defined.

(** C3, as stated, fails: on a page with a [body] and no price, the
    container of a link inside a [div] is the [body], not the [div]. *)
Lemma container_stops_at_body :
  ~ (forall soup link, In link (actual_products soup) ->
       container link = nearest_currency_container link).
Proof.
  intros H. specialize (H body_doc body_link body_link_found).
  destruct body_link_containers as [C1 C2]. rewrite C1, C2 in H.
  vm_compute in H. discriminate H.
Qed.

(** C3, amended.  For every surviving link the container is found by
    walking up from the immediate parent: it is the nearest parent that
    is a [body] tag or whose text contains [Rs.]; when no parent up to
    the document is either, it is the immediate parent. *)
Theorem container_resolution soup link :
  In link (actual_products soup) ->
  exists p,
    container link = Some p /\
    ((exists below above,
        el_parents link = below ++ p :: above /\ stops_at p /\
        Forall (fun q => ~ stops_at q) below) \/
     (Forall (fun q => ~ stops_at q) (el_parents link) /\
      find_parent link = Some p)).
Proof.
  intros H. apply actual_products_in in H as (D & _).
  apply descendants_parents in D.
  unfold container. destruct (climb (el_parents link)) as [p|] eqn:C.
  - exists p. split; [reflexivity|]. left. apply climb_some, C.
  - unfold find_parent. destruct (el_parents link) as [|p above] eqn:E; [congruence|].
    exists p. split; [reflexivity|]. right. split; [|reflexivity].
    apply climb_none, C.
Qed.

Lemma container_resolution_witness :
  In body_link (actual_products body_doc) /\
  exists p, container body_link = Some p.
Proof.
  assert (H : In body_link (actual_products body_doc))
    by (vm_compute; left; reflexivity).
  split; [exact H|].
  destruct (@container_resolution body_doc body_link H) as (p & Hp & _).
  exists p. exact Hp.
Defined.

(** C4.  In every record the current price is the first of the positive
    prices parsed from the text of the container, in document order; the
    original price is present exactly when a second positive price
    exists and is greater than the first, and is that price; with one
    price only, the original price is absent and the discount is 0; the
    discount is [round((original - current) / original * 100, 2)] when
    both prices are present and the integer 0 otherwise.  The text
    [Rs. 750] holds the one price 750. *)
Theorem prices_and_discount lim soup r :
  In r (parse_temu_html lim soup) ->
  (exists link prices,
    In link (actual_products soup) /\
    process_link lim link = Ok (Some r) /\
    parse_prices (parent_text_of link) = Ok prices /\
    Forall positive prices /\
    current_price r = hd_error prices /\
    (forall o, original_price r = Some o <->
               exists c rest, prices = c :: o :: rest /\ fgt o c = true) /\
    (forall c, prices = [c] ->
               original_price r = None /\ discount_percent r = PyInt 0%Z) /\
    match current_price r, original_price r with
    | Some c, Some o =>
        exists q, fdiv (fsub o c) o = Ok q /\
                  discount_percent r = PyFloat (round2 (fmul q (Finite 100)))
    | _, _ => discount_percent r = PyInt 0%Z
    end) /\
  parse_prices (u "Rs. 750") = Ok [Finite 750].
Proof.
  intros H. split; [|vm_compute; reflexivity].
  apply in_parse_temu_html in H as (link & Hin & E).
  pose proof E as E'. unfold process_link in E'.
  apply build_record_inv in E' as (prices & P & F & Ec & Eo & Ed & _).
  exists link, prices. split; [exact Hin|]. split; [exact E|].
  split; [exact P|]. split; [exact F|].
  split; [rewrite Ec; destruct prices; reflexivity|].
  split.
  { intros o. rewrite Eo. split.
    - apply pick_original_spec.
    - intros (c & rest & -> & G). simpl. rewrite G. reflexivity. }
  split.
  { intros c ->. rewrite Eo. split; [reflexivity|].
    simpl in Ed. injection Ed as <-. reflexivity. }
  rewrite Ec, Eo. destruct prices as [|c [|o rest]]; simpl in *.
  - injection Ed as <-. reflexivity.
  - injection Ed as <-. reflexivity.
  - destruct (fgt o c) eqn:G.
    + assert (positive c) as Pc by (inversion F; assumption).
      assert (positive o) as Po.
      { inversion F as [|? ? _ F']; inversion F'; assumption. }
      unfold compute_discount in Ed.
      rewrite (positive_truth Po), (positive_truth Pc), G in Ed. simpl in Ed.
      destruct (fdiv (fsub o c) o) as [q|] eqn:Q; simpl in Ed; [|discriminate].
      injection Ed as <-. exists q. split; reflexivity.
    + simpl in Ed. injection Ed as <-. reflexivity.
Qed.

Lemma prices_and_discount_witness :
  In scenario_a_record (parse_temu_html 4300 scenario_a_doc) /\
  parse_prices (u "Rs. 750") = Ok [Finite 750].
Proof.
  assert (H : In scenario_a_record (parse_temu_html 4300 scenario_a_doc))
    by (vm_compute; left; reflexivity).
  split; [exact H|].
  exact (proj2 (@prices_and_discount 4300 scenario_a_doc scenario_a_record H)).
Defined.

(** C5, as stated, fails: a card with the title [Nice Widget] and a sold
    number of 401 digits is dropped, because the conversion of the sold
    count raises. *)
Lemma overflow_drops_valid_title :
  ~ (forall lim soup link,
        In link (actual_products soup) ->
        ((exists r, process_link lim link = Ok (Some r)) <->
         (5 < length (claimed_title link))%nat)).
Proof.
  intros H. destruct huge_sold_overflow as (Hin & T & E & _).
  apply (H 4300%nat) in Hin. apply Hin in T as [r T].
  rewrite E in T. discriminate T.
Qed.

(** C5, amended.  The title of a record is made of the texts under the
    anchor, each stripped, then concatenated, with whitespace runs
    collapsed to one blank and the ends trimmed; for an anchor with one
    text node this is the text of the anchor, collapsed and trimmed.  A
    link gives a record exactly when this title is longer than 5
    characters and neither the sold count nor the review count fails to
    convert.  The sold count fails only by overflow, and never for a
    number of at most 300 characters; the review count fails only when
    its digits are more than 640 and more than the interpreter's limit.
    A container where the sold and review patterns find nothing never
    drops a link whose title passes, whatever prices and rating it
    holds. *)
Theorem title_gate lim link :
  ((exists r, process_link lim link = Ok (Some r)) <->
   (5 < length (collapsed (get_text_strip (el_node link))))%nat /\
   (exists z, parse_sold (parent_text_of link) = Ok z) /\
   (exists z, parse_review lim (parent_text_of link) = Ok z)) /\
  (forall r, process_link lim link = Ok (Some r) ->
             title r = collapsed (get_text_strip (el_node link))) /\
  (forall nm attrs s, el_node link = Tag nm attrs [NavigableString s] ->
     collapsed (get_text_strip (el_node link)) = claimed_title link) /\
  ((forall z, parse_sold (parent_text_of link) <> Ok z) ->
   parse_sold (parent_text_of link) = Raise OverflowError) /\
  ((forall m, search sold_re (parent_text_of link) = Some m ->
              (length (group1 m) <= 300)%nat) ->
   exists z, parse_sold (parent_text_of link) = Ok z) /\
  ((forall z, parse_review lim (parent_text_of link) <> Ok z) ->
   exists m, search review_re (parent_text_of link) = Some m /\
             (640 < length (group1 m))%nat /\ (0 < lim < length (group1 m))%nat) /\
  (search sold_re (parent_text_of link) = None ->
   search review_re (parent_text_of link) = None ->
   ((exists r, process_link lim link = Ok (Some r)) <->
    (5 < length (collapsed (get_text_strip (el_node link))))%nat)).
Proof.
  set (text := parent_text_of link).
  set (raw := get_text_strip (el_node link)).
  assert (G : (exists r, process_link lim link = Ok (Some r)) <->
              (5 < length (collapsed raw))%nat /\
              (exists z, parse_sold text = Ok z) /\
              (exists z, parse_review lim text = Ok z)).
  { unfold process_link. fold text. fold raw.
    destruct (build_record_eq lim (get (el_node link) (u "href") []) raw text)
      as (prices & d & rv & _ & _ & _ & _ & ->).
    rewrite <- clean_title_collapsed, <- gate_length.
    destruct (parse_sold text) as [sold|e]; simpl.
    - destruct (parse_review lim text) as [review|e]; simpl.
      + destruct (nonempty (clean_title raw) && (5 <? length (clean_title raw))%nat).
        * split; [eauto 6 | eauto].
        * split; [intros [r H]; discriminate | intros (H & _); discriminate].
      + split; [intros [r H]; discriminate | intros (_ & _ & [z H]); discriminate].
    - split; [intros [r H]; discriminate | intros (_ & [z H] & _); discriminate]. }
  split; [exact G|]. split; [|split; [|split; [|split; [|split]]]].
  - intros r H. unfold process_link in H. fold raw in H.
    apply build_record_inv in H as (_ & _ & _ & _ & _ & _ & _ & _ & _ & T & _).
    rewrite T. apply clean_title_collapsed.
  - intros nm attrs s E. unfold claimed_title, raw. rewrite E.
    unfold get_text_strip, collapsed. simpl.
    destruct (nonempty (strip s)) eqn:N; simpl; rewrite ?app_nil_r.
    + apply f_equal, words_strip.
    + destruct (strip s) eqn:S; [|discriminate].
      rewrite <- (words_strip s), S. reflexivity.
  - intros H. destruct (parse_sold_cases text) as [(z & Ez & _) | Ez]; [|exact Ez].
    exfalso. exact (H z Ez).
  - apply parse_sold_short.
  - intros H. destruct (parse_review_cases lim text) as [(z & Ez & _) | [_ Ez]]; [|exact Ez].
    exfalso. exact (H z Ez).
  - intros S1 S2. rewrite G. unfold parse_sold, parse_review. rewrite S1, S2.
    split; [tauto | eauto].
Qed.

(** C6.  A link whose href contains a denylisted fragment (such as
    [category] or [search]), or is not longer than 30 characters, or has
    no hyphen, is not among the links the extraction loop runs on; every
    record comes from another link, one whose href is not excluded. *)
Theorem denylisted_links_excluded lim soup link :
  excluded (href_of link) ->
  ~ In link (actual_products soup) /\
  (forall r, In r (parse_temu_html lim soup) ->
     exists link', In link' (actual_products soup) /\ link' <> link /\
                   ~ excluded (href_of link') /\
                   process_link lim link' = Ok (Some r)).
Proof.
  intros X. apply excluded_not_actual in X.
  assert (N : ~ In link (actual_products soup)).
  { intros H. apply actual_products_in in H as (_ & _ & H).
    unfold href_of in X. congruence. }
  split; [exact N|].
  intros r H. apply in_parse_temu_html in H as (link' & Hin & E).
  exists link'. split; [exact Hin|]. split; [congruence|]. split; [|exact E].
  intros X'. apply excluded_not_actual in X'.
  apply actual_products_in in Hin as (_ & _ & Hin). unfold href_of in X'. congruence.
Qed.

Lemma denylisted_links_excluded_witness :
  excluded (href_of category_link) /\
  ~ In category_link (actual_products category_doc) /\
  parse_temu_html 4300 category_doc = [].
Proof.
  assert (X : excluded (href_of category_link)).
  { left. exists (u "category"). split; [simpl; auto|].
    exists (u "/pk-en/"), (u "-widget-thing-g-998877.html"). reflexivity. }
  split; [exact X|].
  split; [|vm_compute; reflexivity].
  exact (proj1 (@denylisted_links_excluded 4300 category_doc category_link X)).
Defined.

(** C7.  For a non-empty list of products the sink writes, under the
    header line [Product ID,Title,Current Price (Rs.),Original Price
    (Rs.),Discount (%),Items Sold,Rating (Stars),Review Count,Product
    URL], one line per product with the cells in the order id, title,
    current price, original price, discount, items sold, rating, review
    count, url.  The products are written in their order up to the
    first one whose row cannot be written (an integer [str] refuses, a
    surrogate in a cell), and all of them when there is none; then the
    sink returns.  An absent price gives an empty cell, written as
    nothing, and a present price that is not zero gives its [repr];
    discount, sold count, rating and review count give [str] of the
    number, so never an empty cell, and [0] for the default. *)
Theorem csv_layout lim float_repr products output_file fs :
  (forall x, float_repr x <> []) ->
  products <> [] ->
  (exists rest,
     products = written lim float_repr products ++ rest /\
     fst (save_to_csv lim float_repr products output_file fs) output_file
     = Some (csv_text (fieldnames :: map (row_cells float_repr)
                                         (written lim float_repr products)))) /\
  (forallb (writable lim float_repr) products = true ->
   save_to_csv lim float_repr products output_file fs
   = (write_file fs output_file
        (csv_text (fieldnames :: map (row_cells float_repr) products)), Ok tt)) /\
  Csv.writerow fieldnames
  = u "Product ID,Title,Current Price (Rs.),Original Price (Rs.),Discount (%),Items Sold,Rating (Stars),Review Count,Product URL"
    ++ [13; 10] /\
  Csv.write_field [] = [] /\
  forall p,
    exists cur orig disc sold rat rev,
      row_cells float_repr p
      = [product_id p; title p; cur; orig; disc; sold; rat; rev; url p] /\
      (current_price p = None -> cur = []) /\
      (forall x, current_price p = Some x -> ftruth x = true -> cur = float_repr x) /\
      (original_price p = None -> orig = []) /\
      (forall x, original_price p = Some x -> ftruth x = true -> orig = float_repr x) /\
      disc <> [] /\ sold <> [] /\ rat <> [] /\ rev <> [] /\
      (forall z, discount_percent p = PyInt z -> disc = str_of_int z) /\
      (forall x, discount_percent p = PyFloat x -> disc = float_repr x) /\
      sold = str_of_int (sold_count p) /\
      (forall z, rating p = PyInt z -> rat = str_of_int z) /\
      (forall x, rating p = PyFloat x -> rat = float_repr x) /\
      rev = str_of_int (review_count p) /\
      (discount_percent p = PyInt 0%Z -> disc = u "0") /\
      (sold_count p = 0%Z -> sold = u "0") /\
      (rating p = PyInt 0%Z -> rat = u "0") /\
      (review_count p = 0%Z -> rev = u "0").
Proof.
  intros R Hne.
  split.
  { destruct (written_prefix lim float_repr products) as [rest E].
    exists rest. split; [exact E|].
    rewrite (save_to_csv_file lim float_repr output_file fs Hne).
    apply write_file_read. }
  split; [apply save_to_csv_content, Hne|].
  split; [vm_compute; reflexivity|].
  split; [reflexivity|].
  intros p. do 6 eexists. split; [reflexivity|].
  assert (T : forall v, cell_text float_repr (CNum v) <> []).
  { intros [z|x]; simpl; [apply str_of_int_nonempty | apply R]. }
  split; [intros ->; reflexivity|].
  split; [intros x -> Tx; cbn [price_cell]; rewrite Tx; reflexivity|].
  split; [intros ->; reflexivity|].
  split; [intros x -> Tx; cbn [price_cell]; rewrite Tx; reflexivity|].
  split; [apply T|]. split; [apply str_of_int_nonempty|].
  split; [apply T|]. split; [apply str_of_int_nonempty|].
  split; [intros z ->; reflexivity|].
  split; [intros x ->; reflexivity|].
  split; [reflexivity|].
  split; [intros z ->; reflexivity|].
  split; [intros x ->; reflexivity|].
  split; [reflexivity|].
  split; [intros ->; reflexivity|].
  split; [intros ->; reflexivity|].
  split; intros ->; reflexivity.
Qed.

Lemma csv_layout_witness :
  (forall x : pyfloat, sample_repr x <> []) /\
  [scenario_a_record] <> [] /\
  save_to_csv 4300 sample_repr [scenario_a_record] "temu_products.csv" no_files
  = (write_file no_files "temu_products.csv"
       (csv_text [fieldnames; row_cells sample_repr scenario_a_record]), Ok tt).
Proof.
  assert (R : forall x : pyfloat, sample_repr x <> [])
    by (intros x; discriminate).
  assert (N : [scenario_a_record] <> []) by discriminate.
  split; [exact R|]. split; [exact N|].
  exact (proj1 (proj2 (@csv_layout 4300 sample_repr [scenario_a_record]
                         "temu_products.csv"%string no_files R N)) eq_refl).
Defined.

(** C8.  On the empty document, and on any document without product
    links, the extractor returns the empty list; on the empty list the
    sink leaves the files as they are and returns normally. *)
Theorem empty_input_no_output lim float_repr output_file fs :
  parse_temu_html lim (document []) = [] /\
  (forall soup, product_links soup = [] -> parse_temu_html lim soup = []) /\
  save_to_csv lim float_repr [] output_file fs = (fs, Ok tt) /\
  save_to_csv lim float_repr (parse_temu_html lim (document [])) output_file fs
  = (fs, Ok tt).
Proof.
  split; [reflexivity|]. split; [|split; reflexivity].
  intros soup H. unfold parse_temu_html, actual_products. rewrite H. reflexivity.
Qed.

(** C9, as stated, fails for N = 0: the sink then writes no file, hence
    no header to read back. *)
Lemma no_header_for_zero_records :
  ~ (forall (lim : nat) (float_repr : pyfloat -> pystr) (products : list product)
            (output_file : string) (fs : filesystem),
        exists content,
          fst (save_to_csv lim float_repr products output_file fs) output_file
          = Some content /\
          Csv.reader content = fieldnames :: map (row_cells float_repr) products).
Proof.
  intros H.
  destruct (H 4300%nat sample_repr [] "temu_products.csv"%string no_files)
    as (content & E & _).
  discriminate E.
Qed.

(** C9, amended.  For every N >= 1 and every list of N records, the
    file the sink leaves, read back by the reader of the dialect, gives
    the header and then one row for each record written, the cells of
    the records in order; the second cell of each row is the title of
    its record, unescaped, whatever characters it holds.  The records
    written are those before the first one the sink cannot write (an
    integer [str] refuses, a surrogate in a cell).  When every record
    can be written the sink returns and the rows are N. *)
Theorem csv_round_trip lim float_repr products output_file fs :
  products <> [] ->
  exists content,
    fst (save_to_csv lim float_repr products output_file fs) output_file = Some content /\
    Csv.reader content
    = fieldnames :: map (row_cells float_repr) (written lim float_repr products) /\
    map (fun row => nth 1 row []) (tl (Csv.reader content))
    = map title (written lim float_repr products) /\
    (forallb (writable lim float_repr) products = true ->
     save_to_csv lim float_repr products output_file fs
     = (write_file fs output_file content, Ok tt) /\
     Csv.reader content = fieldnames :: map (row_cells float_repr) products /\
     length (Csv.reader content) = S (length products) /\
     map (fun row => nth 1 row []) (tl (Csv.reader content)) = map title products).
Proof.
  intros Hne. eexists.
  rewrite (save_to_csv_file lim float_repr output_file fs Hne).
  split; [apply write_file_read|].
  unfold csv_text. rewrite reader_writer.
  split; [reflexivity|].
  split; [cbn [tl]; rewrite map_map; reflexivity|].
  intros W. rewrite (written_all _ _ _ W).
  split; [apply (save_to_csv_content lim float_repr output_file fs Hne W)|].
  split; [reflexivity|]. split; [simpl; rewrite length_map; reflexivity|].
  simpl. rewrite map_map. reflexivity.
Qed.

Lemma csv_round_trip_witness :
  [awkward_title_record] <> [] /\
  exists content,
    fst (save_to_csv 4300 sample_repr [awkward_title_record]
           "temu_products.csv" no_files) "temu_products.csv"%string
    = Some content /\
    map (fun row => nth 1 row []) (tl (Csv.reader content))
    = [title awkward_title_record].
Proof.
  assert (N : [awkward_title_record] <> []) by discriminate.
  split; [exact N|].
  destruct (@csv_round_trip 4300 sample_repr [awkward_title_record]
              "temu_products.csv"%string no_files N)
    as (content & E & _ & _ & W).
  exists content. split; [exact E|].
  exact (proj2 (proj2 (proj2 (W eq_refl)))).
Defined.

(** C10.  A node survives the discovery exactly when it is an [a] tag of
    the document whose href has [/pk-en/], later [.html] and no line
    feed between them, contains none of [channel], [home-kitchen],
    [category], [search], is longer than 30 characters and contains a
    hyphen.  Every record comes from such a link, so from an href longer
    than 30 characters; a product address of exactly 30 characters gives
    no record. *)
Theorem anchor_filter soup link :
  (In link (actual_products soup) <->
   In link (descendants [] soup) /\
   exists attrs contents href,
     el_node link = Tag (u "a") attrs contents /\
     lookup (u "href") attrs = Some href /\
     product_url_shape href /\
     ~ substring (u "channel") href /\
     ~ substring (u "home-kitchen") href /\
     ~ substring (u "category") href /\
     ~ substring (u "search") href /\
     (30 < length href)%nat /\
     substring (u "-") href) /\
  (forall lim r, In r (parse_temu_html lim soup) ->
     exists link', In link' (actual_products soup) /\
                   process_link lim link' = Ok (Some r) /\
                   (30 < length (href_of link'))%nat) /\
  (length short_href = 30%nat /\ product_url_shape short_href /\
   forall lim, parse_temu_html lim short_doc = []).
Proof.
  split; [|split].
  - rewrite actual_products_in, tag_matches_spec. split.
    + intros (D & (attrs & contents & href & E & L & S) & A).
      split; [exact D|]. exists attrs, contents, href.
      rewrite E in A. simpl in A. rewrite L in A.
      apply is_actual_product_spec in A. tauto.
    + intros (D & attrs & contents & href & E & L & S & A).
      split; [exact D|]. split; [eauto 7|].
      rewrite E. simpl. rewrite L. apply is_actual_product_spec. tauto.
  - intros lim r H. apply in_parse_temu_html in H as (link' & Hin & E).
    exists link'. split; [exact Hin|]. split; [exact E|].
    apply actual_products_in in Hin as (_ & _ & A).
    apply is_actual_product_spec in A. unfold href_of. tauto.
  - split; [reflexivity|]. split; [|intros lim; vm_compute; reflexivity].
    exists [], (u "widget-thing-g-998"), []. split; [reflexivity|].
    apply no_newline_spec. reflexivity.
Qed.

(* ====================================================================== *)
(** * Further properties of the code *)

(** X1.  [extract_number] returns [None] exactly for a text without
    digit.  It raises nothing but [OverflowError], and only for a text
    that holds the letter [K]. *)
Theorem extract_number_none_iff t :
  (extract_number t = Ok None <-> no_digit t) /\
  (forall e, extract_number t = Raise e ->
             e = OverflowError /\ existsb (chr_eqb 75) t = true).
Proof.
  assert (Hraise : forall e, extract_number t = Raise e -> e = OverflowError).
  { intros e H. destruct (extract_number_cases t) as [(v & E & _) | E]; congruence. }
  destruct t as [|c0 t0]; [split; [split; reflexivity | discriminate]|].
  set (t := c0 :: t0) in *.
  assert (Hd : no_digit (without_separators t) <-> no_digit t).
  { rewrite !no_digit_filter, without_separators_digits. reflexivity. }
  unfold extract_number in *. change (negb (nonempty t)) with false in *. cbv iota in *.
  rewrite number_text in *. set (t' := without_separators t) in *.
  destruct (if contains (u "K+") t' || contains (u "K") t'
            then search k_number_re t' else None) as [m|] eqn:K.
  - destruct (contains (u "K+") t' || contains (u "K") t') eqn:C; [|discriminate].
    assert (HK : existsb (chr_eqb 75) t = true).
    { apply existsb_without_separators. fold t'.
      apply orb_prop in C as [C | C]; apply (contains_head _ _ _ C). }
    assert (ND : ~ no_digit t).
    { intros N. apply Hd in N.
      rewrite (@search_no_digit k_number_re t' is_digit) in K; auto. discriminate. }
    pose proof K as K'.
    apply (@search_group_numeral k_number_re t' m matches_k_number) in K'.
    destruct (float_of_str_numeral K') as (x & E & _). rewrite E in *. cbn [bind] in *.
    split.
    + split; [|intros N; contradiction].
      destruct (int_of_float (fmul x (Finite 1000))); discriminate.
    + intros e H. split; [apply Hraise, H | exact HK].
  - destruct (search number_re t') as [m|] eqn:S.
    + pose proof S as S'. apply search_number_numeral in S'.
      destruct (float_of_str_numeral S') as (x & E & _). rewrite E. cbn [bind].
      split; [|discriminate].
      split; [discriminate|]. intros N. apply Hd, search_number_none in N. congruence.
    + split; [|discriminate].
      split; [|reflexivity]. intros _. apply Hd, search_number_none, S.
Qed.

(** X2.  Commas and blanks are ignored wherever they stand:
    [extract_number] gives for a text what it gives for the text
    without them. *)
Theorem extract_number_ignores_separators t :
  extract_number t = extract_number (without_separators t).
Proof.
  unfold extract_number. rewrite !number_text, without_separators_idem.
  destruct t as [|c t]; [reflexivity|].
  change (negb (nonempty (c :: t))) with false. cbv iota.
  destruct (without_separators (c :: t)) as [|d t'] eqn:E; reflexivity.
Qed.

(** X3.  A numeral followed by [K], after commas and blanks are taken
    out, is read as [int(float(numeral) * 1000)] whatever follows; for a
    whole number of at most 12 digits this is exactly a thousand times
    the number. *)
Theorem extract_number_kilo t w rest :
  without_separators t = w ++ u "K" ++ rest -> numeral w ->
  extract_number t
  = (x <- float_of_str w ;; z <- int_of_float (fmul x (Finite 1000)) ;; Ok (Some (PyInt z))) /\
  (all_digits_p w -> (length w <= 12)%nat ->
   extract_number t = Ok (Some (PyInt (digits_val w * 1000)))).
Proof.
  intros E Nw. change (u "K") with [75] in E. cbn [app] in E.
  pose proof (@extract_number_kilo_eq t w rest E Nw) as G.
  split; [exact G|]. intros D L. rewrite G.
  assert (Hne : w <> []) by apply (numeral_nonempty Nw).
  rewrite float_of_str_integer by (auto; lia). cbn [bind].
  rewrite kilo_integer; [reflexivity|].
  pose proof (digits_val_small D L) as B. exact B.
Qed.

Lemma extract_number_kilo_witness :
  without_separators (u "12,500 K+") = u "12500" ++ u "K" ++ u "+" /\
  numeral (u "12500") /\
  extract_number (u "12,500 K+") = Ok (Some (PyInt 12500000)).
Proof.
  assert (E : without_separators (u "12,500 K+") = u "12500" ++ u "K" ++ u "+")
    by reflexivity.
  assert (Nw : numeral (u "12500")).
  { exists (u "12500"), []. repeat split; [discriminate | left; reflexivity]. }
  assert (D : all_digits_p (u "12500")) by reflexivity.
  assert (L : (length (u "12500") <= 12)%nat) by (simpl; lia).
  split; [exact E|]. split; [exact Nw|].
  exact (proj2 (@extract_number_kilo (u "12,500 K+") (u "12500") (u "+") E Nw) D L).
Defined.

(** X4.  A numeral that is not followed by a digit, a point or, anywhere
    later, the letter [K], is read as [float(numeral)]; a whole number
    of at most 15 digits is read exactly, thousands separators and
    blanks left out. *)
Theorem extract_number_plain t w rest :
  without_separators t = w ++ rest -> numeral w ->
  stops (fun c => is_digit c || (c =? 46)) rest ->
  existsb (chr_eqb 75) rest = false ->
  extract_number t = (x <- float_of_str w ;; Ok (Some (PyFloat x))) /\
  (all_digits_p w -> (length w <= 15)%nat ->
   extract_number t = Ok (Some (PyFloat (Finite (inject_Z (digits_val w)))))).
Proof.
  intros E Nw R NK.
  assert (Hne : w <> []) by apply (numeral_nonempty Nw).
  pose proof (@extract_number_plain_eq t w rest E Nw R NK) as G.
  split; [exact G|]. intros D L. rewrite G.
  rewrite float_of_str_integer by auto. reflexivity.
Qed.

Lemma extract_number_plain_witness :
  without_separators (u "1,234,567+") = u "1234567" ++ u "+" /\
  numeral (u "1234567") /\
  extract_number (u "1,234,567+") = Ok (Some (PyFloat (Finite 1234567))).
Proof.
  assert (E : without_separators (u "1,234,567+") = u "1234567" ++ u "+") by reflexivity.
  assert (Nw : numeral (u "1234567")).
  { exists (u "1234567"), []. repeat split; [discriminate | left; reflexivity]. }
  assert (R : stops (fun c => is_digit c || (c =? 46)) (u "+")) by reflexivity.
  assert (NK : existsb (chr_eqb 75) (u "+") = false) by reflexivity.
  assert (D : all_digits_p (u "1234567")) by reflexivity.
  assert (L : (length (u "1234567") <= 15)%nat) by (simpl; lia).
  split; [exact E|]. split; [exact Nw|].
  exact (proj2 (@extract_number_plain (u "1,234,567+") (u "1234567") (u "+") E Nw R NK) D L).
Defined.

(** X5.  [extract_price_from_text] never raises.  It returns [None]
    exactly for a text without digit; a price it returns is a binary64
    value that is neither negative nor NaN. *)
Theorem extract_price_total t :
  exists v, extract_price_from_text t = Ok v /\
            (v = None <-> no_digit t) /\
            (forall x, v = Some x -> nonneg x /\ x <> NaN /\ is_binary64 x).
Proof.
  unfold extract_price_from_text.
  destruct t as [|c0 t0].
  { exists None. split; [reflexivity|]. split; [split; reflexivity|].
    intros x H. discriminate H. }
  set (t := c0 :: t0). change (negb (nonempty t)) with false. cbv iota zeta.
  pose proof (price_text_digits t) as D.
  set (t' := strip _) in *.
  assert (Hd : no_digit t' <-> no_digit t) by (rewrite !no_digit_filter, D; reflexivity).
  destruct (search number_re t') as [m|] eqn:S.
  - pose proof S as S'. apply search_number_numeral in S'.
    destruct (float_of_str_numeral S') as (x & E & Hx). rewrite E. cbn [bind].
    exists (Some x). split; [reflexivity|]. split.
    + split; [discriminate|]. intros N. apply Hd, search_number_none in N. congruence.
    + intros y Hy. injection Hy as <-. split; [exact Hx|]. split.
      * apply (@float_of_str_not_nan (m_whole m) x E).
      * apply (@float_of_str_binary64 (m_whole m) x E).
  - exists None. split; [reflexivity|]. split.
    + split; [|reflexivity]. intros _. apply Hd, search_number_none, S.
    + intros x H. discriminate H.
Qed.

(** X6.  A price written as [Rs.] or [Rs] (or nothing), blanks, and a
    numeral with thousands separators is read as the numeral without
    its commas: the price is [float] of that numeral; a whole number of
    at most 15 digits is read exactly. *)
Theorem extract_price_grouped prefix ws p :
  prefix = [] \/ prefix = u "Rs." \/ prefix = u "Rs" ->
  all_space ws -> numeral (without_commas p) ->
  extract_price_from_text (prefix ++ ws ++ p)
  = (x <- float_of_str (without_commas p) ;; Ok (Some x)) /\
  (all_digits_p (without_commas p) -> (length (without_commas p) <= 15)%nat ->
   extract_price_from_text (prefix ++ ws ++ p)
   = Ok (Some (Finite (inject_Z (digits_val (without_commas p)))))).
Proof.
  intros Hp A Nw. set (w := without_commas p) in *.
  assert (G : extract_price_from_text (prefix ++ ws ++ p)
              = (x <- float_of_str w ;; Ok (Some x))).
  { unfold extract_price_from_text.
    assert (Ne : negb (nonempty (prefix ++ ws ++ p)) = false).
    { destruct (@grouped_numeral_head p Nw) as (c & p' & -> & _).
      destruct prefix; [destruct ws|]; reflexivity. }
    rewrite Ne. cbv zeta.
    rewrite (@price_text_marked prefix ws p Hp A Nw). fold w.
    rewrite <- (app_nil_r w) at 1.
    rewrite (@search_number_here w [] Nw I). reflexivity. }
  split; [exact G|]. intros D L. rewrite G.
  rewrite float_of_str_integer; [reflexivity | apply (numeral_nonempty Nw) | exact D | exact L].
Qed.

Lemma extract_price_grouped_witness :
  all_space (u " ") /\ numeral (without_commas (u "1,250,000")) /\
  extract_price_from_text (u "Rs. 1,250,000") = Ok (Some (Finite 1250000)).
Proof.
  assert (Hp : u "Rs." = [] \/ u "Rs." = u "Rs." \/ u "Rs." = u "Rs")
    by (right; left; reflexivity).
  assert (A : all_space (u " ")) by reflexivity.
  assert (Nw : numeral (without_commas (u "1,250,000"))).
  { exists (u "1250000"), []. repeat split; [discriminate | left; reflexivity]. }
  assert (D : all_digits_p (without_commas (u "1,250,000"))) by reflexivity.
  assert (L : (length (without_commas (u "1,250,000")) <= 15)%nat) by (simpl; lia).
  split; [exact A|]. split; [exact Nw|].
  exact (proj2 (@extract_price_grouped (u "Rs.") (u " ") (u "1,250,000") Hp A Nw) D L).
Defined.

(** X7.  Prices are read only after the marker [Rs]: a text without
    [Rs] has no price, so a record with a price has [Rs] in the text of
    its container.  The dot is not needed for a price, though it is for
    choosing the container: [Rs 500] holds the price 500 and does not
    hold [Rs.]. *)
Theorem prices_need_marker :
  (forall t, ~ substring (u "Rs") t -> parse_prices t = Ok []) /\
  (forall lim soup r, In r (parse_temu_html lim soup) -> current_price r <> None ->
     exists link, In link (actual_products soup) /\
                  process_link lim link = Ok (Some r) /\
                  substring (u "Rs") (parent_text_of link)) /\
  (parse_prices (u "Rs 500") = Ok [Finite 500] /\
   contains (u "Rs.") (u "Rs 500") = false).
Proof.
  split; [exact parse_prices_no_marker|]. split; [|split; vm_compute; reflexivity].
  intros lim soup r H Hc. apply in_parse_temu_html in H as (link & Hin & E).
  exists link. split; [exact Hin|]. split; [exact E|].
  unfold process_link in E. apply build_record_inv in E as (prices & P & _ & Ec & _).
  destruct (contains (u "Rs") (parent_text_of link)) eqn:C; [apply contains_spec, C|].
  exfalso. apply contains_false in C.
  rewrite (parse_prices_no_marker C) in P. injection P as <-. apply Hc, Ec.
Qed.

(** X8.  The discount of a record is a percentage: the integer 0, or a
    float between 0 and 100.  The one exception is an original price too
    large for a float: it is infinite, and the discount is NaN. *)
Theorem discount_is_percentage lim soup r :
  In r (parse_temu_html lim soup) ->
  discount_percent r = PyInt 0 \/
  (exists q, discount_percent r = PyFloat (Finite q) /\ (0 <= q)%Q /\ (q <= 100)%Q) \/
  (discount_percent r = PyFloat NaN /\ original_price r = Some (Infinity false)).
Proof.
  intros H. apply in_parse_temu_html in H as (link & _ & E).
  unfold process_link in E.
  apply build_record_inv in E as (prices & P & F & Ec & Eo & Ed & _).
  pose proof (parse_prices_binary64 _ P) as B.
  destruct prices as [|c [|o rest]]; cbn [pick_current pick_original] in *.
  - injection Ed as <-. left. reflexivity.
  - injection Ed as <-. left. reflexivity.
  - destruct (fgt o c) eqn:G.
    + assert (Pc : positive c) by (inversion F; assumption).
      assert (Po : positive o) by (inversion F as [|? ? _ F']; inversion F'; assumption).
      assert (Bo : is_binary64 o) by (inversion B as [|? ? _ B']; inversion B'; assumption).
      destruct (@compute_discount_range c o (discount_percent r) Pc Po Bo Ed)
        as [D | [D | [D Io]]].
      * left. exact D.
      * right. left. exact D.
      * right. right. split; [exact D|]. rewrite Eo, Io. reflexivity.
    + cbn [compute_discount] in Ed. injection Ed as <-. left. reflexivity.
Qed.

Lemma discount_is_percentage_witness :
  In scenario_a_record (parse_temu_html 4300 scenario_a_doc) /\
  exists q, discount_percent scenario_a_record = PyFloat (Finite q) /\
            (0 <= q)%Q /\ (q <= 100)%Q.
Proof.
  assert (H : In scenario_a_record (parse_temu_html 4300 scenario_a_doc))
    by (vm_compute; left; reflexivity).
  split; [exact H|].
  destruct (@discount_is_percentage 4300 scenario_a_doc scenario_a_record H)
    as [D | [D | [D _]]]; [discriminate D | exact D | discriminate D].
Defined.

(** X9.  When the sold pattern finds a match, what it captures is a
    numeral, then maybe [k], [K] or the Kelvin sign, then maybe [+].
    The sold count is [int(float(numeral) * 1000)] after a capital [K]
    and [int(float(numeral))] otherwise: the lower-case [k] and the
    Kelvin sign do not multiply.  For a whole number of at most 12
    digits the count is exact. *)
Theorem sold_count_value text m :
  search sold_re text = Some m ->
  exists w k p,
    group1 m = w ++ k ++ p /\ numeral w /\
    (k = [] \/ k = [75] \/ k = [107] \/ k = [8490]) /\ (p = [] \/ p = [43]) /\
    parse_sold text
    = (x <- float_of_str w ;;
       int_of_float (if str_eqb k [75] then fmul x (Finite 1000) else x)) /\
    (all_digits_p w -> (length w <= 12)%nat ->
     parse_sold text
     = Ok (if str_eqb k [75] then (digits_val w * 1000)%Z else digits_val w)).
Proof.
  intros S. pose proof (search_sound _ _ S) as [_ M].
  apply matches_sold in M as (w & k & p & G & Nw & Hk & Hp).
  assert (Hk' : k = [] \/ k = [75] \/ k = [107] \/ k = [8490]).
  { destruct Hk as [-> | (c & -> & Hc)]; [auto|].
    destruct (ci_k_cases c Hc) as [-> | [-> | ->]]; auto. }
  exists w, k, p. unfold group1. rewrite G.
  split; [reflexivity|]. split; [exact Nw|]. split; [exact Hk'|]. split; [exact Hp|].
  assert (V : parse_sold text
              = (x <- float_of_str w ;;
                 int_of_float (if str_eqb k [75] then fmul x (Finite 1000) else x))).
  { unfold parse_sold. rewrite S. unfold group1. rewrite G.
    apply (sold_of_group Nw Hk' Hp). }
  split; [exact V|]. intros D L. rewrite V.
  rewrite float_of_str_integer by (auto using numeral_nonempty; lia). cbn [bind].
  destruct (str_eqb k [75]).
  - apply kilo_integer. apply (digits_val_small D L).
  - apply int_of_float_integer.
Qed.

Lemma sold_count_value_witness :
  search sold_re scenario_a_text
  = Some {| m_before := u "Rs. 500 Rs. 1,200 "; m_whole := u "3.2K+ sold";
            m_group := Some (u "3.2K+"); m_after := u " 4.7 out of 5 120 reviews" |} /\
  exists w k p,
    u "3.2K+" = w ++ k ++ p /\ numeral w /\
    parse_sold scenario_a_text
    = (x <- float_of_str w ;;
       int_of_float (if str_eqb k [75] then fmul x (Finite 1000) else x)).
Proof.
  assert (S : search sold_re scenario_a_text
              = Some {| m_before := u "Rs. 500 Rs. 1,200 "; m_whole := u "3.2K+ sold";
                        m_group := Some (u "3.2K+");
                        m_after := u " 4.7 out of 5 120 reviews" |})
    by (vm_compute; reflexivity).
  split; [exact S|].
  destruct (@sold_count_value scenario_a_text _ S) as (w & k & p & G & Nw & _ & _ & V & _).
  exists w, k, p. split; [exact G|]. split; [exact Nw | exact V].
Defined.

(** X10.  After a text without digit, a whole number of at most 15
    digits followed by blanks and the word [sold] is the sold count,
    exactly.  A thousands separator cuts the number: when digits and a
    comma stand before it, the count is still the number after the
    comma, so [1,234 sold] counts 234. *)
Theorem sold_count_read pre ds sp post :
  no_digit pre -> ds <> [] -> all_digits_p ds -> (length ds <= 15)%nat ->
  all_space sp ->
  parse_sold (pre ++ ds ++ sp ++ u "sold" ++ post) = Ok (digits_val ds) /\
  (forall ds1, all_digits_p ds1 ->
     parse_sold (pre ++ ds1 ++ u "," ++ ds ++ sp ++ u "sold" ++ post)
     = Ok (digits_val ds)).
Proof.
  intros N Hne D L A.
  assert (Hd : forall c, is_digit c = true -> is_digit c = true) by auto.
  split.
  - apply parse_sold_at; auto.
    apply (@quiet_no_digit sold_re is_digit pre _ eq_refl Hd N).
  - intros ds1 D1. set (tail := ds ++ sp ++ u "sold" ++ post).
    replace (pre ++ ds1 ++ u "," ++ tail) with ((pre ++ ds1 ++ [44]) ++ tail)
      by (rewrite <- !app_assoc; reflexivity).
    apply parse_sold_at; auto.
    apply quiet_app; [apply (@quiet_no_digit sold_re is_digit pre _ eq_refl Hd N)|].
    apply quiet_app; [apply (quiet_before_comma tail D1)|].
    apply (@quiet_no_digit sold_re is_digit [44] tail eq_refl Hd). reflexivity.
Qed.

Lemma sold_count_read_witness :
  no_digit (u "Nice Widget ") /\ all_digits_p (u "234") /\
  parse_sold (u "Nice Widget 1,234 sold") = Ok 234%Z.
Proof.
  assert (N : no_digit (u "Nice Widget ")) by reflexivity.
  assert (Hne : u "234" <> []) by discriminate.
  assert (D : all_digits_p (u "234")) by reflexivity.
  assert (L : (length (u "234") <= 15)%nat) by (simpl; lia).
  assert (A : all_space (u " ")) by reflexivity.
  assert (D1 : all_digits_p (u "1")) by reflexivity.
  split; [exact N|]. split; [exact D|].
  exact (proj2 (@sold_count_read (u "Nice Widget ") (u "234") (u " ") [] N Hne D L A)
           (u "1") D1).
Defined.

(** X11.  A rating read by the first pattern from a numeral with one
    digit before its point (or one digit alone) lies between 0 and 6; a
    rating read by the second pattern, the one for standalone ratings,
    lies between 4 and 6.  Both can pass 5: [5.9] is read as it is. *)
Theorem rating_range text :
  (forall m, search rating_re text = Some m -> one_leading_digit (group1 m) ->
     exists q, parse_rating text = Ok (PyFloat (Finite q)) /\ (0 <= q)%Q /\ (q <= 6)%Q) /\
  (forall m, search rating_re text = None -> search bare_rating_re text = Some m ->
     exists q, parse_rating text = Ok (PyFloat (Finite q)) /\ (4 <= q)%Q /\ (q <= 6)%Q) /\
  parse_rating (u "5.9 out of 5") = Ok (PyFloat (rnd (59 # 10))).
Proof.
  split; [|split; [|vm_compute; reflexivity]].
  - intros m S L. pose proof (search_sound _ _ S) as [_ M].
    apply matches_rating_shape in M as (c & dot & ds & G & Hc & Hd & D).
    unfold parse_rating. rewrite S. unfold group1 in *. rewrite G in *.
    destruct (@digit_range c 48 53 ltac:(lia) ltac:(lia) Hc) as [Dc Vc].
    assert (Q : exists q0, parse_decimal (c :: dot ++ ds) = Some q0 /\
                           (0 <= q0)%Q /\ (q0 <= 6)%Q).
    { destruct Hd as [-> | ->]; cbn [app] in *.
      - destruct ds as [|d ds].
        + exists (inject_Z (digit_val c)). split.
          * unfold parse_decimal. cbn [span_digits]. rewrite Dc.
            unfold digits_val. cbn [fold_left]. rewrite Z.mul_0_r, Z.add_0_l. reflexivity.
          * split; [change 0%Q with (inject_Z 0) | change 6%Q with (inject_Z 6)];
              rewrite <- Zle_Qle; lia.
        + exfalso. apply one_leading_digit_point in L. subst d. discriminate D.
      - destruct (pointed_value c Dc D) as (q0 & P & Lo & Hi).
        exists q0. split; [exact P|]. split.
        + eapply Qle_trans; [|exact Lo]. change 0%Q with (inject_Z 0).
          rewrite <- Zle_Qle. lia.
        + eapply Qle_trans; [exact Hi|]. change 6%Q with (inject_Z 6).
          rewrite <- Zle_Qle. lia. }
    destruct Q as (q0 & P & H0 & H6). unfold float_of_str. rewrite P. cbn [bind].
    destruct (@rnd_le_grid 6 q0 six_on_grid H0 H6) as (v & E & Hv0 & Hv6).
    rewrite E. exists v. auto.
  - intros m S1 S2. pose proof (search_sound _ _ S2) as [_ M].
    apply matches_bare_rating_shape in M as (c & fp & G & Hc & D).
    unfold parse_rating. rewrite S1, S2. unfold group1. rewrite G.
    destruct (@digit_range c 52 53 ltac:(lia) ltac:(lia) Hc) as [Dc Vc].
    destruct (pointed_value c Dc D) as (q0 & P & Lo & Hi).
    unfold float_of_str.
    destruct (parse_decimal _) as [q1|]; [injection P as -> | discriminate P].
    cbn [bind].
    destruct (@rnd_between 4 6 q0 four_on_grid six_on_grid) as (v & E & Hv).
    + reflexivity.
    + eapply Qle_trans; [|exact Lo]. change 4%Q with (inject_Z 4).
      rewrite <- Zle_Qle. lia.
    + eapply Qle_trans; [exact Hi|]. change 6%Q with (inject_Z 6).
      rewrite <- Zle_Qle. lia.
    + rewrite E. exists v. split; [reflexivity | exact Hv].
Qed.

(** X12.  After a text without digit, a whole number of at most 640
    digits followed by blanks and the word [review] or [rating] is the
    review count, exactly and whatever the limit on integer strings.
    The digits need not be a number of their own: when digits and a
    character that is no digit, no blank and no [r] stand before them,
    the count is still the digits after that character, so
    [4.7 ratings] counts 7 reviews and [1,234 reviews] counts 234. *)
Theorem review_count_read lim pre ds sp kw post :
  no_digit pre -> ds <> [] -> all_digits_p ds -> (length ds <= 640)%nat ->
  all_space sp -> kw = u "review" \/ kw = u "rating" ->
  parse_review lim (pre ++ ds ++ sp ++ kw ++ post) = Ok (digits_val ds) /\
  (forall ds1 x, all_digits_p ds1 -> is_digit x = false ->
     after_review_number x = false ->
     parse_review lim (pre ++ ds1 ++ [x] ++ ds ++ sp ++ kw ++ post)
     = Ok (digits_val ds)).
Proof.
  intros N Hne D L A Hk.
  assert (Hd : forall c, is_digit c = true -> is_digit c = true) by auto.
  split.
  - apply parse_review_at; auto.
    apply (@quiet_no_digit review_re is_digit pre _ eq_refl Hd N).
  - intros ds1 x D1 Hx Hb. set (tail := ds ++ sp ++ kw ++ post).
    replace (pre ++ ds1 ++ [x] ++ tail) with ((pre ++ ds1 ++ [x]) ++ tail)
      by (rewrite <- !app_assoc; reflexivity).
    apply parse_review_at; auto.
    apply quiet_app; [apply (@quiet_no_digit review_re is_digit pre _ eq_refl Hd N)|].
    apply quiet_app; [apply (@quiet_before_break ds1 x tail D1 Hx Hb)|].
    apply (@quiet_no_digit review_re is_digit [x] tail eq_refl Hd).
    unfold no_digit. cbn [forallb]. rewrite Hx. reflexivity.
Qed.

Lemma review_count_read_witness :
  no_digit (u "Nice Widget ") /\ all_digits_p (u "7") /\
  parse_review 4300 (u "Nice Widget 4.7 ratings") = Ok 7%Z.
Proof.
  assert (N : no_digit (u "Nice Widget ")) by reflexivity.
  assert (Hne : u "7" <> []) by discriminate.
  assert (D : all_digits_p (u "7")) by reflexivity.
  assert (L : (length (u "7") <= 640)%nat) by (simpl; lia).
  assert (A : all_space (u " ")) by reflexivity.
  assert (Hk : u "rating" = u "review" \/ u "rating" = u "rating") by (right; reflexivity).
  assert (D1 : all_digits_p (u "4")) by reflexivity.
  split; [exact N|]. split; [exact D|].
  exact (proj2 (@review_count_read 4300 (u "Nice Widget ") (u "7") (u " ") (u "rating")
                  (u "s") N Hne D L A Hk)
           (u "4") 46 D1 eq_refl eq_refl).
Defined.

(** X13.  The product id is empty exactly when the href nowhere has
    [-g-] followed by a digit.  Otherwise it is the whole run of digits
    that follows the first [-g-] that has a digit after it.  The id of a
    record is the id of the href of its link. *)
Theorem product_id_spec href :
  (parse_product_id href = [] <-> forall a b, href = a ++ b -> ~ id_marker_at b) /\
  (parse_product_id href <> [] ->
   exists pre post,
     href = pre ++ u "-g-" ++ parse_product_id href ++ post /\
     all_digits_p (parse_product_id href) /\ stops is_digit post /\
     forall a b, pre = a ++ b -> b <> [] ->
                 ~ id_marker_at (b ++ u "-g-" ++ parse_product_id href ++ post)) /\
  (forall lim soup r, In r (parse_temu_html lim soup) ->
     exists link, In link (actual_products soup) /\
                  product_id r = parse_product_id (href_of link)).
Proof.
  split; [|split].
  - unfold parse_product_id. destruct (search product_id_re href) as [m|] eqn:S.
    + pose proof (search_sound _ _ S) as [E _].
      apply search_match_here in S.
      pose proof S as S'.
      apply match_here_product_id_some in S' as (ds & G & Ew & Hne & D & _).
      unfold group1. rewrite G. split; [congruence|].
      intros H. exfalso. apply (H (m_before m) (m_whole m ++ m_after m) E).
      destruct ds as [|d ds]; [congruence|].
      exists d, (ds ++ m_after m). split; [exact Ew|].
      unfold all_digits_p in D. simpl in D. apply andb_prop in D as [D _]. exact D.
    + split; [|reflexivity]. intros _ a b -> M.
      destruct (match_here product_id_re b) as [[rest g]|] eqn:Mb.
      * destruct (@match_here_search product_id_re a b rest g Mb) as [m Sm]. congruence.
      * apply match_here_product_id_none in Mb. exact (Mb M).
  - unfold parse_product_id. destruct (search product_id_re href) as [m|] eqn:S;
      [|congruence].
    intros _. pose proof (search_leftmost _ _ S) as [E L].
    pose proof (search_match_here _ _ S) as Mh.
    pose proof Mh as Mh'.
    apply match_here_product_id_some in Mh' as (ds & G & Ew & Hne & D & R).
    unfold group1. rewrite G.
    exists (m_before m), (m_after m). rewrite <- Ew.
    split; [exact E|]. split; [exact D|]. split; [exact R|].
    intros a b Eb Hb. apply match_here_product_id_none. apply (L a b Eb Hb).
  - intros lim soup r H. apply in_parse_temu_html in H as (link & Hin & E).
    exists link. split; [exact Hin|]. unfold process_link in E.
    apply build_record_inv in E
      as (_ & _ & _ & _ & _ & _ & _ & _ & _ & _ & _ & P & _).
    exact P.
Qed.

(** X14.  The url of every record is absolute: it begins with [http].
    An href that begins with [http] is kept as it is, any other one is
    put after [https://www.temu.com]; in both cases the url still has
    the shape of a product address. *)
Theorem record_url_absolute lim soup r :
  In r (parse_temu_html lim soup) ->
  exists link,
    In link (actual_products soup) /\ process_link lim link = Ok (Some r) /\
    startswith (u "http") (url r) = true /\
    (if startswith (u "http") (href_of link)
     then url r = href_of link
     else url r = u "https://www.temu.com" ++ href_of link) /\
    product_url_shape (url r).
Proof.
  intros H. apply in_parse_temu_html in H as (link & Hin & E).
  exists link. split; [exact Hin|]. split; [exact E|].
  unfold process_link in E.
  apply build_record_inv in E as (_ & _ & _ & _ & _ & _ & _ & _ & _ & _ & _ & _ & U).
  fold (href_of link) in U. rewrite U. unfold make_url.
  assert (S : product_url_shape (href_of link)).
  { apply actual_products_in in Hin as (_ & T & _).
    apply tag_matches_spec in T as (attrs & contents & href & En & L & S).
    unfold href_of. rewrite En. cbn [get]. rewrite L. exact S. }
  destruct (startswith (u "http") (href_of link)) eqn:B; cbn [negb].
  - split; [exact B|]. split; [reflexivity | exact S].
  - split; [reflexivity|]. split; [reflexivity|].
    destruct S as (pre & mid & post & -> & N).
    exists (base_url ++ pre), mid, post. split; [|exact N].
    rewrite <- app_assoc. reflexivity.
Qed.

Lemma record_url_absolute_witness :
  In scenario_a_record (parse_temu_html 4300 scenario_a_doc) /\
  exists link, process_link 4300 link = Ok (Some scenario_a_record) /\
               startswith (u "http") (url scenario_a_record) = true.
Proof.
  assert (H : In scenario_a_record (parse_temu_html 4300 scenario_a_doc))
    by (vm_compute; left; reflexivity).
  split; [exact H|].
  destruct (@record_url_absolute 4300 scenario_a_doc scenario_a_record H)
    as (link & _ & E & S & _).
  exists link. split; [exact E | exact S].
Defined.

(** X15.  The title of every record is clean: longer than 5 characters,
    without whitespace at either end, with the blank as its only
    whitespace character and never two blanks in a row; cleaning it
    again changes nothing. *)
Theorem record_title_clean lim soup r :
  In r (parse_temu_html lim soup) ->
  (5 < length (title r))%nat /\
  strip (title r) = title r /\
  (forall c, In c (title r) -> isspace c = true -> c = 32) /\
  ~ substring (u "  ") (title r) /\
  clean_title (title r) = title r.
Proof.
  intros H. apply in_parse_temu_html in H as (link & _ & E).
  unfold process_link in E.
  apply build_record_inv in E as (_ & _ & _ & _ & _ & _ & _ & _ & _ & T & L & _).
  rewrite clean_title_collapsed in T. rewrite T in *. unfold collapsed.
  pose proof (words_are_words (get_text_strip (el_node link))) as W.
  split; [exact L|]. split; [apply join_blank_stripped, W|].
  split; [intros c; apply join_blank_spaces, W|].
  split; [apply contains_false, join_blank_single_spaced, W|].
  rewrite clean_title_collapsed. apply collapsed_idem.
Qed.

Lemma record_title_clean_witness :
  In scenario_a_record (parse_temu_html 4300 scenario_a_doc) /\
  clean_title (title scenario_a_record) = title scenario_a_record.
Proof.
  assert (H : In scenario_a_record (parse_temu_html 4300 scenario_a_doc))
    by (vm_compute; left; reflexivity).
  split; [exact H|].
  exact (proj2 (proj2 (proj2 (proj2
           (@record_title_clean 4300 scenario_a_doc scenario_a_record H))))).
Defined.

(** X16.  The text of a link is part of the text of its container, so
    what the link itself shows is read with the rest of the card; a link
    whose own text has [Rs.] gets its immediate parent as container. *)
Theorem link_text_in_container soup link :
  In link (actual_products soup) ->
  substring (get_text (el_node link)) (parent_text_of link) /\
  (contains (u "Rs.") (get_text (el_node link)) = true ->
   container link = find_parent link).
Proof.
  intros H. apply actual_products_in in H as (D & _).
  assert (Up : forall p, In p (el_parents link) ->
                         substring (get_text (el_node link)) (get_text p)).
  { apply (@descendants_text soup [] link D). intros p []. }
  pose proof (descendants_parents _ _ _ D) as Hne.
  split.
  - unfold parent_text_of. destruct (container link) as [p|] eqn:C.
    + apply Up, (container_in_parents _ C).
    + unfold container in C. destruct (climb (el_parents link)); [discriminate|].
      unfold find_parent in C. destruct (el_parents link); [congruence | discriminate].
  - intros R. unfold container, find_parent.
    destruct (el_parents link) as [|p above]; [congruence|].
    cbn [climb hd_error].
    destruct (negb (str_eqb (name p) (u "body"))); [|reflexivity].
    assert (contains (u "Rs.") (get_text p) = true) as ->; [|reflexivity].
    apply contains_spec. apply contains_spec in R.
    eapply substring_trans; [exact R | apply Up; left; reflexivity].
Qed.

Lemma link_text_in_container_witness :
  In (card_link scenario_a_href (u "Nice Widget") scenario_a_text)
     (actual_products scenario_a_doc) /\
  substring (u "Nice Widget")
            (parent_text_of (card_link scenario_a_href (u "Nice Widget") scenario_a_text)).
Proof.
  assert (H : In (card_link scenario_a_href (u "Nice Widget") scenario_a_text)
                 (actual_products scenario_a_doc))
    by (vm_compute; left; reflexivity).
  split; [exact H|].
  exact (proj1 (@link_text_in_container scenario_a_doc _ H)).
Defined.

(** X17.  A container whose text has no digit gives the record of
    defaults: no price, discount 0, nothing sold, rating 0, no review;
    and its link gives a record exactly when the title is longer than 5
    characters. *)
Theorem digitless_container_defaults lim link :
  no_digit (parent_text_of link) ->
  ((exists r, process_link lim link = Ok (Some r)) <->
   (5 < length (collapsed (get_text_strip (el_node link))))%nat) /\
  (forall r, process_link lim link = Ok (Some r) ->
     current_price r = None /\ original_price r = None /\
     discount_percent r = PyInt 0 /\ sold_count r = 0%Z /\
     rating r = PyInt 0 /\ review_count r = 0%Z).
Proof.
  intros N. set (text := parent_text_of link) in *.
  assert (Ss : search sold_re text = None)
    by (apply (@search_no_digit sold_re text is_digit); auto).
  assert (Sr : search rating_re text = None)
    by (apply (@search_no_digit rating_re text _ eq_refl upto_five_digit N)).
  assert (Sb : search bare_rating_re text = None)
    by (apply (@search_no_digit bare_rating_re text _ eq_refl four_five_digit N)).
  assert (Sv : search review_re text = None)
    by (apply (@search_no_digit review_re text is_digit); auto).
  assert (B : forall href raw,
            build_record lim href raw text
            = if nonempty (clean_title raw) && (5 <? length (clean_title raw))%nat
              then Ok (Some {| product_id := parse_product_id href;
                               title := clean_title raw;
                               current_price := None;
                               original_price := None;
                               discount_percent := PyInt 0;
                               sold_count := 0;
                               rating := PyInt 0;
                               review_count := 0;
                               url := make_url href |})
              else Ok None).
  { intros href raw. unfold build_record, parse_sold, parse_rating, parse_review.
    rewrite (parse_prices_no_digit N), Ss, Sr, Sb, Sv. reflexivity. }
  unfold process_link. fold text. rewrite B. rewrite <- clean_title_collapsed.
  destruct (nonempty _ && _) eqn:G.
  - split.
    + split; [intros _; apply gate_length, G | eauto].
    + intros r E. injection E as <-. repeat split.
  - split.
    + split; [intros [r E]; discriminate E|].
      intros L. apply gate_length in L. congruence.
    + intros r E. discriminate E.
Qed.

Lemma digitless_container_defaults_witness :
  no_digit (parent_text_of plain_link) /\
  exists r, process_link 4300 plain_link = Ok (Some r) /\
            current_price r = None /\ rating r = PyInt 0.
Proof.
  assert (N : no_digit (parent_text_of plain_link)) by reflexivity.
  split; [exact N|].
  destruct (@digitless_container_defaults 4300 plain_link N) as [[_ G] D].
  destruct G as [r E]; [vm_compute; lia|].
  exists r. split; [exact E|].
  destruct (D r E) as (C & _ & _ & _ & R & _). split; assumption.
Defined.

(** X18.  The records come in the order of their links in the document,
    one for each link that is accepted and none for the others: never
    more records than filtered links, nor more filtered links than
    links found. *)
Theorem records_follow_links lim soup :
  Forall2 (fun link r => process_link lim link = Ok (Some r))
          (filter (accepted lim) (actual_products soup)) (parse_temu_html lim soup) /\
  (length (parse_temu_html lim soup) <= length (actual_products soup))%nat /\
  (length (actual_products soup) <= length (product_links soup))%nat.
Proof.
  destruct (flat_map_emitted lim (actual_products soup)) as [F L].
  split; [exact F|]. split; [exact L|]. apply filter_length_le.
Qed.

(** X19.  What stands in comments, scripts and styles never reaches a
    record: whatever these strings are changed to, the same links are
    kept and the same records come out. *)
Theorem comments_do_not_count lim f soup :
  parse_temu_html lim (recomment f soup) = parse_temu_html lim soup /\
  length (actual_products (recomment f soup)) = length (actual_products soup).
Proof.
  rewrite actual_products_recomment. split; [|apply length_map].
  unfold parse_temu_html. rewrite actual_products_recomment.
  rewrite !flat_map_concat_map, map_map. f_equal.
  apply map_ext. intros link. unfold emitted. rewrite process_link_recomment. reflexivity.
Qed.

(** X20.  [save_to_csv] changes no file but the output file, and with
    no record it changes nothing at all: an output file left by an
    earlier run is kept.  With records, what it writes does not depend
    on what the file held before (the file is replaced, not extended),
    and saving the same records again changes nothing more. *)
Theorem save_to_csv_frame lim float_repr products output_file fs :
  (forall path, path <> output_file ->
     fst (save_to_csv lim float_repr products output_file fs) path = fs path) /\
  (products = [] -> fst (save_to_csv lim float_repr products output_file fs) = fs) /\
  (forall fs', products <> [] ->
     fst (save_to_csv lim float_repr products output_file fs) output_file
     = fst (save_to_csv lim float_repr products output_file fs') output_file) /\
  (forall path,
     fst (save_to_csv lim float_repr products output_file
            (fst (save_to_csv lim float_repr products output_file fs))) path
     = fst (save_to_csv lim float_repr products output_file fs) path).
Proof.
  rewrite !save_to_csv_fst. destruct products as [|p ps].
  - repeat split; intros; try reflexivity. congruence.
  - split; [intros path H; apply write_file_other, H|].
    split; [discriminate|].
    split; [intros fs' _; rewrite save_to_csv_fst; rewrite !write_file_read; reflexivity|].
    intros path. unfold write_file. destruct (String.eqb path output_file); reflexivity.
Qed.

(** X21.  A price cell is empty exactly for an absent price and for a
    price of zero, which the file cannot tell apart.  The prices of the
    records the extractor emits are never zero, so in their rows an
    empty price cell means an absent price. *)
Theorem blank_price_cells float_repr :
  (forall x, float_repr x <> []) ->
  (forall p, cell_text float_repr (price_cell p) = [] <->
             p = None \/ exists q, p = Some (Finite q) /\ (q == 0)%Q) /\
  (forall lim soup r, In r (parse_temu_html lim soup) ->
     (nth 2 (row_cells float_repr r) [] = [] <-> current_price r = None) /\
     (nth 3 (row_cells float_repr r) [] = [] <-> original_price r = None)).
Proof.
  intros R.
  assert (C : forall p, cell_text float_repr (price_cell p) = [] <->
                        p = None \/ exists q, p = Some (Finite q) /\ (q == 0)%Q).
  { intros [x|]; cbn [price_cell].
    - destruct (ftruth x) eqn:T; cbn [cell_text].
      + split; [intros E; exfalso; exact (R x E)|].
        intros [E | (q & E & Z)]; [discriminate E|]. injection E as ->.
        cbn [ftruth] in T. unfold is_zero in T. apply negb_true_iff in T.
        apply Qeq_bool_iff in Z. congruence.
      + split; [|reflexivity]. intros _. right.
        destruct x as [q|s|]; try discriminate T. exists q. split; [reflexivity|].
        cbn [ftruth] in T. apply negb_false_iff in T. apply Qeq_bool_iff, T.
    - split; [auto | reflexivity]. }
  split; [exact C|].
  intros lim soup r H. apply in_parse_temu_html in H as (link & _ & E).
  unfold process_link in E.
  apply build_record_inv in E as (prices & _ & F & Ec & Eo & _).
  assert (P : forall p x, p = Some x -> positive x ->
                          cell_text float_repr (price_cell p) = [] <-> p = None).
  { intros p x -> Px. cbn [price_cell]. rewrite (positive_truth Px). cbn [cell_text].
    split; [intros E; exfalso; exact (R x E) | discriminate]. }
  cbn [row_cells nth]. split.
  - destruct (current_price r) as [x|] eqn:Cx; [|split; reflexivity].
    apply (P _ x eq_refl). symmetry in Ec. apply (pick_current_positive F Ec).
  - destruct (original_price r) as [x|] eqn:Ox; [|split; reflexivity].
    apply (P _ x eq_refl). symmetry in Eo.
    apply pick_original_spec in Eo as (c & rest & -> & G).
    inversion F as [|? ? _ F']. inversion F'. assumption.
Qed.

Lemma blank_price_cells_witness :
  (forall x : pyfloat, sample_repr x <> []) /\
  nth 2 (row_cells sample_repr free_record) [] = [] /\
  current_price free_record <> None.
Proof.
  assert (R : forall x : pyfloat, sample_repr x <> []) by (intros x; discriminate).
  split; [exact R|]. split; [|discriminate].
  apply (proj1 (@blank_price_cells sample_repr R)). right.
  exists 0%Q. split; reflexivity.
Defined.

(** X22.  [main] changes no file but [temu_products.csv]; the input
    file in particular stays as it is.  Without the input file, or when
    the input gives no record, it changes nothing at all: a csv file
    left by an earlier run stays as it was. *)
Theorem main_frame lim float_repr html_parser fs :
  (forall path, path <> OUTPUT_CSV_FILE ->
     main lim float_repr html_parser fs path = fs path) /\
  main lim float_repr html_parser fs INPUT_HTML_FILE = fs INPUT_HTML_FILE /\
  (fs INPUT_HTML_FILE = None -> main lim float_repr html_parser fs = fs) /\
  (forall html_content,
     fs INPUT_HTML_FILE = Some html_content ->
     parse_temu_html lim (html_parser html_content) = [] ->
     main lim float_repr html_parser fs = fs).
Proof.
  assert (G : forall path, path <> OUTPUT_CSV_FILE ->
                main lim float_repr html_parser fs path = fs path).
  { unfold main. destruct (fs INPUT_HTML_FILE) as [html|]; [|reflexivity].
    cbv zeta. destruct (parse_temu_html lim (html_parser html)) as [|p ps] eqn:P;
      [reflexivity|].
    rewrite save_to_csv_fst. intros path H.
    apply write_file_other, H. }
  split; [exact G|].
  split; [apply G; discriminate|]. unfold main. split.
  - intros ->. reflexivity.
  - intros html -> ->. reflexivity.
Qed.

(** X23.  When the input file is there and gives at least one record,
    [main] leaves in [temu_products.csv] the header and one row for each
    record written, in the order of extraction, as the reader of the
    dialect reads them back.  The records written are those before the
    first one whose title or url holds a surrogate, which the UTF-8
    file refuses: nothing else in a record of the extractor can stop a
    write, its integers being within what [str] converts.  So when no
    title and no url holds a surrogate every record has its row. *)
Theorem main_writes_records lim float_repr html_parser fs html_content :
  (forall x, encodable (float_repr x) = true) ->
  fs INPUT_HTML_FILE = Some html_content ->
  parse_temu_html lim (html_parser html_content) <> [] ->
  exists content,
    main lim float_repr html_parser fs OUTPUT_CSV_FILE = Some content /\
    Csv.reader content
    = fieldnames :: map (row_cells float_repr)
                        (written lim float_repr
                           (parse_temu_html lim (html_parser html_content))) /\
    (forall r, In r (parse_temu_html lim (html_parser html_content)) ->
       writable lim float_repr r = encodable (title r) && encodable (url r)) /\
    ((forall r, In r (parse_temu_html lim (html_parser html_content)) ->
        encodable (title r) = true /\ encodable (url r) = true) ->
     Csv.reader content
     = fieldnames :: map (row_cells float_repr)
                         (parse_temu_html lim (html_parser html_content))).
Proof.
  intros R I N. unfold main. rewrite I. cbv zeta.
  set (records := parse_temu_html lim (html_parser html_content)) in *.
  assert (W : forall r, In r records ->
                writable lim float_repr r = encodable (title r) && encodable (url r)).
  { intros r H. apply (@parsed_writable_iff lim float_repr (html_parser html_content) r R H). }
  destruct records as [|p ps] eqn:P; [congruence|].
  rewrite save_to_csv_fst.
  eexists. split; [apply write_file_read|].
  unfold csv_text. rewrite reader_writer.
  split; [reflexivity|]. split; [exact W|].
  intros H. rewrite written_all; [reflexivity|].
  apply forallb_forall. intros r Hr. rewrite (W r Hr).
  destruct (H r Hr) as [-> ->]. reflexivity.
Qed.

Lemma main_writes_records_witness :
  (forall x, encodable (sample_repr x) = true) /\
  input_only INPUT_HTML_FILE = Some (u "<html>") /\
  exists content,
    main 4300 sample_repr sample_parser input_only OUTPUT_CSV_FILE = Some content /\
    Csv.reader content = [fieldnames; row_cells sample_repr scenario_a_record].
Proof.
  assert (R : forall x, encodable (sample_repr x) = true) by (intros x; reflexivity).
  assert (I : input_only INPUT_HTML_FILE = Some (u "<html>")) by reflexivity.
  assert (N : parse_temu_html 4300 (sample_parser (u "<html>")) <> [])
    by (vm_compute; discriminate).
  split; [exact R|]. split; [exact I|].
  destruct (@main_writes_records 4300 sample_repr sample_parser input_only (u "<html>") R I N)
    as (content & E & Rd & _).
  exists content. split; [exact E|]. rewrite Rd. vm_compute. reflexivity.
Defined.

(** X24.  Running [main] a second time changes nothing more: the input
    file is still what it was, so the same records are written again. *)
Theorem main_twice lim float_repr html_parser fs path :
  main lim float_repr html_parser (main lim float_repr html_parser fs) path
  = main lim float_repr html_parser fs path.
Proof.
  assert (I : main lim float_repr html_parser fs INPUT_HTML_FILE = fs INPUT_HTML_FILE).
  { unfold main. destruct (fs INPUT_HTML_FILE) as [html|] eqn:E; [|exact E].
    cbv zeta. destruct (parse_temu_html lim (html_parser html)) as [|p ps]; [exact E|].
    rewrite save_to_csv_fst. rewrite write_file_other by discriminate.
    exact E. }
  unfold main at 1. rewrite I. unfold main.
  destruct (fs INPUT_HTML_FILE) as [html|]; [|reflexivity].
  cbv zeta. destruct (parse_temu_html lim (html_parser html)) as [|p ps]; [reflexivity|].
  rewrite !save_to_csv_fst.
  unfold write_file. destruct (String.eqb path OUTPUT_CSV_FILE); reflexivity.
Qed.

(** X25.  [save_to_csv] returns exactly when every record can be
    written.  Otherwise it raises at the first record that cannot be:
    [ValueError] when [str] refuses one of its integers,
    [UnicodeEncodeError] when its integers are fine and a cell holds a
    surrogate.  The records before that one can all be written, and the
    file is left with the header and their rows, without any part of
    the row that failed nor of the rows after it. *)
Theorem save_to_csv_outcome lim float_repr products output_file fs :
  (snd (save_to_csv lim float_repr products output_file fs) = Ok tt <->
   forallb (writable lim float_repr) products = true) /\
  (forall e,
     snd (save_to_csv lim float_repr products output_file fs) = Raise e ->
     exists done bad rest,
       products = done ++ bad :: rest /\
       forallb (writable lim float_repr) done = true /\
       writable lim float_repr bad = false /\
       (e = ValueError /\ integers_printable lim bad = false \/
        e = UnicodeEncodeError /\ integers_printable lim bad = true /\
        forallb encodable (row_cells float_repr bad) = false) /\
       fst (save_to_csv lim float_repr products output_file fs) output_file
       = Some (csv_text (fieldnames :: map (row_cells float_repr) done))).
Proof.
  split; [apply save_to_csv_returns|].
  intros e E. pose proof E as E'.
  apply save_to_csv_raise in E' as (bad & rest & Eps & Wb & Ee).
  exists (written lim float_repr products), bad, rest.
  split; [exact Eps|]. split; [apply written_writable|]. split; [exact Wb|].
  split.
  - destruct (integers_printable lim bad) eqn:P; [right | left; auto].
    split; [exact Ee|]. split; [reflexivity|].
    unfold writable in Wb. unfold integers_printable in P. rewrite P in Wb. exact Wb.
  - rewrite save_to_csv_fst. destruct products as [|p ps]; [discriminate E|].
    apply write_file_read.
Qed.
